(** * Ralph Mode: the autonomous fix loop and its dashboard

    A shallow embedding of the JavaScript programs of the repository
    that carry behaviour worth verifying:

    - [dashboard-server.js]: the dashboard's in-memory run state, the
      reducer [updateRalphState], the snapshot [getSerializableState],
      the broadcaster [emitEvent], the WebSocket connection handler and
      the port search of [startDashboard];
    - the QA watcher script: [isNonRetryableError], [withRetry],
      [countAutoFixable], [getAutoFixableForFile], the backup helpers,
      [verifyFix], [runRalphCycle] and [runRalphMode]; the summaries
      [buildSeverityCounts], [buildIssueTypeCounts], [getFilesWithIssues]
      and [escapeHtml]; the pre-commit scan [runStagedScan]; the
      configuration functions [validateConfig] and [mergeConfig]; the
      file selection [loadQaIgnore], [patternToRegex], [isFileIgnored]
      and [shouldReviewFile];
    - the hook setup script.

    JavaScript numbers that carry money, and the cycle limit, which a
    configuration file may set to any number, are modelled as exact
    rationals ([Q]); counters and line numbers as [Z]; objects used as dictionaries
    as [gmap]; [Set]s of ids as [gset]; optional object fields as
    [option].  Effects (the file system, timers, child processes, the
    dashboard) are threaded through an explicit world.

    What is left out: console output, desktop notifications, the HTML
    reports and the metrics file written at the end of a cycle and of a
    run.  They read the run's state and never write to it; the model
    takes their file writes to succeed. *)

From Stdlib Require Import ZArith QArith Qround Lqa String Ascii List Lia Sorted.
From stdpp Require Import gmap strings list fin_maps pretty.

Local Open Scope string_scope.
Local Open Scope list_scope.

(** ** JavaScript truthiness of the values the code tests with [||] *)

(** [x || d] on a possibly undefined number: [0] and [undefined] are falsy. *)
Definition js_or_Q (x : option Q) (d : Q) : Q :=
  match x with
  | Some v => if Qeq_bool v 0 then d else v
  | None => d
  end.

Definition js_or_Z (x : option Z) (d : Z) : Z :=
  match x with
  | Some v => if Z.eqb v 0 then d else v
  | None => d
  end.

(** [x || d] on a possibly undefined string: the empty string is falsy. *)
Definition js_or_string (x : option string) (d : string) : string :=
  match x with
  | Some v => if decide (v = "") then d else v
  | None => d
  end.

(** Truthiness of a possibly undefined number, as in [if (data.cost)]. *)
Definition js_truthy_Q (x : option Q) : bool :=
  match x with
  | Some v => negb (Qeq_bool v 0)
  | None => false
  end.

(** Template literal [`${file}:${line}`]. *)
Definition issue_key (file : string) (line : Z) : string :=
  file ++ ":" ++ pretty line.

(** ** Event payloads

    The data object handed to [emitEvent] is an object literal.  It is
    modelled as the list of its fields; a field that is absent reads as
    [undefined] ([None]). *)

(** An issue as it travels inside a [detection_complete] payload. *)
Record IssueInfo := mkIssueInfo {
  ii_id : option string;
  ii_file : string;
  ii_line : Z;
  ii_severity : string;
  ii_type : string;
  ii_message : string;
  ii_autoFixable : option bool
}.

Inductive Field :=
| FMaxCycles (v : Q)
| FBudgetHard (v : Q)
| FCycle (v : Z)
| FIssues (v : list IssueInfo)
| FCost (v : Q)
| FIssueIds (v : list string)
| FFile (v : string)
| FProgress (v : Z)
| FFixed (v : list string)
| FFailed (v : list string)
| FTotalCost (v : Q)
| FMessage (v : string)
| FLevel (v : string)
| FStatus (v : string)
| FReason (v : string)
| FNumber (name : string) (v : Q)
| FFlag (name : string) (v : bool).

Definition EventData := list Field.

Section Accessors.

Context {A : Type} (pick : Field -> option A).

(** The first field of [d] that [pick] recognises. *)
Fixpoint field (d : EventData) : option A :=
  match d with
  | [] => None
  | f :: rest =>
      match pick f with
      | Some v => Some v
      | None => field rest
      end
  end.

End Accessors.

Definition d_maxCycles := field (fun f => match f with FMaxCycles v => Some v | _ => None end).
Definition d_budgetHard := field (fun f => match f with FBudgetHard v => Some v | _ => None end).
Definition d_cycle := field (fun f => match f with FCycle v => Some v | _ => None end).
Definition d_issues := field (fun f => match f with FIssues v => Some v | _ => None end).
Definition d_cost := field (fun f => match f with FCost v => Some v | _ => None end).
Definition d_issueIds := field (fun f => match f with FIssueIds v => Some v | _ => None end).
Definition d_file := field (fun f => match f with FFile v => Some v | _ => None end).
Definition d_progress := field (fun f => match f with FProgress v => Some v | _ => None end).
Definition d_fixed := field (fun f => match f with FFixed v => Some v | _ => None end).
Definition d_failed := field (fun f => match f with FFailed v => Some v | _ => None end).
Definition d_totalCost := field (fun f => match f with FTotalCost v => Some v | _ => None end).
Definition d_message := field (fun f => match f with FMessage v => Some v | _ => None end).
Definition d_level := field (fun f => match f with FLevel v => Some v | _ => None end).
Definition d_status := field (fun f => match f with FStatus v => Some v | _ => None end).
Definition d_reason := field (fun f => match f with FReason v => Some v | _ => None end).

(** * The dashboard server (dashboard-server.js) *)

Module Dashboard.

(** An entry of [ralphState.issues]: the payload issue spread into a new
    object together with [id], [status] and, later, [progress]. *)
Record Tracked := mkTracked {
  t_id : string;
  t_file : string;
  t_line : Z;
  t_severity : string;
  t_type : string;
  t_message : string;
  t_autoFixable : option bool;
  t_status : string;
  t_progress : option Z
}.

Record LogEntry := mkLogEntry {
  log_time : Z;
  log_message : option string;
  log_level : string
}.

(** The module-level [ralphState] object. *)
Record RalphState := mkRalphState {
  started : bool;
  cycle : option Z;
  maxCycles : option Q;
  budgetHard : Q;
  totalCost : Q;
  startTime : option Z;
  issues : gmap string Tracked;
  fixing : gset string;
  completed : gset string;
  logs : list LogEntry
}.

Definition initialState : RalphState :=
  {| started := false; cycle := Some 0%Z; maxCycles := Some 10%Q;
     budgetHard := 20; totalCost := 0; startTime := None;
     issues := ∅; fixing := ∅; completed := ∅; logs := [] |}.

Definition set_cycle (c : option Z) (m : option Q) (s : RalphState)
    : RalphState :=
  {| started := started s; cycle := c; maxCycles := m;
     budgetHard := budgetHard s; totalCost := totalCost s;
     startTime := startTime s; issues := issues s; fixing := fixing s;
     completed := completed s; logs := logs s |}.

Definition set_totalCost (q : Q) (s : RalphState) : RalphState :=
  {| started := started s; cycle := cycle s; maxCycles := maxCycles s;
     budgetHard := budgetHard s; totalCost := q;
     startTime := startTime s; issues := issues s; fixing := fixing s;
     completed := completed s; logs := logs s |}.

Definition set_sets (i : gmap string Tracked) (f c : gset string)
    (s : RalphState) : RalphState :=
  {| started := started s; cycle := cycle s; maxCycles := maxCycles s;
     budgetHard := budgetHard s; totalCost := totalCost s;
     startTime := startTime s; issues := i; fixing := f;
     completed := c; logs := logs s |}.

Definition set_logs (l : list LogEntry) (s : RalphState) : RalphState :=
  {| started := started s; cycle := cycle s; maxCycles := maxCycles s;
     budgetHard := budgetHard s; totalCost := totalCost s;
     startTime := startTime s; issues := issues s; fixing := fixing s;
     completed := completed s; logs := l |}.

Definition with_status (st : string) (p : option Z) (t : Tracked) : Tracked :=
  {| t_id := t_id t; t_file := t_file t; t_line := t_line t;
     t_severity := t_severity t; t_type := t_type t;
     t_message := t_message t; t_autoFixable := t_autoFixable t;
     t_status := st; t_progress := p |}.

(** [{ ...issue, id, status: 'detected' }] *)
Definition detected (id : string) (i : IssueInfo) : Tracked :=
  {| t_id := id; t_file := ii_file i; t_line := ii_line i;
     t_severity := ii_severity i; t_type := ii_type i;
     t_message := ii_message i; t_autoFixable := ii_autoFixable i;
     t_status := "detected"; t_progress := None |}.

(** [issue.id || `${issue.file}:${issue.line}`] *)
Definition issue_id (i : IssueInfo) : string :=
  js_or_string (ii_id i) (issue_key (ii_file i) (ii_line i)).

(** Body of the [data.issues.forEach] of [detection_complete]. *)
Definition add_detected (done : gset string) (m : gmap string Tracked)
    (i : IssueInfo) : gmap string Tracked :=
  let id := issue_id i in
  if decide (id ∈ done) then m else <[id := detected id i]> m.

(** Body of the [data.issueIds.forEach] of [fix_started]. *)
Definition start_fixing (s : RalphState) (id : string) : RalphState :=
  set_sets (alter (with_status "fixing" (Some 0%Z)) id (issues s))
           ({[id]} ∪ fixing s) (completed s) s.

(** Body of the [data.fixed.forEach] of [fix_complete]. *)
Definition mark_fixed (s : RalphState) (id : string) : RalphState :=
  set_sets (delete id (issues s)) (fixing s ∖ {[id]})
           ({[id]} ∪ completed s) s.

(** Body of the [data.failed.forEach] of [fix_complete]. *)
Definition mark_failed (s : RalphState) (id : string) : RalphState :=
  set_sets (alter (fun t => with_status "failed" (t_progress t) t) id (issues s))
           (fixing s ∖ {[id]}) (completed s) s.

(** Callback of the [ralphState.issues.forEach] of [fix_progress]. *)
Definition progress_of (d : EventData) (fx : gset string) (id : string)
    (t : Tracked) : option Tracked :=
  Some (if decide (Some (t_file t) = d_file d ∧ id ∈ fx)
        then with_status (t_status t) (d_progress d) t
        else t).

(** Iterating an optional array: [if (xs) xs.forEach(...)]. *)
Definition for_each {S A : Type} (xs : option (list A)) (body : S -> A -> S)
    (s : S) : S :=
  match xs with
  | Some l => foldl body s l
  | None => s
  end.

(** [updateRalphState(eventName, data)], with the clock reading [now]
    that [Date.now()] / [new Date()] would return. *)
Definition updateRalphState (now : Z) (eventName : string) (data : EventData)
    (s : RalphState) : RalphState :=
  if decide (eventName = "ralph_started") then
    {| started := true;
       maxCycles := Some (js_or_Q (d_maxCycles data) 10);
       budgetHard := js_or_Q (d_budgetHard data) 20;
       startTime := Some now;
       cycle := Some 0%Z;
       totalCost := 0;
       issues := ∅; fixing := ∅; completed := ∅; logs := [] |}
  else if decide (eventName = "cycle_started") then
    set_cycle (d_cycle data) (d_maxCycles data) s
  else if decide (eventName = "detection_complete") then
    let s1 :=
      set_sets (for_each (d_issues data) (add_detected (completed s)) ∅)
               ∅ (completed s) s in
    if js_truthy_Q (d_cost data)
    then set_totalCost (totalCost s1 + default 0 (d_cost data))%Q s1
    else s1
  else if decide (eventName = "fix_started") then
    for_each (d_issueIds data) start_fixing s
  else if decide (eventName = "fix_progress") then
    set_sets (map_imap (progress_of data (fixing s)) (issues s))
             (fixing s) (completed s) s
  else if decide (eventName = "fix_complete") then
    for_each (d_failed data) mark_failed
      (for_each (d_fixed data) mark_fixed s)
  else if decide (eventName = "cost_update") then
    set_totalCost (js_or_Q (d_totalCost data) (totalCost s)) s
  else if decide (eventName = "cycle_complete") then
    set_totalCost (js_or_Q (d_cost data) (totalCost s)) s
  else if decide (eventName = "ralph_complete") then
    set_totalCost (js_or_Q (d_totalCost data) (totalCost s)) s
  else if decide (eventName = "log_entry") then
    let pushed := logs s ++ [ {| log_time := now;
                                 log_message := d_message data;
                                 log_level := js_or_string (d_level data) "info" |} ] in
    set_logs (if (100 <? length pushed)%nat then tail pushed else pushed) s
  else s.

(** The snapshot sent to a late subscriber. *)
Record Snapshot := mkSnapshot {
  snap_started : bool;
  snap_cycle : option Z;
  snap_maxCycles : option Q;
  snap_budgetHard : Q;
  snap_totalCost : Q;
  snap_startTime : option Z;
  snap_issues : list Tracked;
  snap_fixing : list string;
  snap_completed : list string;
  snap_logs : list LogEntry
}.

(** [getSerializableState()].  [Array.from] over a [Map] or [Set] lists
    its members; the model lists them in key order. *)
Definition getSerializableState (s : RalphState) : Snapshot :=
  {| snap_started := started s;
     snap_cycle := cycle s;
     snap_maxCycles := maxCycles s;
     snap_budgetHard := budgetHard s;
     snap_totalCost := totalCost s;
     snap_startTime := startTime s;
     snap_issues := (map_to_list (issues s)).*2;
     snap_fixing := elements (fixing s);
     snap_completed := elements (completed s);
     snap_logs := logs s |}.

(** ** Observers and the broadcaster *)

Inductive ReadyState := CONNECTING | OPEN | CLOSING | CLOSED.

Inductive Payload :=
| NoData
| EventPayload (d : EventData)
| StatePayload (s : Snapshot).

(** [{ type, data, timestamp }] before [JSON.stringify]. *)
Record Message := mkMessage {
  msg_type : string;
  msg_data : Payload;
  msg_timestamp : option Z
}.

(** A WebSocket as the server sees it.  [ws_id] is the identity of the
    object, [ws_send_throws] says whether [ws.send] currently throws,
    and [ws_received] lists what [ws.send] accepted so far. *)
Record Socket := mkSocket {
  ws_id : nat;
  ws_readyState : ReadyState;
  ws_send_throws : bool;
  ws_received : list Message
}.

(** The module-level variables [isRunning], [clients], [ralphState]. *)
Record Server := mkServer {
  isRunning : bool;
  clients : list Socket;
  ralphState : RalphState
}.

Definition initialServer : Server :=
  {| isRunning := false; clients := []; ralphState := initialState |}.

Definition accept (msg : Message) (ws : Socket) : Socket :=
  {| ws_id := ws_id ws; ws_readyState := ws_readyState ws;
     ws_send_throws := ws_send_throws ws;
     ws_received := ws_received ws ++ [msg] |}.

(** [ws.send(msg)]: [None] when it throws. *)
Definition ws_send (msg : Message) (ws : Socket) : option Socket :=
  if ws_send_throws ws then None else Some (accept msg ws).

Definition is_open (ws : Socket) : bool :=
  match ws_readyState ws with OPEN => true | _ => false end.

(** [clients.delete(ws)] *)
Definition clients_delete (id : nat) (cs : list Socket) : list Socket :=
  filter (fun c => ws_id c ≠ id) cs.

(** The socket object [ws] held in [clients] after a successful send. *)
Definition clients_accept (msg : Message) (id : nat) (cs : list Socket)
    : list Socket :=
  (fun c => if decide (ws_id c = id) then accept msg c else c) <$> cs.

(** [clients.add(ws)] *)
Definition clients_add (ws : Socket) (cs : list Socket) : list Socket :=
  if decide (ws_id ws ∈ ws_id <$> cs)
  then (fun c => if decide (ws_id c = ws_id ws) then ws else c) <$> cs
  else cs ++ [ws].

(** Callback of the [clients.forEach] of [emitEvent]; [cs] is the live
    set, [ws] the member being visited. *)
Definition send_each (msg : Message) (cs : list Socket) (ws : Socket)
    : list Socket :=
  if is_open ws then
    match ws_send msg ws with
    | Some _ => clients_accept msg (ws_id ws) cs
    | None => clients_delete (ws_id ws) cs
    end
  else cs.

(** [emitEvent(eventName, data)] *)
Definition emitEvent (now : Z) (eventName : string) (data : EventData)
    (srv : Server) : Server :=
  let rs := updateRalphState now eventName data (ralphState srv) in
  if negb (isRunning srv) then
    {| isRunning := isRunning srv; clients := clients srv; ralphState := rs |}
  else
    let message := {| msg_type := eventName; msg_data := EventPayload data;
                      msg_timestamp := Some now |} in
    {| isRunning := isRunning srv;
       clients := foldl (send_each message) (clients srv) (clients srv);
       ralphState := rs |}.

(** The [wss.on('connection', ...)] handler.  An exception thrown by
    [ws.send] escapes the handler and ends it. *)
Definition onConnection (now : Z) (ws : Socket) (srv : Server) : Server :=
  let ack := {| msg_type := "connected"; msg_data := NoData;
                msg_timestamp := Some now |} in
  let sync := {| msg_type := "state_sync";
                 msg_data := StatePayload (getSerializableState (ralphState srv));
                 msg_timestamp := Some now |} in
  let ws' :=
    match ws_send ack ws with
    | None => ws
    | Some ws1 =>
        if started (ralphState srv)
        then default ws1 (ws_send sync ws1)
        else ws1
    end in
  {| isRunning := isRunning srv;
     clients := clients_add ws' (clients srv);
     ralphState := ralphState srv |}.

(** The ['close'] and ['error'] handlers of a socket. *)
Definition onSocketGone (id : nat) (srv : Server) : Server :=
  {| isRunning := isRunning srv;
     clients := clients_delete id (clients srv);
     ralphState := ralphState srv |}.

(** [startDashboard]: nothing happens without the optional dependencies
    or when the server already runs; [listening] says whether a port
    could be bound. *)
Definition startDashboard (available listening : bool) (srv : Server) : Server :=
  if negb available then srv
  else if isRunning srv then srv
  else {| isRunning := listening; clients := clients srv;
          ralphState := ralphState srv |}.

(** [stopDashboard] *)
Definition stopDashboard (srv : Server) : Server :=
  if negb (isRunning srv) then srv
  else {| isRunning := false; clients := []; ralphState := ralphState srv |}.

(** Everything that can happen to the server: events published by the
    run, and the traffic of its observers. *)
Inductive Action :=
| Emit (now : Z) (eventName : string) (data : EventData)
| Connect (now : Z) (ws : Socket)
| SocketGone (id : nat)
| SocketChanged (id : nat) (rs : ReadyState) (throws : bool)
| Start (available listening : bool)
| Stop.

Definition change_socket (id : nat) (rs : ReadyState) (throws : bool)
    (c : Socket) : Socket :=
  if decide (ws_id c = id)
  then {| ws_id := ws_id c; ws_readyState := rs; ws_send_throws := throws;
          ws_received := ws_received c |}
  else c.

Definition step (srv : Server) (a : Action) : Server :=
  match a with
  | Emit now eventName data => emitEvent now eventName data srv
  | Connect now ws => if isRunning srv then onConnection now ws srv else srv
  | SocketGone id => onSocketGone id srv
  | SocketChanged id rs throws =>
      {| isRunning := isRunning srv;
         clients := change_socket id rs throws <$> clients srv;
         ralphState := ralphState srv |}
  | Start available listening => startDashboard available listening srv
  | Stop => stopDashboard srv
  end.

Definition run (srv : Server) (acts : list Action) : Server :=
  foldl step srv acts.

(** The events published by the run, in order. *)
Definition published (acts : list Action) : list (Z * string * EventData) :=
  omap (fun a => match a with
                 | Emit now n d => Some (now, n, d)
                 | _ => None
                 end) acts.

(** The reducer folded over a list of published events. *)
Definition replay (s : RalphState) (evs : list (Z * string * EventData))
    : RalphState :=
  foldl (fun s ev => updateRalphState ev.1.1 ev.1.2 ev.2 s) s evs.

(** What one [emitEvent] does to one observer, taken alone. *)
Definition outcome_for (msg : Message) (ws : Socket) : option Socket :=
  if is_open ws then ws_send msg ws else Some ws.

End Dashboard.

(** * The QA watcher script: retry policy, fix transaction, Ralph loop *)

Module Watcher.

(** ** String helpers of the JavaScript standard library

    Messages and paths are modelled as strings of 8-bit characters;
    [toLowerCase] maps the letters A-Z and leaves every other character
    alone. *)

Definition lower_char (c : ascii) : ascii :=
  let n := nat_of_ascii c in
  if ((65 <=? n) && (n <=? 90))%nat then ascii_of_nat (n + 32) else c.

Fixpoint toLowerCase (s : string) : string :=
  match s with
  | EmptyString => EmptyString
  | String c r => String (lower_char c) (toLowerCase r)
  end.

(** [s.includes(sub)] *)
Fixpoint includes (sub s : string) : bool :=
  String.prefix sub s ||
  match s with
  | EmptyString => false
  | String _ r => includes sub r
  end.

(** [s.endsWith(suffix)] *)
Definition endsWith (suffix s : string) : bool :=
  String.prefix (String.rev suffix) (String.rev s).

(** [s.replace(/\\/g, '/')] *)
Fixpoint slashes (s : string) : string :=
  match s with
  | EmptyString => EmptyString
  | String c r =>
      String (if Ascii.eqb c "\"%char then "/"%char else c) (slashes r)
  end.

(** ** Data *)

(** An issue as the analysis engine reports it. *)
Record Issue := mkIssue {
  i_file : string;
  i_line : Z;
  i_severity : string;
  i_type : string;
  i_message : string;
  i_current : option string;
  i_fix : option string;
  i_autoFixable : option bool
}.

(** The part of [CONFIG] the Ralph loop reads. *)
Record Config := mkConfig {
  maxCycles : Q;
  budgetWarning : Q;
  budgetHard : Q;
  backupFiles : bool;
  verifyAfterFix : bool;
  safePatterns : list string;
  dashboardEnabled : bool
}.

Definition defaultConfig : Config :=
  {| maxCycles := 10; budgetWarning := 5; budgetHard := 20;
     backupFiles := true; verifyAfterFix := true;
     safePatterns := ["hardcoded-localhost"; "console-log"; "debugger-statement"];
     dashboardEnabled := true |}.

(** What a [throw] or a rejected promise carries: an [Error] object
    with its [message], or the value [undefined]. *)
Inductive Thrown :=
| ErrorObject (message : option string)
| UndefinedValue.

(** The parsed answer of a detection process. *)
Record ReviewResult := mkReviewResult {
  r_issues : option (list Issue);
  r_totalIssues : option Z;
  r_cost : option Q
}.

(** The parsed answer of a fix process. *)
Record FixResult := mkFixResult {
  f_fixed : bool;
  f_cost : option Q
}.

(** The module-level [ralphState] of the watcher script. *)
Record Ctl := mkCtl {
  cycle : Z;
  totalCost : Q;
  totalFixed : Z;
  totalIssuesFound : Z;
  startTime : option Z;
  stopped : bool
}.

Definition initialCtl : Ctl :=
  {| cycle := 0; totalCost := 0; totalFixed := 0; totalIssuesFound := 0;
     startTime := None; stopped := false |}.

(** Effects a run leaves behind, in the order they happen. *)
Inductive Obs :=
| SpawnedReview (files : list string)
| SpawnedFix (file : string) (issues : list Issue)
| Slept (ms : Z)
| Emitted (eventName : string) (data : EventData).

(** The file system maps a path to the content of the file there. *)
Abbreviation Files := (gmap string string).

(** Everything outside the script.  The three scripts are indexed by the
    number of suspension points ([await]) the run has passed:
    - [review_process n files fs]: the detection child process started
      at point [n] resolves with a parsed result or rejects (exit code,
      parse failure, spawn error, 60 s timeout); its tools are
      [Read,Grep], it edits nothing;
    - [fix_process n file issues fs]: the fix child process (tools
      [Read,Grep,Edit], 90 s timeout) together with the file system it
      leaves behind;
    - [sigint n]: whether the first Ctrl+C arrives during that wait;
    - [clock n]: what [Date.now()] reads there;
    - [dashboard]: whether the optional dashboard module was loaded;
    - [dashboard_listens]: whether its server can bind a port. *)
Record Env := mkEnv {
  review_process : nat -> list string -> Files -> ReviewResult + Thrown;
  fix_process : nat -> string -> list Issue -> Files -> (FixResult + Thrown) * Files;
  sigint : nat -> bool;
  clock : nat -> Z;
  dashboard : bool;
  dashboard_listens : bool
}.

(** The state a run threads through.  [w_costs] and [w_dash_costs] are
    ghost fields: the successive values of the script's
    [ralphState.totalCost] and of the dashboard's, oldest first. *)
Record World := mkWorld {
  w_fs : Files;
  w_ticks : nat;
  w_ctl : Ctl;
  w_dash : Dashboard.Server;
  w_trace : list Obs;
  w_costs : list Q;
  w_dash_costs : list Q
}.

Definition initialWorld (fs : Files) : World :=
  {| w_fs := fs; w_ticks := 0; w_ctl := initialCtl;
     w_dash := Dashboard.initialServer; w_trace := [];
     w_costs := [0%Q]; w_dash_costs := [0%Q] |}.

Definition with_fs (fs : Files) (w : World) : World :=
  {| w_fs := fs; w_ticks := w_ticks w; w_ctl := w_ctl w; w_dash := w_dash w;
     w_trace := w_trace w; w_costs := w_costs w;
     w_dash_costs := w_dash_costs w |}.

Definition with_ctl (c : Ctl) (w : World) : World :=
  {| w_fs := w_fs w; w_ticks := w_ticks w; w_ctl := c; w_dash := w_dash w;
     w_trace := w_trace w; w_costs := w_costs w;
     w_dash_costs := w_dash_costs w |}.

Definition observe (o : Obs) (w : World) : World :=
  {| w_fs := w_fs w; w_ticks := w_ticks w; w_ctl := w_ctl w; w_dash := w_dash w;
     w_trace := w_trace w ++ [o]; w_costs := w_costs w;
     w_dash_costs := w_dash_costs w |}.

Definition set_stopped (b : bool) (c : Ctl) : Ctl :=
  {| cycle := cycle c; totalCost := totalCost c; totalFixed := totalFixed c;
     totalIssuesFound := totalIssuesFound c; startTime := startTime c;
     stopped := b |}.

Definition set_cost (q : Q) (c : Ctl) : Ctl :=
  {| cycle := cycle c; totalCost := q; totalFixed := totalFixed c;
     totalIssuesFound := totalIssuesFound c; startTime := startTime c;
     stopped := stopped c |}.

Definition set_counters (cyc fixed found : Z) (c : Ctl) : Ctl :=
  {| cycle := cyc; totalCost := totalCost c; totalFixed := fixed;
     totalIssuesFound := found; startTime := startTime c;
     stopped := stopped c |}.

Definition set_startTime (t : Z) (c : Ctl) : Ctl :=
  {| cycle := cycle c; totalCost := totalCost c; totalFixed := totalFixed c;
     totalIssuesFound := totalIssuesFound c; startTime := Some t;
     stopped := stopped c |}.

(** ** The effect monad: state, and exceptions that keep the state *)

Inductive Outcome (A : Type) :=
| Returned (a : A)
| Threw (e : Thrown).
Arguments Returned {A} a.
Arguments Threw {A} e.

Definition M (A : Type) : Type := World -> Outcome A * World.

Definition ret {A} (a : A) : M A := fun w => (Returned a, w).

Definition throw {A} (e : Thrown) : M A := fun w => (Threw e, w).

Definition bind {A B} (m : M A) (k : A -> M B) : M B :=
  fun w =>
    match m w with
    | (Returned a, w1) => k a w1
    | (Threw e, w1) => (Threw e, w1)
    end.

(** [try { m } catch (e) { h e }] *)
Definition try_catch {A} (m : M A) (h : Thrown -> M A) : M A :=
  fun w =>
    match m w with
    | (Returned a, w1) => (Returned a, w1)
    | (Threw e, w1) => h e w1
    end.

Definition gets {A} (f : World -> A) : M A := fun w => (Returned (f w), w).

Definition modify (f : World -> World) : M unit := fun w => (Returned tt, f w).

Declare Scope js_scope.
Delimit Scope js_scope with js.
Notation "x <- m ;; k" := (bind m (fun x => k))
  (at level 100, m at next level, right associativity) : js_scope.
Notation "m ;; k" := (bind m (fun _ => k))
  (at level 100, right associativity) : js_scope.
Local Open Scope js_scope.

(** [error.message]: reading a property of [undefined] is a TypeError. *)
Definition message_of (error : Thrown) : M (option string) :=
  match error with
  | ErrorObject m => ret m
  | UndefinedValue =>
      throw (ErrorObject (Some "Cannot read properties of undefined (reading 'message')"))
  end.

(** [isNonRetryableError(error)] *)
Definition isNonRetryableError (error : Thrown) : M bool :=
  m <- message_of error ;;
  let msg := match m with Some s => toLowerCase s | None => "" end in
  ret (includes "not found" msg ||
       includes "permission denied" msg ||
       includes "invalid" msg ||
       includes "authentication" msg ||
       includes "401" msg ||
       includes "403" msg).

(** The auto-fixable test that [countAutoFixable],
    [getAutoFixableForFile], [executeClaudeFix] and the
    [detection_complete] payload share: the explicit flag when it is
    set, else membership of the type in [safePatterns]. *)
Definition inferAutoFixable (cfg : Config) (i : Issue) : bool :=
  match i_autoFixable i with
  | Some b => b
  | None => bool_decide (i_type i ∈ safePatterns cfg)
  end.

(** [countAutoFixable(issues)] *)
Definition countAutoFixable (cfg : Config) (issues : list Issue) : nat :=
  length (List.filter (inferAutoFixable cfg) issues).

(** [getAutoFixableForFile(issues, file)] *)
Definition getAutoFixableForFile (cfg : Config) (issues : list Issue)
    (file : string) : list Issue :=
  List.filter
    (fun i =>
       let matchesFile :=
         bool_decide (i_file i = file) ||
         endsWith file (i_file i) ||
         endsWith (i_file i) file ||
         bool_decide (slashes (i_file i) = slashes file) in
       if negb matchesFile then false else inferAutoFixable cfg i)
    issues.

(** [new Set(xs)] iterated: first occurrences, in insertion order. *)
Definition set_of_list (xs : list string) : list string :=
  foldl (fun acc x => if decide (x ∈ acc) then acc else acc ++ [x]) [] xs.

(** [`${i.file}:${i.line}`] *)
Definition issueId (i : Issue) : string := issue_key (i_file i) (i_line i).

Section Run.

Variable env : Env.
Variable cfg : Config.

(** ** Primitive effects *)

(** A suspension point: the SIGINT handler [gracefulShutdown] may run
    and set [ralphState.stopped].  (A second Ctrl+C exits the process
    and ends the execution; it is not part of the model.) *)
Definition await_point (w : World) : World :=
  {| w_fs := w_fs w; w_ticks := S (w_ticks w);
     w_ctl := set_stopped (stopped (w_ctl w) || sigint env (w_ticks w)) (w_ctl w);
     w_dash := w_dash w; w_trace := w_trace w; w_costs := w_costs w;
     w_dash_costs := w_dash_costs w |}.

(** [Date.now()] *)
Definition now : M Z := gets (fun w => clock env (w_ticks w)).

(** [await sleep(ms)] *)
Definition sleep (ms : Z) : M unit :=
  modify (fun w => await_point (observe (Slept ms) w)).

(** [dashboard?.emitEvent(eventName, data)] *)
Definition emit (eventName : string) (data : EventData) : M unit :=
  modify (fun w =>
    if dashboard env then
      let d := Dashboard.emitEvent (clock env (w_ticks w)) eventName data (w_dash w) in
      {| w_fs := w_fs w; w_ticks := w_ticks w; w_ctl := w_ctl w;
         w_dash := d;
         w_trace := w_trace w ++ [Emitted eventName data];
         w_costs := w_costs w;
         w_dash_costs :=
           w_dash_costs w ++ [Dashboard.totalCost (Dashboard.ralphState d)] |}
    else w).

(** [ralphState.totalCost += q] *)
Definition add_cost (q : Q) : M unit :=
  modify (fun w =>
    let total := (totalCost (w_ctl w) + q)%Q in
    {| w_fs := w_fs w; w_ticks := w_ticks w;
       w_ctl := set_cost total (w_ctl w);
       w_dash := w_dash w; w_trace := w_trace w;
       w_costs := w_costs w ++ [total];
       w_dash_costs := w_dash_costs w |}).

(** [await executeClaudeReview(files)]: spawn the detection process and
    wait for it. *)
Definition executeClaudeReview (files : list string) : M ReviewResult :=
  fun w =>
    let answer := review_process env (w_ticks w) files (w_fs w) in
    let w1 := await_point (observe (SpawnedReview files) w) in
    match answer with
    | inl r => (Returned r, w1)
    | inr e => (Threw e, w1)
    end.

(** [await executeClaudeFix(file, issues)]: resolves at once when no
    issue passes the auto-fixable test, else spawns the fix process. *)
Definition executeClaudeFix (file : string) (issues : list Issue) : M FixResult :=
  let autoFixableIssues := List.filter (inferAutoFixable cfg) issues in
  if (length autoFixableIssues =? 0)%nat then
    ret {| f_fixed := false; f_cost := None |}
  else
    fun w =>
      let '(answer, fs) := fix_process env (w_ticks w) file autoFixableIssues (w_fs w) in
      let w1 := await_point (observe (SpawnedFix file autoFixableIssues) (with_fs fs w)) in
      match answer with
      | inl r => (Returned r, w1)
      | inr e => (Threw e, w1)
      end.

(** ** Retry policy *)

(** The [for (attempt = 1; attempt <= maxAttempts; attempt++)] loop of
    [withRetry]; [remaining] counts the iterations still allowed, so the
    loop test is the match on it. *)
Fixpoint retry_loop {A} (fn : M A) (maxAttempts : nat) (baseDelay : Z)
    (remaining : nat) (attempt : Z) (lastError : Thrown) : M A :=
  match remaining with
  | O => throw lastError
  | S k =>
      try_catch fn (fun error =>
        fatal <- isNonRetryableError error ;;
        if fatal then throw error
        else
          (if (attempt <? Z.of_nat maxAttempts)%Z
           then sleep (baseDelay * 2 ^ (attempt - 1))%Z
           else ret tt) ;;
          retry_loop fn maxAttempts baseDelay k (attempt + 1)%Z error)
  end.

(** [withRetry(fn, { maxAttempts, baseDelay })] *)
Definition withRetry {A} (fn : M A) (maxAttempts : nat) (baseDelay : Z) : M A :=
  retry_loop fn maxAttempts baseDelay maxAttempts 1%Z UndefinedValue.

Definition executeClaudeReviewWithRetry (files : list string) : M ReviewResult :=
  withRetry (executeClaudeReview files) 3 1000.

Definition executeClaudeFixWithRetry (file : string) (issues : list Issue)
    : M FixResult :=
  withRetry (executeClaudeFix file issues) 3 1000.

(** ** Backups *)

(** [`${filePath}.backup-${timestamp}`] *)
Definition backup_path (filePath : string) (timestamp : Z) : string :=
  filePath ++ ".backup-" ++ pretty timestamp.

(** [fs.copyFileSync(src, dst)]; [None] when it throws because [src]
    does not exist. *)
Definition copyFileSync (src dst : string) (fs : Files) : option Files :=
  match fs !! src with
  | Some content => Some (<[dst := content]> fs)
  | None => None
  end.

(** [backupFile(filePath)]: the backup path, or [null]. *)
Definition backupFile (filePath : string) : M (option string) :=
  fun w =>
    let backupPath := backup_path filePath (clock env (w_ticks w)) in
    match copyFileSync filePath backupPath (w_fs w) with
    | Some fs => (Returned (Some backupPath), with_fs fs w)
    | None => (Returned None, w)
    end.

(** [restoreFromBackup(originalPath, backupPath)] *)
Definition restoreFromBackup (originalPath backupPath : string) : M bool :=
  fun w =>
    match copyFileSync backupPath originalPath (w_fs w) with
    | Some fs => (Returned true, with_fs (delete backupPath fs) w)
    | None => (Returned false, w)
    end.

(** [cleanupBackup(backupPath)] *)
Definition cleanupBackup (backupPath : string) : M unit :=
  modify (fun w => with_fs (delete backupPath (w_fs w)) w).

(** [if (backupPath) f(backupPath)] *)
Definition when_backup {A} (backupPath : option string) (f : string -> M A)
    : M unit :=
  match backupPath with
  | Some p => f p ;; ret tt
  | None => ret tt
  end.

(** ** Verification *)

Record Verification := mkVerification {
  v_verified : bool;
  v_autoFixableRemaining : option nat;
  v_error : option string
}.

(** [verifyFix(file)] *)
Definition verifyFix (file : string) : M Verification :=
  try_catch
    (result <- executeClaudeReviewWithRetry [file] ;;
     let autoFixableRemaining :=
       length (List.filter (fun i => bool_decide (i_autoFixable i = Some true))
                           (default [] (r_issues result))) in
     ret {| v_verified := (autoFixableRemaining =? 0)%nat;
            v_autoFixableRemaining := Some autoFixableRemaining;
            v_error := None |})
    (fun error =>
       m <- message_of error ;;
       ret {| v_verified := false; v_autoFixableRemaining := None;
              v_error := m |}).

(** ** One cycle *)

(** The object [runRalphCycle] returns. *)
Record CycleResult := mkCycleResult {
  complete : bool;
  reason : option string;
  remainingIssues : option (list Issue);
  error : option string;
  fixedThisCycle : option Z;
  issues : option (list Issue)
}.

Definition ctl : M Ctl := gets w_ctl.

(** [fixedCount += n; ralphState.totalFixed += n] leaves the local
    counter to the caller and updates the global one. *)
Definition add_fixed (n : Z) : M unit :=
  modify (fun w =>
    with_ctl (set_counters (cycle (w_ctl w)) (totalFixed (w_ctl w) + n)
                           (totalIssuesFound (w_ctl w)) (w_ctl w)) w).

Definition fix_complete_data (file : string) (success : bool)
    (fixed failed : list string) : EventData :=
  [FFile file; FFlag "success" success; FFixed fixed; FFailed failed].

Definition verification_data (file : string) (verified restored : bool)
    : EventData :=
  [FFile file; FFlag "verified" verified; FFlag "restored" restored].

(** The [try { ... } catch (fixError) { ... }] statement of the per-file
    loop: apply, verify, commit or roll back.  Returns the updated local
    [fixedCount]. *)
Definition fixTransaction (file : string) (fileIssues : list Issue)
    (issueIds : list string) (backupPath : option string) (fixedCount : Z)
    : M Z :=
  let n := Z.of_nat (length fileIssues) in
  try_catch
    (fixResult <- executeClaudeFixWithRetry file fileIssues ;;
     add_cost (js_or_Q (f_cost fixResult) 0) ;;
     if f_fixed fixResult then
       if verifyAfterFix cfg then
         verification <- verifyFix file ;;
         add_cost 0.02 ;;
         if v_verified verification then
           add_fixed n ;;
           when_backup backupPath cleanupBackup ;;
           emit "verification_result" (verification_data file true false) ;;
           emit "fix_complete" (fix_complete_data file true issueIds []) ;;
           ret (fixedCount + n)%Z
         else
           when_backup backupPath (restoreFromBackup file) ;;
           emit "verification_result" (verification_data file false true) ;;
           emit "fix_complete" (fix_complete_data file false [] issueIds) ;;
           ret fixedCount
       else
         add_fixed n ;;
         when_backup backupPath cleanupBackup ;;
         emit "fix_complete" (fix_complete_data file true issueIds []) ;;
         ret (fixedCount + n)%Z
     else
       when_backup backupPath cleanupBackup ;;
       emit "fix_complete" (fix_complete_data file false [] issueIds) ;;
       ret fixedCount)
    (fun fixError =>
       message_of fixError ;;
       when_backup backupPath (restoreFromBackup file) ;;
       emit "fix_complete" (fix_complete_data file false [] issueIds) ;;
       ret fixedCount).

(** How an iteration of the per-file loop ends: by [continue], or by
    reaching the [if (ralphState.stopped) break] at its bottom. *)
Inductive Iteration :=
| Continued (fixedCount : Z)
| ReachedEnd (fixedCount : Z).

(** Body of [for (const file of fileSet)] up to the stop check. *)
Definition fileIteration (issues : list Issue) (file : string)
    (fixedCount : Z) : M Iteration :=
  let fileIssues := getAutoFixableForFile cfg issues file in
  if (length fileIssues =? 0)%nat then ret (Continued fixedCount)
  else
    let issueIds := map issueId fileIssues in
    emit "fix_started"
      [FFile file; FNumber "issueCount" (inject_Z (Z.of_nat (length fileIssues)));
       FIssueIds issueIds] ;;
    backupPath <- (if backupFiles cfg then backupFile file else ret None) ;;
    if backupFiles cfg && negb (bool_decide (is_Some backupPath))
    then ret (Continued fixedCount)
    else
      n <- fixTransaction file fileIssues issueIds backupPath fixedCount ;;
      ret (ReachedEnd n).

(** [for (const file of fileSet) { ... }] *)
Fixpoint fixFiles (issues : list Issue) (fileSet : list string)
    (fixedCount : Z) : M Z :=
  match fileSet with
  | [] => ret fixedCount
  | file :: rest =>
      it <- fileIteration issues file fixedCount ;;
      match it with
      | Continued n => fixFiles issues rest n
      | ReachedEnd n =>
          c <- ctl ;;
          if stopped c then ret n else fixFiles issues rest n
      end
  end.

(** The issue objects of the [detection_complete] payload. *)
Definition issue_info (i : Issue) : IssueInfo :=
  {| ii_id := Some (issueId i); ii_file := i_file i; ii_line := i_line i;
     ii_severity := i_severity i; ii_type := i_type i;
     ii_message := i_message i;
     ii_autoFixable := Some (inferAutoFixable cfg i) |}.

(** [runRalphCycle(files)].  Console output, HTML reports,
    notifications and the metrics file are left out. *)
Definition runRalphCycle (files : list string) : M CycleResult :=
  modify (fun w =>
    with_ctl (set_counters (cycle (w_ctl w) + 1) (totalFixed (w_ctl w))
                           (totalIssuesFound (w_ctl w)) (w_ctl w)) w) ;;
  c <- ctl ;;
  emit "cycle_started" [FCycle (cycle c); FMaxCycles (maxCycles cfg)] ;;
  emit "detection_started" [FNumber "fileCount" (inject_Z (Z.of_nat (length files)))] ;;
  detected <-
    try_catch
      (detection <- executeClaudeReviewWithRetry files ;;
       add_cost (js_or_Q (r_cost detection) 0) ;;
       ret (inl detection))
      (fun error => m <- message_of error ;; ret (inr m)) ;;
  match detected with
  | inr m =>
      ret {| complete := false; reason := None; remainingIssues := None;
             error := m; fixedThisCycle := None; issues := None |}
  | inl detection =>
      let found := default [] (r_issues detection) in
      let autoFixable := countAutoFixable cfg found in
      let cost := js_or_Q (r_cost detection) 0 in
      modify (fun w =>
        with_ctl (set_counters (cycle (w_ctl w)) (totalFixed (w_ctl w))
                    (totalIssuesFound (w_ctl w) + Z.of_nat (length found))
                    (w_ctl w)) w) ;;
      emit "detection_complete"
        [FIssues (map issue_info found);
         FNumber "autoFixable" (inject_Z (Z.of_nat autoFixable));
         FCost cost] ;;
      c <- ctl ;;
      emit "cost_update" [FTotalCost (totalCost c); FNumber "cyclesCost" cost] ;;
      if (autoFixable =? 0)%nat then
        if (length found =? 0)%nat then
          ret {| complete := true; reason := Some "No issues found";
                 remainingIssues := None; error := None;
                 fixedThisCycle := None; issues := None |}
        else
          ret {| complete := true;
                 reason := Some "No auto-fixable issues remaining";
                 remainingIssues := Some found; error := None;
                 fixedThisCycle := None; issues := None |}
      else
        let fileSet := set_of_list (map i_file found) in
        fixedCount <- fixFiles found fileSet 0 ;;
        let remaining := (Z.of_nat autoFixable - fixedCount)%Z in
        c <- ctl ;;
        emit "cycle_complete"
          [FCycle (cycle c); FNumber "fixedThisCycle" (inject_Z fixedCount);
           FNumber "totalFixed" (inject_Z (totalFixed c));
           FNumber "remaining" (inject_Z remaining);
           FCost (totalCost c)] ;;
        ret {| complete := false; reason := None; remainingIssues := None;
               error := None; fixedThisCycle := Some fixedCount;
               issues := Some found |}
  end.

(** ** The run *)

(** How [runRalphMode] ends: without files, or with the summary it
    prints and publishes as [ralph_complete].  [OutOfFuel] is what the
    model answers when its loop is given too little fuel. *)
Inductive RunResult :=
| NoFiles
| RunEnded (status : string) (why : option string)
    (remaining : option (list Issue))
| OutOfFuel.

Definition ralph_complete_data (status : string) (why : option string)
    (c : Ctl) (duration : Z) : EventData :=
  [FStatus status; FNumber "totalFixed" (inject_Z (totalFixed c));
   FTotalCost (totalCost c); FNumber "duration" (inject_Z duration)]
  ++ match why with Some r => [FReason r] | None => [] end.

Definition duration_since (t : Z) (c : Ctl) : Z :=
  (t - default 0 (startTime c))%Z.

(** The [if (result.complete) { ...; return; }] block. *)
Definition finishComplete (result : CycleResult) : M RunResult :=
  c <- ctl ;;
  t <- now ;;
  emit "ralph_complete"
    (ralph_complete_data "complete" (reason result) c (duration_since t c)) ;;
  ret (RunEnded "complete" (reason result) (remainingIssues result)).

(** The code after the main loop: "Stopped or max cycles reached". *)
Definition finishStopped : M RunResult :=
  c <- ctl ;;
  t <- now ;;
  let why := if stopped c then "User interrupted" else "Max cycles reached" in
  emit "ralph_complete"
    (ralph_complete_data "stopped" (Some why) c (duration_since t c)) ;;
  ret (RunEnded "stopped" (Some why) None).

(** [n < m] for an integer [n] and a number [m]. *)
Definition lt_number (n : Z) (m : Q) : bool := negb (Qle_bool m (inject_Z n)).

(** The main loop [while (ralphState.cycle < CONFIG.ralph.maxCycles &&
    !ralphState.stopped)], one unfolding per unit of fuel. *)
Fixpoint mainLoop (fuel : nat) (files : list string) : M RunResult :=
  c <- ctl ;;
  if lt_number (cycle c) (maxCycles cfg) && negb (stopped c) then
    match fuel with
    | O => ret OutOfFuel
    | S fuel' =>
        if Qle_bool (budgetHard cfg) (totalCost c) then finishStopped
        else
          (if Qle_bool (budgetWarning cfg) (totalCost c) && (1 <? cycle c)%Z
           then emit "budget_warning"
                  [FNumber "currentCost" (totalCost c);
                   FNumber "warningThreshold" (budgetWarning cfg)]
           else ret tt) ;;
          result <- runRalphCycle files ;;
          if complete result then finishComplete result
          else
            c <- ctl ;;
            (if negb (stopped c) && lt_number (cycle c) (maxCycles cfg)
             then sleep 2000
             else ret tt) ;;
            mainLoop fuel' files
    end
  else finishStopped.

(** [runRalphMode()], given the files [collectFilesForRalph()] found.
    Every iteration of the main loop increments [ralphState.cycle], so
    as many iterations as there are integers from [cycle] up to
    [maxCycles] are enough fuel. *)
Definition runRalphMode (files : list string) : M RunResult :=
  t <- now ;;
  modify (fun w => with_ctl (set_startTime t (w_ctl w)) w) ;;
  (if dashboard env && dashboardEnabled cfg then
     modify (fun w =>
       await_point
         {| w_fs := w_fs w; w_ticks := w_ticks w; w_ctl := w_ctl w;
            w_dash := Dashboard.startDashboard true (dashboard_listens env) (w_dash w);
            w_trace := w_trace w; w_costs := w_costs w;
            w_dash_costs := w_dash_costs w |})
   else ret tt) ;;
  if (length files =? 0)%nat then ret NoFiles
  else
    emit "ralph_started"
      [FMaxCycles (maxCycles cfg);
       FNumber "files" (inject_Z (Z.of_nat (length files)));
       FBudgetHard (budgetHard cfg)] ;;
    c <- ctl ;;
    mainLoop (Z.to_nat (Qceiling (maxCycles cfg) - cycle c)) files.

End Run.

End Watcher.

(** * The QA watcher script: summaries of a detection result *)

Module Summary.
Import Watcher.

(** The three counters of [buildSeverityCounts]. *)
Record SeverityCounts := mkSeverityCounts {
  critical : nat;
  high : nat;
  medium : nat
}.

(** The lower-case names a plain object inherits from
    [Object.prototype]: for them [severity in counts] holds although
    they are none of the three counters. *)
Definition inherited_lower : list string := ["constructor"; "__proto__"].

(** Body of the loop of [buildSeverityCounts].  [counts[severity]++] on
    an inherited name leaves the three counters alone (it stores [NaN]
    under [constructor], which the model does not keep, and nothing
    under [__proto__]). *)
Definition count_severity (counts : SeverityCounts) (issue : Issue)
    : SeverityCounts :=
  let severity :=
    toLowerCase (if decide (i_severity issue = "") then "medium"
                 else i_severity issue) in
  if decide (severity = "critical") then
    {| critical := S (critical counts); high := high counts;
       medium := medium counts |}
  else if decide (severity = "high") then
    {| critical := critical counts; high := S (high counts);
       medium := medium counts |}
  else if decide (severity = "medium") then
    {| critical := critical counts; high := high counts;
       medium := S (medium counts) |}
  else if decide (severity ∈ inherited_lower) then counts
  else
    {| critical := critical counts; high := high counts;
       medium := S (medium counts) |}.

(** [buildSeverityCounts(issues)] on an array. *)
Definition buildSeverityCounts (issues : list Issue) : SeverityCounts :=
  foldl count_severity {| critical := 0; high := 0; medium := 0 |} issues.

(** A value stored in the object [buildIssueTypeCounts] builds: a
    count, or the text JavaScript makes of [member + 1] when [member]
    is the function the empty object inherits under that name, that is
    the source text of the member [name] followed by [ones] digits 1. *)
Inductive Tally :=
| Count (n : nat)
| Text (name : string) (ones : nat).

(** The function-valued members of [Object.prototype]. *)
Definition inherited_functions : list string :=
  ["constructor"; "__defineGetter__"; "__defineSetter__"; "hasOwnProperty";
   "__lookupGetter__"; "__lookupSetter__"; "isPrototypeOf";
   "propertyIsEnumerable"; "toString"; "valueOf"; "toLocaleString"].

(** Body of the loop of [buildIssueTypeCounts]:
    [counts[type] = (counts[type] || 0) + 1] when [type] is truthy.  An
    assignment to [__proto__] with a value that is no object does
    nothing. *)
Definition count_type (counts : gmap string Tally) (issue : Issue)
    : gmap string Tally :=
  let type := i_type issue in
  if decide (type = "") then counts
  else if decide (type = "__proto__") then counts
  else
    match counts !! type with
    | Some (Count n) => <[type := Count (if (n =? 0)%nat then 1 else S n)]> counts
    | Some (Text name ones) => <[type := Text name (S ones)]> counts
    | None =>
        if decide (type ∈ inherited_functions)
        then <[type := Text type 1]> counts
        else <[type := Count 1]> counts
    end.

(** [buildIssueTypeCounts(issues)] on an array. *)
Definition buildIssueTypeCounts (issues : list Issue) : gmap string Tally :=
  foldl count_type ∅ issues.

(** [getFilesWithIssues(issues)] on an array:
    [[...new Set(issues.map(i => i.file).filter(Boolean))]]. *)
Definition getFilesWithIssues (issues : list Issue) : list string :=
  set_of_list (List.filter (fun f => negb (bool_decide (f = "")))
                           (map i_file issues)).

(** ** HTML escaping *)

(** [s.replace(/c/g, rep)] for a one-character pattern. *)
Fixpoint replace_char (c : ascii) (rep : string) (s : string) : string :=
  match s with
  | EmptyString => EmptyString
  | String x r =>
      if Ascii.eqb x c then rep ++ replace_char c rep r
      else String x (replace_char c rep r)
  end.

Definition quote : ascii := ascii_of_nat 34.
Definition apostrophe : ascii := ascii_of_nat 39.

(** [escapeHtml(str)]; [None] stands for [undefined] or [null]. *)
Definition escapeHtml (str : option string) : string :=
  match str with
  | None => ""
  | Some s =>
      if decide (s = "") then ""
      else
        replace_char apostrophe "&#39;"
          (replace_char quote "&quot;"
             (replace_char ">" "&gt;"
                (replace_char "<" "&lt;"
                   (replace_char "&" "&amp;" s))))
  end.

End Summary.

(** * The QA watcher script: the pre-commit scan *)

Module Staged.
Import Watcher.
Local Open Scope js_scope.

(** The object [runStagedScan] returns. *)
Record ScanResult := mkScanResult {
  success : bool;
  issues : list Issue;
  error : option string
}.

Definition is_critical (i : Issue) : bool :=
  bool_decide (i_severity i = "critical").

Section Scan.

Variable env : Env.

(** [runStagedScan()], given the files [getStagedFiles()] found.
    Console output is left out. *)
Definition runStagedScan (stagedFiles : list string) : M ScanResult :=
  if (length stagedFiles =? 0)%nat then
    ret {| success := true; issues := []; error := None |}
  else
    try_catch
      (result <- executeClaudeReviewWithRetry env stagedFiles ;;
       let allIssues := default [] (r_issues result) in
       let criticalIssues := List.filter is_critical allIssues in
       if (0 <? length criticalIssues)%nat then
         ret {| success := false; issues := criticalIssues; error := None |}
       else
         let warnings := List.filter (fun i => negb (is_critical i)) allIssues in
         ret {| success := true; issues := warnings; error := None |})
      (fun error =>
         m <- message_of error ;;
         ret {| success := true; issues := []; error := m |}).

(** [process.exit(result.success ? 0 : 1)] in [main]. *)
Definition exitCode (result : ScanResult) : Z :=
  if success result then 0%Z else 1%Z.

End Scan.

End Staged.

(** * The dashboard server: finding a port *)

Module Ports.

(** What [server.listen(port)] leads to: the ['listening'] callback, or
    an ['error'] event with code [EADDRINUSE], or another error. *)
Inductive Bind :=
| Listening
| AddrInUse
| OtherError (message : option string).

(** How the promise of [startDashboard] settles.  [OutOfFuel] is what
    the model answers when its recursion is given too little fuel. *)
Inductive Started :=
| Resolved (port : option Z)
| AllPortsInUse (first last : Z)
| Failed (message : option string)
| OutOfFuel.

(** The module-level variables [isRunning] and [currentPort]. *)
Record Listener := mkListener {
  isRunning : bool;
  currentPort : Z
}.

Definition initialListener : Listener :=
  {| isRunning := false; currentPort := 3000 |}.

Definition maxRetries : Z := 5.

Section Start.

(** The ports of the machine: what binding each of them gives. *)
Variable bind : Z -> Bind.

(** [tryPort(port, attempt)] inside [startDashboard]; [startPort] is the
    variable of the enclosing function. *)
Fixpoint tryPort (fuel : nat) (startPort port attempt : Z) : Started :=
  match bind port with
  | Listening => Resolved (Some port)
  | AddrInUse =>
      if (attempt <? maxRetries)%Z then
        match fuel with
        | O => OutOfFuel
        | S fuel' => tryPort fuel' startPort (port + 1) (attempt + 1)
        end
      else AllPortsInUse startPort port
  | OtherError message => Failed message
  end.

(** [startDashboard(options)]: [available] says whether [express] and
    [ws] could be loaded, [port] is [options.port].  The model of the
    broadcaster, [Dashboard.startDashboard], keeps of all this whether
    the server ends up listening. *)
Definition startDashboard (available : bool) (port : option Z)
    (s : Listener) : Started * Listener :=
  if negb available then (Resolved None, s)
  else if isRunning s then (Resolved (Some (currentPort s)), s)
  else
    let startPort := js_or_Z port 3000 in
    match tryPort (Z.to_nat maxRetries) startPort startPort 1 with
    | Resolved (Some p) =>
        (Resolved (Some p), {| isRunning := true; currentPort := p |})
    | outcome => (outcome, s)
    end.

End Start.

End Ports.

(** * The QA watcher script: the configuration file *)

Module Settings.

(** What [JSON.parse] returns.  An object is modelled as the map of its
    properties; the order of its keys, which only printing shows, is
    not kept. *)
Inductive Json :=
| JNull
| JBool (b : bool)
| JNum (q : Q)
| JStr (s : string)
| JArr (l : list Json)
| JObj (m : gmap string Json).

(** Truthiness of a value, and of a value that may be [undefined]. *)
Definition truthy (j : Json) : bool :=
  match j with
  | JNull => false
  | JBool b => b
  | JNum q => negb (Qeq_bool q 0)
  | JStr s => negb (bool_decide (s = ""))
  | JArr _ | JObj _ => true
  end.

Definition truthy_opt (v : option Json) : bool :=
  match v with Some j => truthy j | None => false end.

(** [Array.isArray(x)] and [typeof x], with [None] for [undefined]. *)
Definition isArray (v : option Json) : bool :=
  match v with Some (JArr _) => true | _ => false end.

Definition typeof (v : option Json) : string :=
  match v with
  | None => "undefined"
  | Some (JNull | JArr _ | JObj _) => "object"
  | Some (JBool _) => "boolean"
  | Some (JNum _) => "number"
  | Some (JStr _) => "string"
  end.

(** [j.name] for a value that is not [null] and a name that is neither
    [length], an index nor a member every value inherits (the script
    reads no other). *)
Definition prop (j : Json) (name : string) : option Json :=
  match j with
  | JObj m => m !! name
  | _ => None
  end.

(** [v.name] where [v] may be [undefined] or [null]: the outer [None]
    stands for the [TypeError] JavaScript then throws. *)
Definition member (v : option Json) (name : string) : option (option Json) :=
  match v with
  | None | Some JNull => None
  | Some j => Some (prop j name)
  end.

(** One [if (cond) errors.push(message)]. *)
Definition complain (cond : bool) (message : string) : list string :=
  if cond then [message] else [].

Definition defined (v : option Json) : bool :=
  match v with Some _ => true | None => false end.

(** [validateConfig(config)]: the list of error messages, or [None] when
    it throws. *)
Definition validateConfig (config : Json) : option (list string) :=
  watchPaths ← member (Some config) "watchPaths";
  ignored ← member (Some config) "ignored";
  extensions ← member (Some config) "extensions";
  autoFix ← member (Some config) "autoFix";
  autoFixErrors ←
    (if defined autoFix then
       if negb (bool_decide (typeof autoFix = "object")) then
         Some ["autoFix must be an object"]
       else
         safePatterns ← member autoFix "safePatterns";
         backupFiles ← member autoFix "backupFiles";
         verifyAfterFix ← member autoFix "verifyAfterFix";
         Some (complain (defined safePatterns && negb (isArray safePatterns))
                 "autoFix.safePatterns must be an array" ++
               complain (defined backupFiles
                         && negb (bool_decide (typeof backupFiles = "boolean")))
                 "autoFix.backupFiles must be a boolean" ++
               complain (defined verifyAfterFix
                         && negb (bool_decide (typeof verifyAfterFix = "boolean")))
                 "autoFix.verifyAfterFix must be a boolean")
     else Some []);
  ralph ← member (Some config) "ralph";
  ralphErrors ←
    (if defined ralph then
       if negb (bool_decide (typeof ralph = "object")) then
         Some ["ralph must be an object"]
       else
         maxCycles ← member ralph "maxCycles";
         budgetWarning ← member ralph "budgetWarning";
         budgetHard ← member ralph "budgetHard";
         Some (complain (defined maxCycles
                         && negb (bool_decide (typeof maxCycles = "number")))
                 "ralph.maxCycles must be a number" ++
               complain (defined budgetWarning
                         && negb (bool_decide (typeof budgetWarning = "number")))
                 "ralph.budgetWarning must be a number" ++
               complain (defined budgetHard
                         && negb (bool_decide (typeof budgetHard = "number")))
                 "ralph.budgetHard must be a number")
     else Some []);
  notifications ← member (Some config) "notifications";
  notificationsErrors ←
    (if defined notifications then
       if negb (bool_decide (typeof notifications = "object")) then
         Some ["notifications must be an object"]
       else
         enabled ← member notifications "enabled";
         throttle ← member notifications "throttle";
         Some (complain (defined enabled
                         && negb (bool_decide (typeof enabled = "boolean")))
                 "notifications.enabled must be a boolean" ++
               complain (defined throttle
                         && negb (bool_decide (typeof throttle = "number")))
                 "notifications.throttle must be a number (milliseconds)")
     else Some []);
  dashboard ← member (Some config) "dashboard";
  dashboardErrors ←
    (if defined dashboard then
       if negb (bool_decide (typeof dashboard = "object")) then
         Some ["dashboard must be an object"]
       else
         port ← member dashboard "port";
         Some (complain (defined port
                         && negb (bool_decide (typeof port = "number")))
                 "dashboard.port must be a number")
     else Some []);
  Some (complain (defined watchPaths && negb (isArray watchPaths))
          "watchPaths must be an array of directory paths" ++
        complain (defined ignored && negb (isArray ignored))
          "ignored must be an array of glob patterns" ++
        complain (defined extensions && negb (isArray extensions))
          "extensions must be an array of file extensions" ++
        autoFixErrors ++ ralphErrors ++ notificationsErrors ++ dashboardErrors).

(** The own enumerable properties an object spread [{...v}] copies:
    those of an object, the elements of an array and the characters of
    a string under their indices, nothing for any other value. *)
Definition spread (v : option Json) : gmap string Json :=
  match v with
  | Some (JObj m) => m
  | Some (JArr l) => list_to_map (imap (fun i x => (pretty i, x)) l)
  | Some (JStr s) =>
      list_to_map (imap (fun i c => (pretty i, JStr (String c EmptyString)))
                        (list_ascii_of_string s))
  | _ => ∅
  end.

(** [{ ...a, ...b }] *)
Definition spread2 (a b : option Json) : Json := JObj (spread b ∪ spread a).

(** [if (cond) merged[name] = value] *)
Definition assign_if (cond : bool) (name : string) (value : option Json)
    (merged : gmap string Json) : gmap string Json :=
  if cond then
    match value with
    | Some j => <[name := j]> merged
    | None => merged
    end
  else merged.

(** The names [mergeConfig] looks at in the user's configuration. *)
Definition merged_names : list string :=
  ["watchPaths"; "ignored"; "extensions"; "debounceDelay"; "autoFix"; "ralph";
   "notifications"; "dashboard"; "techStack"; "claudeConfig"].

(** [merged[name] = { ...defaults[name], ...userConfig[name] }] followed
    by the same one level down, for each name of [inner] that is truthy
    in the user's section.  [None] when [defaults[name]] is [null] or
    [undefined] and an inner merge has to read it. *)
Definition merge_nested (defaults : gmap string Json) (user : Json)
    (name : string) (inner : list string) (merged : gmap string Json)
    : option (gmap string Json) :=
  if truthy_opt (prop user name) then
    let outer := spread (prop user name) ∪ spread (defaults !! name) in
    section ←
      foldl (fun acc sub =>
               s ← acc;
               if truthy_opt (default None (member (prop user name) sub)) then
                 d ← member (defaults !! name) sub;
                 Some (<[sub := spread2 d (default None (member (prop user name) sub))]> s)
               else Some s)
            (Some outer) inner;
    Some (<[name := JObj section]> merged)
  else Some merged.

(** [mergeConfig(defaults, userConfig)], for a [defaults] that is an
    object; [None] when it throws. *)
Definition mergeConfig (defaults : gmap string Json) (userConfig : Json)
    : option (gmap string Json) :=
  if negb (truthy userConfig) then Some defaults
  else
    let merged := defaults in
    let merged := assign_if (truthy_opt (prop userConfig "watchPaths"))
                    "watchPaths" (prop userConfig "watchPaths") merged in
    let merged := assign_if (truthy_opt (prop userConfig "ignored"))
                    "ignored" (prop userConfig "ignored") merged in
    let merged := assign_if (truthy_opt (prop userConfig "extensions"))
                    "extensions" (prop userConfig "extensions") merged in
    let merged := assign_if (defined (prop userConfig "debounceDelay"))
                    "debounceDelay" (prop userConfig "debounceDelay") merged in
    merged ← merge_nested defaults userConfig "autoFix" [] merged;
    merged ← merge_nested defaults userConfig "ralph" [] merged;
    merged ← merge_nested defaults userConfig "notifications" ["types"] merged;
    merged ← merge_nested defaults userConfig "dashboard" [] merged;
    merged ← merge_nested defaults userConfig "techStack" [] merged;
    merge_nested defaults userConfig "claudeConfig" ["detection"; "fixing"] merged.

End Settings.

(** * The QA watcher script: which files are reviewed *)

Module Ignore.
Import Watcher.

(** ** Regular expressions

    The two places that build a [RegExp] from a glob pattern produce
    expressions made of literal characters, [.], [[^/]*], [.*], [^] and
    the groups [(^|/)] and [($|/)].  The model covers this fragment:
    [RegExp] answers [None] for a source text outside it. *)
Inductive Atom :=
| Literal (c : ascii)
| AnyChar
| NotSlashes
| AnyChars
| LineStart
| StartOrSlash
| EndOrSlash.

Definition Regex := list Atom.

(** The characters [patternToRegex] escapes. *)
Definition special (c : ascii) : bool :=
  bool_decide (c ∈ list_ascii_of_string ".+^${}()|[]\").

(** The characters with a meaning of their own in an expression. *)
Definition meta (c : ascii) : bool :=
  special c || bool_decide (c ∈ list_ascii_of_string "*?").

(** [s.slice(n)] *)
Fixpoint slice (n : nat) (s : string) : string :=
  match n, s with
  | S k, String _ r => slice k r
  | _, _ => s
  end.

(** [new RegExp(source)], one token per unit of fuel. *)
Fixpoint parse (fuel : nat) (source : string) : option Regex :=
  match fuel with
  | O => None
  | S fuel' =>
      if bool_decide (source = "") then Some []
      else if String.prefix "(^|/)" source then
        cons StartOrSlash <$> parse fuel' (slice 5 source)
      else if String.prefix "($|/)" source then
        cons EndOrSlash <$> parse fuel' (slice 5 source)
      else if String.prefix "[^/]*" source then
        cons NotSlashes <$> parse fuel' (slice 5 source)
      else if String.prefix ".*" source then
        cons AnyChars <$> parse fuel' (slice 2 source)
      else
        match source with
        | EmptyString => Some []
        | String c r =>
            if Ascii.eqb c "." then cons AnyChar <$> parse fuel' r
            else if Ascii.eqb c "^" then cons LineStart <$> parse fuel' r
            else if Ascii.eqb c "\" then
              match r with
              | String e r' =>
                  if special e then cons (Literal e) <$> parse fuel' r'
                  else None
              | EmptyString => None
              end
            else if meta c then None
            else cons (Literal c) <$> parse fuel' r
        end
  end.

Definition RegExp (source : string) : option Regex :=
  parse (S (String.length source)) source.

(** What [.] matches: any character but a line terminator. *)
Definition not_newline (c : ascii) : bool :=
  negb (bool_decide (nat_of_ascii c = 10%nat))
  && negb (bool_decide (nat_of_ascii c = 13%nat)).

Definition not_slash (c : ascii) : bool := negb (Ascii.eqb c "/").

(** A starred character class followed by the rest of the expression,
    [k]: the rest matches here, or after one more character of the
    class. *)
Fixpoint star (class : ascii -> bool) (k : string -> bool -> bool)
    (s : string) (at_start : bool) : bool :=
  k s at_start ||
  match s with
  | String x r => class x && star class k r false
  | EmptyString => false
  end.

(** Whether the expression matches a prefix of [s]; [at_start] says
    whether [s] is the whole subject. *)
Fixpoint match_here (regex : Regex) (s : string) (at_start : bool) : bool :=
  match regex with
  | [] => true
  | Literal c :: rest =>
      match s with
      | String x r => Ascii.eqb x c && match_here rest r false
      | EmptyString => false
      end
  | AnyChar :: rest =>
      match s with
      | String x r => not_newline x && match_here rest r false
      | EmptyString => false
      end
  | NotSlashes :: rest => star not_slash (match_here rest) s at_start
  | AnyChars :: rest => star not_newline (match_here rest) s at_start
  | LineStart :: rest => at_start && match_here rest s at_start
  | StartOrSlash :: rest =>
      (at_start && match_here rest s at_start) ||
      match s with
      | String x r => Ascii.eqb x "/" && match_here rest r false
      | EmptyString => false
      end
  | EndOrSlash :: rest =>
      match s with
      | String x r => Ascii.eqb x "/" && match_here rest r false
      | EmptyString => match_here rest s at_start
      end
  end.

Fixpoint search (regex : Regex) (s : string) (at_start : bool) : bool :=
  match_here regex s at_start ||
  match s with
  | String _ r => search regex r false
  | EmptyString => false
  end.

(** [regex.test(s)] *)
Definition test (regex : Regex) (s : string) : bool := search regex s true.

(** ** Strings *)

(** [s.replace(/pat/g, rep)] for a pattern that is a literal text of at
    least one character: leftmost matches, none overlapping.  [skip]
    counts the characters of a match still to be passed over. *)
Fixpoint replace_from (pat rep : string) (skip : nat) (s : string) : string :=
  match s with
  | EmptyString => EmptyString
  | String c r =>
      match skip with
      | S k => replace_from pat rep k r
      | O =>
          if String.prefix pat s
          then rep ++ replace_from pat rep (String.length pat - 1) r
          else String c (replace_from pat rep 0 r)
      end
  end.

Definition replaceAll (pat rep s : string) : string := replace_from pat rep 0 s.

(** [s.replace(/[.+^${}()|[\]\\]/g, '\\$&')] *)
Fixpoint escapeSpecials (s : string) : string :=
  match s with
  | EmptyString => EmptyString
  | String c r =>
      if special c then String "\" (String c (escapeSpecials r))
      else String c (escapeSpecials r)
  end.

(** [s.replace(/\/$/, '')] *)
Definition dropTrailingSlash (s : string) : string :=
  if endsWith "/" s then String.substring 0 (String.length s - 1) s else s.

(** [s.startsWith(t)] *)
Definition startsWith (t s : string) : bool := String.prefix t s.

(** White space as [trim] sees it, among 8-bit characters. *)
Definition is_space (c : ascii) : bool :=
  bool_decide (nat_of_ascii c ∈ [9; 10; 11; 12; 13; 32; 160]%nat).

Fixpoint trimStart (s : string) : string :=
  match s with
  | String c r => if is_space c then trimStart r else s
  | EmptyString => EmptyString
  end.

(** [s.trim()] *)
Definition trim (s : string) : string :=
  String.rev (trimStart (String.rev (trimStart s))).

(** [s.split('\n')] *)
Fixpoint split_lines_from (line : string) (s : string) : list string :=
  match s with
  | EmptyString => [String.rev line]
  | String c r =>
      if bool_decide (nat_of_ascii c = 10%nat)
      then String.rev line :: split_lines_from "" r
      else split_lines_from (String c line) r
  end.

Definition split_lines (s : string) : list string := split_lines_from "" s.

(** ** .qaignore *)

(** The source text of the expression [patternToRegex(pattern)]
    compiles. *)
Definition patternToRegex_source (pattern : string) : string :=
  let p := dropTrailingSlash pattern in
  let isRootAnchored := startsWith "/" p in
  let p := if isRootAnchored then slice 1 p else p in
  let p := escapeSpecials p in
  let p := replaceAll "**" "{{GLOBSTAR}}" p in
  let p := Summary.replace_char "*" "[^/]*" p in
  let p := replaceAll "{{GLOBSTAR}}" ".*" p in
  let p := Summary.replace_char "?" "." p in
  let p := (if isRootAnchored then "^" ++ p else "(^|/)" ++ p)%string in
  (p ++ "($|/)")%string.

(** [patternToRegex(pattern)] *)
Definition patternToRegex (pattern : string) : option Regex :=
  RegExp (patternToRegex_source pattern).

(** An entry of [loadedIgnorePatterns]. *)
Record IgnorePattern := mkIgnorePattern {
  pattern : string;
  negation : bool;
  regex : Regex
}.

(** Body of the loop of [loadQaIgnore] over the lines of the file.
    [patternToRegex] escapes every character that could make the
    expression ill-formed, so the [catch] around it is not modelled;
    [None] is the model's answer to an expression outside the fragment
    it covers. *)
Definition parse_line (patterns : option (list IgnorePattern)) (line : string)
    : option (list IgnorePattern) :=
  ps ← patterns;
  let trimmed := trim line in
  if bool_decide (trimmed = "") || startsWith "#" trimmed then Some ps
  else
    let isNegation := startsWith "!" trimmed in
    let pattern := if isNegation then slice 1 trimmed else trimmed in
    r ← patternToRegex pattern;
    Some (ps ++ [ {| pattern := pattern; negation := isNegation; regex := r |} ]).

(** [loadQaIgnore()]: [content] is the text of [.qaignore], [None] when
    there is no such file. *)
Definition loadQaIgnore (content : option string) : option (list IgnorePattern) :=
  match content with
  | None => Some []
  | Some text => foldl parse_line (Some []) (split_lines text)
  end.

(** [isFileIgnored(filePath)], given [loadedIgnorePatterns]. *)
Definition isFileIgnored (loadedIgnorePatterns : list IgnorePattern)
    (filePath : string) : bool :=
  if (length loadedIgnorePatterns =? 0)%nat then false
  else
    let normalizedPath := slashes filePath in
    foldl (fun ignored p =>
             if test (regex p) normalizedPath then negb (negation p)
             else ignored)
          false loadedIgnorePatterns.

(** ** shouldReviewFile *)

(** [pattern.replace(/\*\*/g, '.*').replace(/\*/g, '[^/]*')] *)
Definition ignoredToRegex_source (pattern : string) : string :=
  Summary.replace_char "*" "[^/]*" (replaceAll "**" ".*" pattern).

(** The loop over [CONFIG.ignored]: [Some true] when a pattern matches,
    [None] when an expression is outside the fragment. *)
Fixpoint matches_ignored (ignored : list string) (path : string) : option bool :=
  match ignored with
  | [] => Some false
  | pattern :: rest =>
      r ← RegExp (ignoredToRegex_source pattern);
      if test r path then Some true else matches_ignored rest path
  end.

Section Review.

(** [path.extname] of the platform. *)
Variable extname : string -> string.

(** [CONFIG.extensions], [CONFIG.ignored], [loadedIgnorePatterns]. *)
Variable extensions : list string.
Variable ignored : list string.
Variable loadedIgnorePatterns : list IgnorePattern.

(** [shouldReviewFile(filePath)] *)
Definition shouldReviewFile (filePath : string) : option bool :=
  let ext := extname filePath in
  if negb (bool_decide (ext ∈ extensions)) then Some false
  else
    match matches_ignored ignored (slashes filePath) with
    | None => None
    | Some true => Some false
    | Some false =>
        if isFileIgnored loadedIgnorePatterns filePath then Some false
        else Some true
    end.

End Review.

(** The list [CONFIG.ignored] starts with. *)
Definition default_ignored : list string :=
  ["**/node_modules/**"; "**/.git/**"; "**/.next/**"; "**/dist/**";
   "**/build/**"; "**/*.test.ts"; "**/*.test.tsx"; "**/*.test.js";
   "**/*.spec.ts"; "**/*.spec.tsx"; "**/*.spec.js"; "**/.env"; "**/.env.*";
   "**/qa-reviews/**"; "**/*.log"; "**/*.md"].

(** ** Vocabulary of the statements *)

(** Every character of [s] satisfies [P]. *)
Fixpoint all_chars (P : ascii -> bool) (s : string) : bool :=
  match s with
  | EmptyString => true
  | String c r => P c && all_chars P r
  end.

(** A character that is neither a path separator nor special to globs
    or regular expressions, nor blank, nor one of the markers [#] and
    [!]. *)
Definition plain (c : ascii) : bool :=
  negb (meta c) && negb (Ascii.eqb c "/") && negb (is_space c)
  && negb (Ascii.eqb c "#") && negb (Ascii.eqb c "!").

(** The characters of [p], each as a literal of an expression. *)
Definition literals (p : string) : Regex := Literal <$> list_ascii_of_string p.

(** [path.split('/')] *)
Fixpoint components (path : string) : list string :=
  match path with
  | EmptyString => [""]
  | String c r =>
      if Ascii.eqb c "/" then "" :: components r
      else match components r with
           | first :: others => String c first :: others
           | [] => [String c ""]
           end
  end.

End Ignore.

(** * The hook setup script *)

Module Hook.

(** The lines of a text, each ended by a line feed. *)
Fixpoint unlines (lines : list string) : string :=
  match lines with
  | [] => ""
  | line :: rest => line ++ String (ascii_of_nat 10) (unlines rest)
  end.

Definition q : string := String Summary.quote "".

(** [HOOK_CONTENT] *)
Definition HOOK_CONTENT : string :=
  unlines
    [ "#!/bin/sh";
      "# QA Watcher Pre-commit Hook";
      "# Scans staged files for production issues before commit";
      "# Bypass with: git commit --no-verify";
      "";
      "# Get the directory where this hook is located";
      "HOOK_DIR=" ++ q ++ "$(cd " ++ q ++ "$(dirname " ++ q ++ "$0" ++ q
        ++ ")" ++ q ++ " && pwd)" ++ q;
      "PROJECT_DIR=" ++ q ++ "$(cd " ++ q ++ "$HOOK_DIR/../.." ++ q
        ++ " && pwd)" ++ q;
      "";
      "# Run QA scan on staged files";
      "node " ++ q ++ "$PROJECT_DIR/production-qa-watcher.js" ++ q
        ++ " --scan-staged";
      "";
      "# Exit with the same code as the scan";
      "exit $?" ]%string.

(** What the script sees and changes of the working directory: whether
    [.git] and [.git/hooks] exist, and the texts of
    [.git/hooks/pre-commit] and [.git/hooks/pre-commit.backup], [None]
    for a file that does not exist.  File modes are left out. *)
Record Disk := mkDisk {
  gitDir : bool;
  hooksDir : bool;
  hook : option string;
  backup : option string
}.

Definition set_hooksDir (d : Disk) : Disk :=
  {| gitDir := gitDir d; hooksDir := true; hook := hook d; backup := backup d |}.

Definition set_hook (text : string) (d : Disk) : Disk :=
  {| gitDir := gitDir d; hooksDir := hooksDir d; hook := Some text;
     backup := backup d |}.

Definition set_backup (text : string) (d : Disk) : Disk :=
  {| gitDir := gitDir d; hooksDir := hooksDir d; hook := hook d;
     backup := Some text |}.

(** [main()]: the exit code when the script calls [process.exit], and
    the disk it leaves. *)
Definition main (d : Disk) : option Z * Disk :=
  if negb (gitDir d) then (Some 1%Z, d)
  else
    let d := if negb (hooksDir d) then set_hooksDir d else d in
    let d := match hook d with
             | Some previous => set_backup previous d
             | None => d
             end in
    (None, set_hook HOOK_CONTENT d).

End Hook.

(** * Properties of the dashboard reducer *)

Section ReducerFacts.
Import Dashboard.

(** No id is both completed and outstanding. *)
Definition separated (s : RalphState) : Prop :=
  dom (issues s) ## completed s.

Lemma add_detected_separated (l : list IssueInfo) (done : gset string)
    (m : gmap string Tracked) :
  dom m ## done -> dom (foldl (add_detected done) m l) ## done.
Proof.
  revert m. induction l as [|i l IH]; intros m Hm; simpl; [exact Hm|].
  apply IH. unfold add_detected.
  destruct (decide (issue_id i ∈ done)) as [Hin|Hout]; [exact Hm|].
  rewrite dom_insert_L. set_solver.
Qed.

Lemma start_fixing_separated (ids : list string) (s : RalphState) :
  separated s -> separated (foldl start_fixing s ids).
Proof.
  revert s. induction ids as [|id ids IH]; intros s Hs; simpl; [exact Hs|].
  apply IH. unfold separated, start_fixing in *; simpl.
  rewrite dom_alter_L. exact Hs.
Qed.

Lemma mark_fixed_separated (ids : list string) (s : RalphState) :
  separated s -> separated (foldl mark_fixed s ids).
Proof.
  revert s. induction ids as [|id ids IH]; intros s Hs; simpl; [exact Hs|].
  apply IH. unfold separated, mark_fixed in *; simpl.
  rewrite dom_delete_L. set_solver.
Qed.

Lemma mark_failed_separated (ids : list string) (s : RalphState) :
  separated s -> separated (foldl mark_failed s ids).
Proof.
  revert s. induction ids as [|id ids IH]; intros s Hs; simpl; [exact Hs|].
  apply IH. unfold separated, mark_failed in *; simpl.
  rewrite dom_alter_L. exact Hs.
Qed.

Lemma mark_failed_keeps (ids : list string) (s : RalphState) :
  dom (issues (foldl mark_failed s ids)) = dom (issues s) /\
  completed (foldl mark_failed s ids) = completed s.
Proof.
  revert s. induction ids as [|id ids IH]; intros s; simpl; [done|].
  destruct (IH (mark_failed s id)) as [-> ->].
  unfold mark_failed; simpl. by rewrite dom_alter_L.
Qed.

Lemma mark_fixed_moves (ids : list string) (s : RalphState) (id : string) :
  id ∈ ids \/ (id ∈ completed s /\ id ∉ dom (issues s)) ->
  id ∈ completed (foldl mark_fixed s ids) /\
  id ∉ dom (issues (foldl mark_fixed s ids)).
Proof.
  revert s. induction ids as [|x ids IH]; intros s H; simpl.
  - destruct H as [H|H]; [by apply elem_of_nil in H | exact H].
  - apply IH. destruct (decide (id = x)) as [->|Hne].
    + right. unfold mark_fixed; simpl. rewrite dom_delete_L. set_solver.
    + destruct H as [H|[H1 H2]].
      * left. set_solver.
      * right. unfold mark_fixed; simpl. rewrite dom_delete_L. set_solver.
Qed.

Lemma updateRalphState_separated (now : Z) (eventName : string)
    (data : EventData) (s : RalphState) :
  separated s -> separated (updateRalphState now eventName data s).
Proof.
  intros Hs. unfold updateRalphState.
  repeat case_decide; try exact Hs.
  - unfold separated; simpl. set_solver.
  - assert (separated
      (set_sets (for_each (d_issues data) (add_detected (completed s)) ∅)
                ∅ (completed s) s)) as Hsep.
    { unfold separated; simpl. unfold for_each.
      destruct (d_issues data) as [l|]; [|set_solver].
      apply add_detected_separated. set_solver. }
    destruct (js_truthy_Q (d_cost data)); exact Hsep.
  - unfold for_each. destruct (d_issueIds data); [|exact Hs].
    by apply start_fixing_separated.
  - unfold separated in *; simpl.
    pose proof (dom_imap_subseteq (D := gset string)
                  (progress_of data (fixing s)) (issues s)).
    set_solver.
  - unfold for_each.
    destruct (d_fixed data) as [fx|], (d_failed data) as [fl|];
      try apply mark_failed_separated; try apply mark_fixed_separated;
      exact Hs.
Qed.

Lemma replay_separated (evs : list (Z * string * EventData)) (s : RalphState) :
  separated s -> separated (replay s evs).
Proof.
  revert s. unfold replay.
  induction evs as [|ev evs IH]; intros s Hs; simpl; [exact Hs|].
  apply IH. by apply updateRalphState_separated.
Qed.

(** C1: whatever events the reducer is fed from the state the module
    starts in, after each of them (after every prefix of the sequence)
    no issue id is both in [completed] and a key of [issues].  In
    particular [detection_complete] leaves out every id that is already
    completed, and [fix_complete] puts every id of its [fixed] list into
    [completed] and takes it out of [issues]. *)
Theorem completed_and_outstanding_disjoint :
  (forall (evs : list (Z * string * EventData)) (n : nat),
      dom (issues (replay initialState (take n evs)))
        ## completed (replay initialState (take n evs))) /\
  (forall (now : Z) (data : EventData) (s : RalphState) (id : string),
      id ∈ completed s ->
      id ∉ dom (issues (updateRalphState now "detection_complete" data s))) /\
  (forall (now : Z) (data : EventData) (s : RalphState)
          (ids : list string) (id : string),
      d_fixed data = Some ids -> id ∈ ids ->
      id ∈ completed (updateRalphState now "fix_complete" data s) /\
      id ∉ dom (issues (updateRalphState now "fix_complete" data s))).
Proof.
  split; [|split].
  - intros evs n. apply replay_separated.
    unfold separated; simpl. set_solver.
  - intros now data s id Hid.
    unfold updateRalphState; repeat case_decide; try congruence.
    assert (dom (for_each (d_issues data) (add_detected (completed s))
                          (∅ : gmap string Tracked)) ## completed s) as Hsep.
    { unfold for_each. destruct (d_issues data); [|set_solver].
      apply add_detected_separated. set_solver. }
    destruct (js_truthy_Q (d_cost data)); simpl; set_solver.
  - intros now data s ids id Hfixed Hin.
    unfold updateRalphState; repeat case_decide; try congruence.
    rewrite Hfixed. unfold for_each at 2.
    assert (id ∈ completed (foldl mark_fixed s ids) /\
            id ∉ dom (issues (foldl mark_fixed s ids))) as Hmoved
      by (apply mark_fixed_moves; by left).
    unfold for_each. destruct (d_failed data) as [fl|]; [|exact Hmoved].
    destruct (mark_failed_keeps fl (foldl mark_fixed s ids)) as [-> ->].
    exact Hmoved.
Qed.

End ReducerFacts.

(** * Properties of the broadcaster *)

Section BroadcastFacts.
Import Dashboard.

Lemma emitEvent_state (now : Z) (eventName : string) (data : EventData)
    (srv : Server) :
  ralphState (emitEvent now eventName data srv)
  = updateRalphState now eventName data (ralphState srv).
Proof. unfold emitEvent. by destruct (isRunning srv). Qed.

Lemma step_state (srv : Server) (a : Action) :
  ralphState (step srv a)
  = match a with
    | Emit now eventName data =>
        updateRalphState now eventName data (ralphState srv)
    | _ => ralphState srv
    end.
Proof.
  destruct a; simpl; try reflexivity.
  - apply emitEvent_state.
  - by destruct (isRunning srv).
  - unfold startDashboard.
    by destruct (negb available), (isRunning srv).
  - unfold stopDashboard. by destruct (negb (isRunning srv)).
Qed.

Lemma run_state (acts : list Action) (srv : Server) :
  ralphState (run srv acts) = replay (ralphState srv) (published acts).
Proof.
  unfold run, replay, published. revert srv.
  induction acts as [|a acts IH]; intros srv; simpl; [reflexivity|].
  rewrite IH, step_state. by destruct a.
Qed.

Lemma outcome_for_id (msg : Message) (ws ws' : Socket) :
  outcome_for msg ws = Some ws' -> ws_id ws' = ws_id ws.
Proof.
  unfold outcome_for, ws_send.
  destruct (is_open ws), (ws_send_throws ws); intros H;
    by simplify_eq.
Qed.

Lemma outcome_ids (msg : Message) (id : nat) (cs : list Socket) :
  id ∈ ws_id <$> omap (outcome_for msg) cs -> id ∈ ws_id <$> cs.
Proof.
  induction cs as [|c cs IH]; simpl; [done|].
  destruct (outcome_for msg c) as [c'|] eqn:Hc; simpl.
  - rewrite !elem_of_cons. intros [->|H]; [left|right; auto].
    by apply outcome_for_id in Hc.
  - rewrite elem_of_cons. auto.
Qed.

Lemma clients_delete_absent (id : nat) (cs : list Socket) :
  id ∉ ws_id <$> cs -> clients_delete id cs = cs.
Proof.
  unfold clients_delete. induction cs as [|c cs IH]; simpl; [done|].
  rewrite not_elem_of_cons. intros [Hne Hcs].
  rewrite filter_cons. destruct (decide (ws_id c ≠ id)) as [_|Heq].
  - by rewrite IH.
  - exfalso. apply Heq. congruence.
Qed.

Lemma clients_accept_absent (msg : Message) (id : nat) (cs : list Socket) :
  id ∉ ws_id <$> cs -> clients_accept msg id cs = cs.
Proof.
  unfold clients_accept. induction cs as [|c cs IH]; csimpl; [done|].
  rewrite not_elem_of_cons. intros [Hne Hcs].
  destruct (decide (ws_id c = id)); [congruence|]. by rewrite IH.
Qed.

Lemma send_each_one (msg : Message) (before after : list Socket) (ws : Socket) :
  ws_id ws ∉ ws_id <$> before ->
  ws_id ws ∉ ws_id <$> after ->
  send_each msg (before ++ ws :: after) ws
  = before ++ option_list (outcome_for msg ws) ++ after.
Proof.
  intros Hb Ha. unfold send_each, outcome_for.
  destruct (is_open ws); [|reflexivity].
  destruct (ws_send msg ws) as [ws'|] eqn:Hsend; simpl.
  - unfold clients_accept. rewrite fmap_app, fmap_cons.
    rewrite decide_True by reflexivity.
    fold (clients_accept msg (ws_id ws) before).
    fold (clients_accept msg (ws_id ws) after).
    rewrite !clients_accept_absent by assumption.
    unfold ws_send in Hsend. destruct (ws_send_throws ws); by simplify_eq.
  - unfold clients_delete. rewrite filter_app, filter_cons.
    rewrite decide_False by (intros H; by apply H).
    fold (clients_delete (ws_id ws) before).
    fold (clients_delete (ws_id ws) after).
    by rewrite !clients_delete_absent.
Qed.

Lemma send_each_all (msg : Message) (todo seen : list Socket) :
  NoDup (ws_id <$> (seen ++ todo)) ->
  foldl (send_each msg) (omap (outcome_for msg) seen ++ todo) todo
  = omap (outcome_for msg) (seen ++ todo).
Proof.
  revert seen. induction todo as [|ws todo IH]; intros seen Hnd; simpl.
  - by rewrite !app_nil_r.
  - rewrite fmap_app in Hnd; simpl in Hnd.
    apply NoDup_app in Hnd as (Hseen & Hcross & Htodo).
    apply NoDup_cons in Htodo as [Hws Htodo].
    rewrite send_each_one.
    + replace (omap (outcome_for msg) seen
                 ++ option_list (outcome_for msg ws) ++ todo)
        with (omap (outcome_for msg) (seen ++ [ws]) ++ todo).
      * rewrite IH; [by rewrite <- app_assoc|].
        rewrite <- app_assoc; simpl. rewrite fmap_app; simpl.
        apply NoDup_app; split_and!; [done|done|by apply NoDup_cons].
      * rewrite omap_app, <- app_assoc; simpl.
        by destruct (outcome_for msg ws).
    + intros Hin. apply outcome_ids in Hin.
      apply (Hcross _ Hin). by left.
    + exact Hws.
Qed.

(** The observers after one [emitEvent] on a running server. *)
Lemma emitEvent_clients (now : Z) (eventName : string) (data : EventData)
    (srv : Server) :
  NoDup (ws_id <$> clients srv) ->
  isRunning srv = true ->
  clients (emitEvent now eventName data srv)
  = omap (outcome_for {| msg_type := eventName;
                         msg_data := EventPayload data;
                         msg_timestamp := Some now |})
         (clients srv).
Proof.
  intros Hnd Hrun. unfold emitEvent. rewrite Hrun; simpl.
  apply (send_each_all _ (clients srv) []). exact Hnd.
Qed.

(** The observers are distinct objects, and stay so. *)
Definition distinct (cs : list Socket) : Prop := NoDup (ws_id <$> cs).

Lemma outcome_sublist (msg : Message) (cs : list Socket) :
  ws_id <$> omap (outcome_for msg) cs `sublist_of` ws_id <$> cs.
Proof.
  induction cs as [|c cs IH]; csimpl; [done|].
  destruct (outcome_for msg c) as [c'|] eqn:Hc; csimpl.
  - apply outcome_for_id in Hc. rewrite Hc. by apply sublist_skip.
  - by apply sublist_cons.
Qed.

Lemma clients_delete_sublist (id : nat) (cs : list Socket) :
  ws_id <$> clients_delete id cs `sublist_of` ws_id <$> cs.
Proof. unfold clients_delete. apply fmap_sublist, sublist_filter. Qed.

Lemma clients_add_distinct (ws : Socket) (cs : list Socket) :
  distinct cs -> distinct (clients_add ws cs).
Proof.
  unfold distinct, clients_add. intros Hcs.
  destruct (decide (ws_id ws ∈ ws_id <$> cs)) as [Hin|Hout].
  - rewrite <- list_fmap_compose.
    erewrite list_fmap_ext; [exact Hcs|].
    intros i c _. simpl. by destruct (decide (ws_id c = ws_id ws)).
  - rewrite fmap_app. apply NoDup_app. split_and!; [done| |apply NoDup_singleton].
    intros id Hid Hid'. apply list_elem_of_singleton in Hid'. by subst.
Qed.

Lemma step_distinct (srv : Server) (a : Action) :
  distinct (clients srv) -> distinct (clients (step srv a)).
Proof.
  intros Hd. destruct a as [now n d|now ws|id|id rs throws|av li|]; simpl.
  - unfold emitEvent. destruct (isRunning srv); simpl; [|exact Hd].
    rewrite (send_each_all _ (clients srv) []) by exact Hd.
    eapply sublist_NoDup; [exact Hd | apply outcome_sublist].
  - destruct (isRunning srv); [|exact Hd].
    unfold onConnection; simpl. by apply clients_add_distinct.
  - eapply sublist_NoDup; [exact Hd | apply clients_delete_sublist].
  - unfold distinct. rewrite <- list_fmap_compose.
    erewrite list_fmap_ext; [exact Hd|].
    intros i c _. simpl. unfold change_socket.
    by destruct (decide (ws_id c = id)).
  - unfold startDashboard.
    by destruct (negb av), (isRunning srv).
  - unfold stopDashboard. destruct (negb (isRunning srv)); [exact Hd|].
    apply NoDup_nil_2.
Qed.

Lemma run_distinct (acts : list Action) (srv : Server) :
  distinct (clients srv) -> distinct (clients (run srv acts)).
Proof.
  unfold run. revert srv.
  induction acts as [|a acts IH]; intros srv Hd; simpl; [exact Hd|].
  by apply IH, step_distinct.
Qed.

(** C10: the dashboard state does not depend on the observers or on the
    server running.  (1) [emitEvent] changes [ralphState] exactly as the
    reducer does, whatever [isRunning] and [clients] are.  (2) Two
    servers that start from the same [ralphState] and are fed the same
    published events (with the same clock readings) end in the same
    [ralphState], hence send the same snapshot, however their observers
    connect, disconnect or fail and whether or not either server was
    started or stopped in between.  (3) On a running server each
    observer's fate under one [emitEvent] is decided by that observer
    alone: an observer whose socket is open and whose [send] throws is
    dropped, every other observer stays, in the same order, with the
    message added exactly when its own socket is open.  (4) The
    observers of a server are distinct sockets in every state it can
    reach. *)
Theorem state_independent_of_observers :
  (forall (now : Z) (eventName : string) (data : EventData) (srv : Server),
      ralphState (emitEvent now eventName data srv)
      = updateRalphState now eventName data (ralphState srv)) /\
  (forall (srv1 srv2 : Server) (acts1 acts2 : list Action),
      ralphState srv1 = ralphState srv2 ->
      published acts1 = published acts2 ->
      ralphState (run srv1 acts1) = ralphState (run srv2 acts2) /\
      getSerializableState (ralphState (run srv1 acts1))
      = getSerializableState (ralphState (run srv2 acts2))) /\
  (forall (now : Z) (eventName : string) (data : EventData) (srv : Server),
      NoDup (ws_id <$> clients srv) ->
      isRunning srv = true ->
      let message := {| msg_type := eventName; msg_data := EventPayload data;
                        msg_timestamp := Some now |} in
      clients (emitEvent now eventName data srv)
      = omap (fun ws =>
                if is_open ws
                then (if ws_send_throws ws then None
                      else Some (accept message ws))
                else Some ws)
             (clients srv)) /\
  (forall acts : list Action,
      NoDup (ws_id <$> clients (run initialServer acts))).
Proof.
  split_and!.
  - apply emitEvent_state.
  - intros srv1 srv2 acts1 acts2 Hs Hp.
    assert (ralphState (run srv1 acts1) = ralphState (run srv2 acts2)) as H
      by (rewrite !run_state; congruence).
    split; [exact H | by rewrite H].
  - intros now eventName data srv Hnd Hrun message.
    rewrite emitEvent_clients by assumption.
    reflexivity.
  - intros acts. apply run_distinct. apply NoDup_nil_2.
Qed.

End BroadcastFacts.

(** * The log window *)

Section LogFacts.
  Import Dashboard.

(** Events that only walk over ids keep the log. *)
Lemma for_each_logs {A : Type} (body : RalphState -> A -> RalphState)
    (xs : option (list A)) (s : RalphState) :
  (forall s a, logs (body s a) = logs s) ->
  logs (for_each xs body s) = logs s.
Proof.
  intros Hbody. destruct xs as [l|]; simpl; [|reflexivity].
  revert s. induction l as [|a l IH]; intros s; simpl; [reflexivity|].
  by rewrite IH, Hbody.
Qed.

Lemma updateRalphState_logs (now : Z) (eventName : string)
    (data : EventData) (s : RalphState) :
  (length (logs s) <= 100)%nat ->
  (length (logs (updateRalphState now eventName data s)) <= 100)%nat.
Proof.
  intros Hs. unfold updateRalphState.
  repeat case_decide; simpl; try lia; try exact Hs.
  - by destruct (js_truthy_Q (d_cost data)).
  - by rewrite for_each_logs.
  - by rewrite !for_each_logs.
  - destruct (Nat.ltb_spec 100
                (length (logs s ++ [ {| log_time := now;
                    log_message := d_message data;
                    log_level := js_or_string (d_level data) "info" |} ])))
      as [Hlong|Hshort]; [|exact Hshort].
    clear Hlong. destruct (logs s) as [|l0 ls]; simpl in *; [lia|].
    rewrite length_app. simpl. lia.
Qed.

(** X2: the dashboard keeps at most the last hundred log entries,
    whatever is published. *)
Lemma logs_bounded (evs : list (Z * string * EventData)) :
  (length (logs (replay initialState evs)) <= 100)%nat.
Proof.
  unfold replay.
  assert (Hinit : (length (logs initialState) <= 100)%nat) by (simpl; lia).
  revert Hinit. generalize initialState.
  induction evs as [|ev evs IH]; intros s Hs; simpl; [exact Hs|].
  by apply IH, updateRalphState_logs.
Qed.

End LogFacts.

(** * Late subscribers *)

Section SubscriberFacts.
Import Dashboard.

(** Whether some [ralph_started] event is among the published ones. *)
Definition ever_started (evs : list (Z * string * EventData)) : bool :=
  existsb (fun ev => bool_decide (ev.1.2 = "ralph_started")) evs.

(** The spec's notion of a run being in progress, in its own words: a
    run is active from its [ralph_started] event until its
    [ralph_complete] event. *)
Definition run_in_progress (evs : list (Z * string * EventData)) : bool :=
  foldl (fun active ev =>
           if decide (ev.1.2 = "ralph_started") then true
           else if decide (ev.1.2 = "ralph_complete") then false
           else active)
        false evs.

Lemma for_each_started {A} (body : RalphState -> A -> RalphState)
    (xs : option (list A)) (s : RalphState) :
  (forall s x, started (body s x) = started s) ->
  started (for_each xs body s) = started s.
Proof.
  intros Hbody. unfold for_each. destruct xs as [l|]; [|reflexivity].
  revert s. induction l as [|x l IH]; intros s; simpl; [reflexivity|].
  by rewrite IH, Hbody.
Qed.

Lemma updateRalphState_started (now : Z) (eventName : string)
    (data : EventData) (s : RalphState) :
  started (updateRalphState now eventName data s)
  = bool_decide (eventName = "ralph_started") || started s.
Proof.
  unfold updateRalphState. case_bool_decide as Hname.
  - by rewrite decide_True.
  - rewrite decide_False by assumption. simpl.
    repeat case_decide; try reflexivity.
    + by destruct (js_truthy_Q (d_cost data)).
    + by apply for_each_started.
    + rewrite !for_each_started; done.
Qed.

Lemma replay_started (evs : list (Z * string * EventData)) (s : RalphState) :
  started (replay s evs) = started s || ever_started evs.
Proof.
  unfold replay, ever_started. revert s.
  induction evs as [|ev evs IH]; intros s; simpl.
  - by rewrite orb_false_r.
  - rewrite IH, updateRalphState_started.
    by destruct (bool_decide _), (started s).
Qed.

Definition connected_message (now : Z) : Message :=
  {| msg_type := "connected"; msg_data := NoData; msg_timestamp := Some now |}.

Definition state_sync_message (now : Z) (s : RalphState) : Message :=
  {| msg_type := "state_sync";
     msg_data := StatePayload (getSerializableState s);
     msg_timestamp := Some now |}.

(** C9, as the code has it: an observer whose socket accepts sends and
    that connects once some [ralph_started] event has been applied
    (during the run, or after it has ended: the [started] flag is never
    cleared) is appended to the observers, receives the [connected]
    acknowledgement and directly after it exactly one [state_sync]
    message and nothing else; the message carries the snapshot of the
    current state, whose list of outstanding issues has as many entries
    as [ralphState.issues] has keys; no other observer receives
    anything and the state is not changed.  An observer that connects
    before any [ralph_started] receives the acknowledgement only. *)
Theorem late_subscriber_snapshot
    (evs : list (Z * string * EventData)) (now : Z) (ws : Socket)
    (srv : Server) :
  ralphState srv = replay initialState evs ->
  ws_send_throws ws = false ->
  ws_received ws = [] ->
  ws_id ws ∉ ws_id <$> clients srv ->
  ralphState (onConnection now ws srv) = ralphState srv /\
  (exists ws',
      clients (onConnection now ws srv) = clients srv ++ [ws'] /\
      ws_id ws' = ws_id ws /\
      ws_received ws'
      = if ever_started evs
        then [connected_message now; state_sync_message now (ralphState srv)]
        else [connected_message now]) /\
  length (snap_issues (getSerializableState (ralphState srv)))
  = size (issues (ralphState srv)).
Proof.
  intros Hstate Hsend Hnew Hfresh. split; [reflexivity|]. split.
  - unfold onConnection, clients_add, ws_send.
    rewrite Hsend; simpl. rewrite Hsend.
    assert (started (ralphState srv) = ever_started evs) as ->
      by (rewrite Hstate, replay_started; reflexivity).
    destruct (ever_started evs); simpl;
      (rewrite decide_False by exact Hfresh);
      eexists; (split; [reflexivity|]); simpl; rewrite Hnew; done.
  - unfold getSerializableState; simpl.
    by rewrite length_fmap, length_map_to_list.
Qed.

Definition one_issue_found : list (Z * string * EventData) :=
  [(0%Z, "ralph_started", [FMaxCycles 3; FBudgetHard 20]);
   (1%Z, "detection_complete",
    [FIssues [ {| ii_id := Some "a.ts:10"; ii_file := "a.ts"; ii_line := 10;
                  ii_severity := "medium"; ii_type := "console-log";
                  ii_message := "console.log left in"; ii_autoFixable := Some true |} ];
     FCost 0.1])].

Definition fresh_socket : Socket :=
  {| ws_id := 7; ws_readyState := OPEN; ws_send_throws := false;
     ws_received := [] |}.

Definition server_after (evs : list (Z * string * EventData)) : Server :=
  {| isRunning := true; clients := [];
     ralphState := replay initialState evs |}.

Lemma late_subscriber_snapshot_witness :
  exists ws',
    clients (onConnection 9 fresh_socket (server_after one_issue_found)) = [ws'] /\
    ws_received ws'
    = [connected_message 9;
       state_sync_message 9 (replay initialState one_issue_found)].
Proof.
  destruct (late_subscriber_snapshot one_issue_found 9 fresh_socket
              (server_after one_issue_found))
    as (_ & (ws' & Hclients & _ & Hreceived) & _).
  - reflexivity.
  - reflexivity.
  - reflexivity.
  - simpl. apply not_elem_of_nil.
  - exists ws'. split; [exact Hclients | exact Hreceived].
Defined.

Definition run_ended : list (Z * string * EventData) :=
  [(0%Z, "ralph_started", [FMaxCycles 3; FBudgetHard 20]);
   (5%Z, "ralph_complete",
    [FStatus "complete"; FTotalCost 0.1; FReason "No issues found"])].

(** The claim as the spec words it fails: once the run has ended no run
    is active, and an observer that connects then is still sent a
    [state_sync]. *)
Lemma state_sync_after_run_ended :
  run_in_progress run_ended = false /\
  map (fun c => map msg_type (ws_received c))
      (clients (onConnection 9 fresh_socket (server_after run_ended)))
  = [["connected"; "state_sync"]].
Proof. split; vm_compute; reflexivity. Qed.

End SubscriberFacts.

(** * The retry policy *)

Section RetryFacts.
Import Watcher.
Local Open Scope js_scope.

Variable env : Env.

(** Message fragments that mark an error as not worth retrying. *)
Definition fatal_signatures : list string :=
  ["not found"; "permission denied"; "invalid"; "authentication"; "401"; "403"].

(** The verdict of [isNonRetryableError] on an [Error] with the given
    [message]. *)
Definition fatal (message : option string) : bool :=
  existsb (fun signature =>
             includes signature
               (match message with Some s => toLowerCase s | None => "" end))
          fatal_signatures.

Lemma isNonRetryableError_fatal (message : option string) (w : World) :
  isNonRetryableError (ErrorObject message) w = (Returned (fatal message), w).
Proof.
  unfold isNonRetryableError, fatal, fatal_signatures, bind, message_of, ret.
  simpl. by rewrite orb_false_r, !orb_assoc.
Qed.

(** The world in which the next attempt starts after attempt number
    [attempt] failed with a transient error: the policy sleeps
    [baseDelay * 2^(attempt-1)] ms unless that was the last attempt. *)
Definition backed_off (maxAttempts : nat) (baseDelay : Z) (attempt : Z)
    (w : World) : World :=
  if (attempt <? Z.of_nat maxAttempts)%Z
  then (sleep env (baseDelay * 2 ^ (attempt - 1))%Z w).2
  else w.

(** [transient_failures fn maxAttempts baseDelay k w wk last]: started in
    [w], the first [k] calls of [fn] all threw errors that are not
    fatal, the policy backed off after each, the last of them threw
    [last], and call number [k+1] would start in [wk]. *)
Inductive transient_failures {A} (fn : M A) (maxAttempts : nat) (baseDelay : Z)
    : nat -> World -> World -> Thrown -> Prop :=
| no_failure (w : World) :
    transient_failures fn maxAttempts baseDelay 0 w w UndefinedValue
| one_more_failure (k : nat) (w wk w' : World) (previous : Thrown)
      (message : option string) :
    transient_failures fn maxAttempts baseDelay k w wk previous ->
    fn wk = (Threw (ErrorObject message), w') ->
    fatal message = false ->
    transient_failures fn maxAttempts baseDelay (S k) w
      (backed_off maxAttempts baseDelay (Z.of_nat (S k)) w')
      (ErrorObject message).

Lemma retry_loop_step {A} (fn : M A) (maxAttempts : nat) (baseDelay : Z)
    (remaining : nat) (attempt : Z) (lastError : Thrown) (w : World) :
  retry_loop env fn maxAttempts baseDelay (S remaining) attempt lastError w
  = match fn w with
    | (Returned a, w') => (Returned a, w')
    | (Threw (ErrorObject message), w') =>
        if fatal message then (Threw (ErrorObject message), w')
        else retry_loop env fn maxAttempts baseDelay remaining (attempt + 1)
               (ErrorObject message)
               (backed_off maxAttempts baseDelay attempt w')
    | (Threw UndefinedValue, w') =>
        (Threw (ErrorObject
           (Some "Cannot read properties of undefined (reading 'message')")), w')
    end.
Proof.
  simpl. unfold try_catch.
  destruct (fn w) as [[a|[message|]] w']; [reflexivity| |reflexivity].
  unfold bind at 1. rewrite isNonRetryableError_fatal.
  destruct (fatal message); [reflexivity|].
  unfold backed_off, bind.
  destruct (attempt <? Z.of_nat maxAttempts)%Z; reflexivity.
Qed.

(** After [k] transient failures the loop is where a fresh loop with
    [k] fewer iterations left would be. *)
Lemma retry_loop_after_failures {A} (fn : M A) (maxAttempts : nat)
    (baseDelay : Z) (k : nat) (w wk : World) (last : Thrown) :
  transient_failures fn maxAttempts baseDelay k w wk last ->
  forall remaining : nat,
    retry_loop env fn maxAttempts baseDelay (k + remaining) 1 UndefinedValue w
    = retry_loop env fn maxAttempts baseDelay remaining (Z.of_nat k + 1) last wk.
Proof.
  induction 1 as [w|k w wk w' previous message Hk IH Hfn Hfatal];
    intros remaining.
  - reflexivity.
  - replace (S k + remaining)%nat with (k + S remaining)%nat by lia.
    rewrite IH, retry_loop_step, Hfn, Hfatal.
    replace (Z.of_nat (S k)) with (Z.of_nat k + 1)%Z by lia.
    reflexivity.
Qed.

(** C6: [withRetry(fn, { maxAttempts, baseDelay })].  Suppose the first
    [k] calls of [fn] threw transient errors, each followed by a pause
    of [baseDelay * 2^(attempt-1)] ms (attempt = 1, 2, ...).
    - If [k < maxAttempts] and call [k+1] returns, [withRetry] returns
      that value in the world the call left: nothing runs after it.
    - If [k < maxAttempts] and call [k+1] throws an error whose
      lower-cased message contains a fatal signature, [withRetry] throws
      that error in the world the call left: no pause, no further call.
    - If [k = maxAttempts], [withRetry] throws the error of the last
      call, and no pause followed that call.
    An error is fatal exactly when its lower-cased message contains one
    of [fatal_signatures]. *)
Theorem withRetry_policy {A} (fn : M A) (maxAttempts : nat) (baseDelay : Z)
    (k : nat) (w wk : World) (last : Thrown) :
  transient_failures fn maxAttempts baseDelay k w wk last ->
  (forall (a : A) (w' : World),
      (k < maxAttempts)%nat -> fn wk = (Returned a, w') ->
      withRetry env fn maxAttempts baseDelay w = (Returned a, w')) /\
  (forall (message : option string) (w' : World),
      (k < maxAttempts)%nat -> fn wk = (Threw (ErrorObject message), w') ->
      fatal message = true ->
      withRetry env fn maxAttempts baseDelay w
      = (Threw (ErrorObject message), w')) /\
  (k = maxAttempts ->
      withRetry env fn maxAttempts baseDelay w = (Threw last, wk)) /\
  (forall (attempt : Z) (w' : World),
      (attempt < Z.of_nat maxAttempts)%Z ->
      w_trace (backed_off maxAttempts baseDelay attempt w')
      = w_trace w' ++ [Slept (baseDelay * 2 ^ (attempt - 1))]) /\
  (forall message : option string,
      fatal message = true <->
      exists signature,
        signature ∈ fatal_signatures /\
        includes signature
          (match message with Some s => toLowerCase s | None => "" end) = true).
Proof.
  intros Hk. unfold withRetry. split_and!.
  - intros a w' Hlt Hfn.
    replace maxAttempts with (k + S (maxAttempts - S k))%nat at 2 by lia.
    by rewrite (retry_loop_after_failures _ _ _ _ _ _ _ Hk), retry_loop_step, Hfn.
  - intros message w' Hlt Hfn Hfatal.
    replace maxAttempts with (k + S (maxAttempts - S k))%nat at 2 by lia.
    by rewrite (retry_loop_after_failures _ _ _ _ _ _ _ Hk), retry_loop_step,
      Hfn, Hfatal.
  - intros ->.
    replace maxAttempts with (maxAttempts + 0)%nat at 2 by lia.
    by rewrite (retry_loop_after_failures _ _ _ _ _ _ _ Hk).
  - intros attempt w' Hlt. unfold backed_off.
    apply Z.ltb_lt in Hlt. rewrite Hlt. reflexivity.
  - intros message. unfold fatal. rewrite existsb_exists.
    split; intros (signature & Hin & Hinc); exists signature;
      (split; [by apply list_elem_of_In | exact Hinc]).
Qed.

End RetryFacts.

(** * Reasoning about effectful code *)

Section Hoare.
Import Watcher.
Local Open Scope js_scope.

(** [hoare P m Q]: run from a world satisfying [P], the computation [m]
    ends (returning or throwing) in a world and with an outcome related
    by [Q]. *)
Definition hoare {A} (P : World -> Prop) (m : M A)
    (Q : Outcome A -> World -> Prop) : Prop :=
  forall w, P w -> Q (m w).1 (m w).2.

(** [total P m R]: run from a world satisfying [P], [m] returns (it does
    not throw), with a value and a world related by [R]. *)
Definition total {A} (P : World -> Prop) (m : M A)
    (R : A -> World -> Prop) : Prop :=
  forall w, P w -> exists a, (m w).1 = Returned a /\ R a (m w).2.

Lemma total_ret {A} (P : World -> Prop) (R : A -> World -> Prop) (a : A) :
  (forall w, P w -> R a w) -> total P (ret a) R.
Proof. intros H w Hw. exists a. split; [reflexivity | by apply H]. Qed.

Lemma total_gets {A} (P : World -> Prop) (R : A -> World -> Prop)
    (f : World -> A) :
  (forall w, P w -> R (f w) w) -> total P (gets f) R.
Proof. intros H w Hw. exists (f w). split; [reflexivity | by apply H]. Qed.

Lemma total_modify (P : World -> Prop) (R : unit -> World -> Prop)
    (f : World -> World) :
  (forall w, P w -> R tt (f w)) -> total P (modify f) R.
Proof. intros H w Hw. exists tt. split; [reflexivity | by apply H]. Qed.

Lemma total_bind {A B} (P : World -> Prop) (R1 : A -> World -> Prop)
    (R : B -> World -> Prop) (m : M A) (k : A -> M B) :
  total P m R1 ->
  (forall a, total (R1 a) (k a) R) ->
  total P (bind m k) R.
Proof.
  intros Hm Hk w Hw. destruct (Hm w Hw) as (a & Ha & HR1).
  unfold bind. destruct (m w) as [o w1]; simpl in *; subst o.
  exact (Hk a w1 HR1).
Qed.

Lemma total_weaken {A} (P P' : World -> Prop) (R R' : A -> World -> Prop)
    (m : M A) :
  total P' m R' ->
  (forall w, P w -> P' w) ->
  (forall a w, R' a w -> R a w) ->
  total P m R.
Proof.
  intros Hm HP HR w Hw. destruct (Hm w (HP w Hw)) as (a & Ha & Hr).
  exists a. split; [exact Ha | by apply HR].
Qed.

Lemma total_try_catch {A} (P : World -> Prop) (Q : Outcome A -> World -> Prop)
    (R : A -> World -> Prop) (m : M A) (h : Thrown -> M A) :
  hoare P m Q ->
  (forall a w, Q (Returned a) w -> R a w) ->
  (forall e, total (Q (Threw e)) (h e) R) ->
  total P (try_catch m h) R.
Proof.
  intros Hm Hret Hh w Hw. specialize (Hm w Hw).
  unfold try_catch. destruct (m w) as [[a|e] w1]; simpl in *.
  - exists a. split; [reflexivity | by apply Hret].
  - exact (Hh e w1 Hm).
Qed.

Lemma hoare_bind {A B} (P : World -> Prop) (Q1 : Outcome A -> World -> Prop)
    (Q : Outcome B -> World -> Prop) (m : M A) (k : A -> M B) :
  hoare P m Q1 ->
  (forall a, hoare (Q1 (Returned a)) (k a) Q) ->
  (forall e w, Q1 (Threw e) w -> Q (Threw e) w) ->
  hoare P (bind m k) Q.
Proof.
  intros Hm Hk He w Hw. specialize (Hm w Hw).
  unfold bind. destruct (m w) as [[a|e] w1]; simpl in *.
  - exact (Hk a w1 Hm).
  - by apply He.
Qed.

Lemma hoare_of_total {A} (P : World -> Prop) (R : A -> World -> Prop)
    (Q : Outcome A -> World -> Prop) (m : M A) :
  total P m R ->
  (forall a w, R a w -> Q (Returned a) w) ->
  hoare P m Q.
Proof.
  intros Hm HQ w Hw. destruct (Hm w Hw) as (a & Ha & Hr).
  rewrite Ha. by apply HQ.
Qed.

Lemma hoare_weaken {A} (P P' : World -> Prop) (Q Q' : Outcome A -> World -> Prop)
    (m : M A) :
  hoare P' m Q' ->
  (forall w, P w -> P' w) ->
  (forall o w, Q' o w -> Q o w) ->
  hoare P m Q.
Proof. intros Hm HP HQ w Hw. apply HQ, Hm, HP, Hw. Qed.

End Hoare.

(** * Invariants of a cycle *)

Section CycleFacts.
Import Watcher.
Local Open Scope js_scope.

Variable env : Env.
Variable cfg : Config.

(** Events whose reducer case leaves the dashboard's [totalCost] alone
    (or that the reducer ignores). *)
Definition harmless_events : list string :=
  ["cycle_started"; "detection_started"; "fix_started";
   "verification_result"; "fix_complete"; "budget_warning"].

Definition harmless (eventName : string) : bool :=
  bool_decide (eventName ∈ harmless_events).

(** [ralphState.cycle++] *)
Definition next_cycle (w : World) : World :=
  with_ctl (set_counters (cycle (w_ctl w) + 1) (totalFixed (w_ctl w))
                         (totalIssuesFound (w_ctl w)) (w_ctl w)) w.

(** [js_or_Q (r_cost r) 0]: what a detection pass adds to [totalCost]. *)
Definition review_cost (r : ReviewResult) : Q := js_or_Q (r_cost r) 0.

Definition fix_cost (r : FixResult) : Q := js_or_Q (f_cost r) 0.

(** A world predicate [I] that every step of a cycle keeps.  Between
    adding a detection cost [c] and publishing [detection_complete] the
    weaker-or-different [J c] may hold instead.  [G] and [F] are what is
    known of the answers of the detection and fix processes. *)
Record CycleInv (I : World -> Prop) (J : Q -> World -> Prop)
    (G : ReviewResult -> Prop) (F : FixResult -> Prop) : Prop := {
  ci_review : forall n files fs r, review_process env n files fs = inl r -> G r;
  ci_fix : forall n file issues fs r,
      (fix_process env n file issues fs).1 = inl r -> F r;
  ci_fix_nothing : F {| f_fixed := false; f_cost := None |};
  ci_emit : forall eventName data w,
      harmless eventName = true -> I w -> I (emit env eventName data w).2;
  ci_await : forall w, I w -> I (await_point env w);
  ci_observe : forall o w, I w -> I (observe o w);
  ci_fs : forall fs w, I w -> I (with_fs fs w);
  ci_counters : forall fixed found w,
      I w -> I (with_ctl (set_counters (cycle (w_ctl w)) fixed found (w_ctl w)) w);
  ci_detection_cost : forall r w,
      G r -> I w -> J (review_cost r) (add_cost (review_cost r) w).2;
  ci_found : forall c fixed found w,
      J c w -> J c (with_ctl (set_counters (cycle (w_ctl w)) fixed found (w_ctl w)) w);
  ci_detection_complete : forall c data w,
      d_cost data = Some c -> J c w ->
      I (emit env "detection_complete" data w).2;
  ci_cost_update : forall data w,
      d_totalCost data = Some (totalCost (w_ctl w)) -> I w ->
      I (emit env "cost_update" data w).2;
  ci_fix_cost : forall r w, F r -> I w -> I (add_cost (fix_cost r) w).2;
  ci_verify_cost : forall w, I w -> I (add_cost 0.02 w).2;
  ci_cycle_complete : forall data w,
      d_cost data = Some (totalCost (w_ctl w)) -> I w ->
      I (emit env "cycle_complete" data w).2
}.

Section RetryInvariant.

Variable I : World -> Prop.
Hypothesis kept_by_sleep : forall ms w, I w -> I (sleep env ms w).2.

(** A retried operation keeps what each call keeps; what it returns, a
    call returned; and it never throws [undefined] once it made a call. *)
Lemma retry_loop_keeps {A} (K : A -> Prop) (fn : M A) (maxAttempts : nat)
    (baseDelay : Z) (remaining : nat) :
  hoare I fn
    (fun o w => I w /\ match o with Returned a => K a | Threw _ => True end) ->
  forall (attempt : Z) (last : Thrown),
  hoare I (retry_loop env fn maxAttempts baseDelay remaining attempt last)
    (fun o w => I w /\
       match o with
       | Returned a => K a
       | Threw e => e = last \/ e <> UndefinedValue
       end).
Proof.
  intros Hfn.
  induction remaining as [|remaining IH]; intros attempt last w Hw.
  - simpl. split; [exact Hw | by left].
  - rewrite retry_loop_step. specialize (Hfn w Hw).
    destruct (fn w) as [[a|[message|]] w']; simpl in Hfn; destruct Hfn as [Hw' Ha].
    + simpl. by split.
    + destruct (fatal message).
      * simpl. split; [exact Hw' | by right].
      * assert (I (backed_off env maxAttempts baseDelay attempt w')) as Hb.
        { unfold backed_off. destruct (attempt <? Z.of_nat maxAttempts)%Z;
            [|exact Hw'].
          by apply kept_by_sleep. }
        destruct (IH (attempt + 1)%Z (ErrorObject message) _ Hb) as [H1 H2].
        split; [exact H1|].
        destruct (retry_loop env fn maxAttempts baseDelay remaining _ _ _).1
          as [a|e]; [exact H2|].
        right. by destruct H2 as [->|H2].
    + simpl. split; [exact Hw' | by right].
Qed.

Lemma withRetry_keeps {A} (K : A -> Prop) (fn : M A) (maxAttempts : nat)
    (baseDelay : Z) :
  hoare I fn
    (fun o w => I w /\ match o with Returned a => K a | Threw _ => True end) ->
  (0 < maxAttempts)%nat ->
  hoare I (withRetry env fn maxAttempts baseDelay)
    (fun o w => I w /\
       match o with
       | Returned a => K a
       | Threw e => e <> UndefinedValue
       end).
Proof.
  intros Hfn Hpos w Hw. unfold withRetry.
  destruct maxAttempts as [|n]; [lia|].
  rewrite retry_loop_step. pose proof (Hfn w Hw) as Hcall.
  destruct (fn w) as [[a|[message|]] w']; simpl in Hcall;
    destruct Hcall as [Hw' Ha].
  - simpl. by split.
  - destruct (fatal message); [simpl; by split|].
    assert (I (backed_off env (S n) baseDelay 1 w')) as Hb.
    { unfold backed_off. destruct (1 <? Z.of_nat (S n))%Z; [|exact Hw'].
      by apply kept_by_sleep. }
    destruct (retry_loop_keeps K fn (S n) baseDelay n Hfn
                (1 + 1)%Z (ErrorObject message) _ Hb)
      as [H1 H2].
    split; [exact H1|].
    destruct (retry_loop env fn (S n) baseDelay n _ _ _).1 as [a|e];
      [exact H2|].
    by destruct H2 as [->|H2].
  - simpl. by split.
Qed.

End RetryInvariant.

Section WithInvariant.

Variable I : World -> Prop.
Variable J : Q -> World -> Prop.
Variable G : ReviewResult -> Prop.
Variable F : FixResult -> Prop.
Hypothesis inv : CycleInv I J G F.

Lemma sleep_keeps (ms : Z) : total I (sleep env ms) (fun _ w => I w).
Proof.
  apply total_modify. intros w Hw.
  by apply (ci_await _ _ _ _ inv), (ci_observe _ _ _ _ inv).
Qed.

Lemma emit_keeps (eventName : string) (data : EventData) :
  harmless eventName = true ->
  total I (emit env eventName data) (fun _ w => I w).
Proof.
  intros Hh w Hw. exists tt. split; [reflexivity|].
  by apply (ci_emit _ _ _ _ inv).
Qed.

Lemma executeClaudeReview_keeps (files : list string) :
  hoare I (executeClaudeReview env files)
    (fun o w => I w /\ match o with Returned r => G r | Threw _ => True end).
Proof.
  intros w Hw. unfold executeClaudeReview.
  destruct (review_process env (w_ticks w) files (w_fs w)) as [r|e] eqn:Hr;
    simpl; (split; [by apply (ci_await _ _ _ _ inv), (ci_observe _ _ _ _ inv)|]).
  - by apply (ci_review _ _ _ _ inv) in Hr.
  - exact Logic.I.
Qed.

Lemma executeClaudeFix_keeps (file : string) (issues : list Issue) :
  hoare I (executeClaudeFix env cfg file issues)
    (fun o w => I w /\ match o with Returned r => F r | Threw _ => True end).
Proof.
  intros w Hw. unfold executeClaudeFix.
  destruct (length (List.filter (inferAutoFixable cfg) issues) =? 0)%nat.
  - simpl. split; [exact Hw | apply (ci_fix_nothing _ _ _ _ inv)].
  - destruct (fix_process env (w_ticks w) file
                (List.filter (inferAutoFixable cfg) issues) (w_fs w))
      as [[r|e] fs] eqn:Hr; simpl;
      (split; [by apply (ci_await _ _ _ _ inv), (ci_observe _ _ _ _ inv),
                        (ci_fs _ _ _ _ inv)|]).
    + apply (ci_fix _ _ _ _ inv (w_ticks w) file
               (List.filter (inferAutoFixable cfg) issues) (w_fs w)).
      by rewrite Hr.
    + exact Logic.I.
Qed.

Lemma review_retry_keeps (files : list string) :
  hoare I (executeClaudeReviewWithRetry env files)
    (fun o w => I w /\
       match o with Returned r => G r | Threw e => e <> UndefinedValue end).
Proof.
  apply withRetry_keeps; [|apply executeClaudeReview_keeps | lia].
  intros ms w Hw. by destruct (sleep_keeps ms w Hw) as (_ & _ & H).
Qed.

Lemma fix_retry_keeps (file : string) (issues : list Issue) :
  hoare I (executeClaudeFixWithRetry env cfg file issues)
    (fun o w => I w /\
       match o with Returned r => F r | Threw e => e <> UndefinedValue end).
Proof.
  apply withRetry_keeps; [|apply executeClaudeFix_keeps | lia].
  intros ms w Hw. by destruct (sleep_keeps ms w Hw) as (_ & _ & H).
Qed.

(** Reading [error.message] of something that is not [undefined]. *)
Lemma message_of_defined {A} (e : Thrown) (k : option string -> M A)
    (R : A -> World -> Prop) :
  (forall m, total I (k m) R) ->
  total (fun w => I w /\ e <> UndefinedValue) (bind (message_of e) k) R.
Proof.
  intros Hk w [Hw He]. destruct e as [m|]; [|done].
  exact (Hk m w Hw).
Qed.

Lemma verifyFix_keeps (file : string) :
  total I (verifyFix env file) (fun _ w => I w).
Proof.
  unfold verifyFix.
  eapply total_try_catch
    with (Q := fun o w => I w /\
                 match o with Returned _ => True | Threw e => e <> UndefinedValue end).
  - eapply hoare_bind.
    + apply review_retry_keeps.
    + intros r w [Hw _]. simpl. by split.
    + intros e w [Hw He]. by split.
  - by intros a w [Hw _].
  - intros e. apply message_of_defined. intros m.
    apply total_ret. auto.
Qed.

Lemma backupFile_keeps (file : string) :
  total I (backupFile env file) (fun _ w => I w).
Proof.
  intros w Hw. unfold backupFile.
  destruct (copyFileSync _ _ _); eexists; (split; [reflexivity|]); simpl;
    [by apply (ci_fs _ _ _ _ inv) | exact Hw].
Qed.

Lemma restoreFromBackup_keeps (file backupPath : string) :
  total I (restoreFromBackup file backupPath) (fun _ w => I w).
Proof.
  intros w Hw. unfold restoreFromBackup.
  destruct (copyFileSync _ _ _); eexists; (split; [reflexivity|]); simpl;
    [by apply (ci_fs _ _ _ _ inv) | exact Hw].
Qed.

Lemma cleanupBackup_keeps (backupPath : string) :
  total I (cleanupBackup backupPath) (fun _ w => I w).
Proof. apply total_modify. intros w Hw. by apply (ci_fs _ _ _ _ inv). Qed.

Lemma when_backup_keeps {A} (backupPath : option string) (f : string -> M A) :
  (forall p, total I (f p) (fun _ w => I w)) ->
  total I (when_backup backupPath f) (fun _ w => I w).
Proof.
  intros Hf. destruct backupPath as [p|]; simpl.
  - eapply total_bind; [apply Hf|]. intros ?. by apply total_ret.
  - by apply total_ret.
Qed.

Lemma add_fixed_keeps (n : Z) : total I (add_fixed n) (fun _ w => I w).
Proof.
  apply total_modify. intros w Hw. by apply (ci_counters _ _ _ _ inv).
Qed.

Lemma add_cost_total (q : Q) (P : World -> Prop) :
  (forall w, P w -> I (add_cost q w).2) ->
  total P (add_cost q) (fun _ w => I w).
Proof. intros H w Hw. exists tt. split; [reflexivity | by apply H]. Qed.

(** The per-file transaction keeps the invariant and does not throw. *)
Lemma fixTransaction_keeps (file : string) (fileIssues : list Issue)
    (issueIds : list string) (backupPath : option string) (fixedCount : Z) :
  total I (fixTransaction env cfg file fileIssues issueIds backupPath fixedCount)
    (fun _ w => I w).
Proof.
  unfold fixTransaction.
  eapply total_try_catch
    with (Q := fun o w => I w /\
                 match o with Returned _ => True | Threw e => e <> UndefinedValue end).
  - eapply hoare_bind.
    + apply fix_retry_keeps.
    + intros fixResult. simpl.
      eapply hoare_of_total with (R := fun _ w => I w);
        [|intros ? ? ?; by split].
      eapply total_weaken with (P' := fun w => I w /\ F fixResult);
        [|intros w Hw; exact Hw|intros a w Hw; exact Hw].
      eapply total_bind with (R1 := fun _ w => I w).
      { intros w [Hw Hf]. exists tt. split; [reflexivity|].
        by apply (ci_fix_cost _ _ _ _ inv). }
      intros ?.
      destruct (f_fixed fixResult); [destruct (verifyAfterFix cfg)|].
      * eapply total_bind; [apply verifyFix_keeps|]. intros verification.
        eapply total_bind;
          [apply add_cost_total, (ci_verify_cost _ _ _ _ inv)|]. intros ?.
        destruct (v_verified verification).
        -- eapply total_bind; [apply add_fixed_keeps|]. intros ?.
           eapply total_bind;
             [apply when_backup_keeps, cleanupBackup_keeps|]. intros ?.
           eapply total_bind; [by apply emit_keeps|]. intros ?.
           eapply total_bind; [by apply emit_keeps|]. intros ?.
           by apply total_ret.
        -- eapply total_bind;
             [apply when_backup_keeps, restoreFromBackup_keeps|]. intros ?.
           eapply total_bind; [by apply emit_keeps|]. intros ?.
           eapply total_bind; [by apply emit_keeps|]. intros ?.
           by apply total_ret.
      * eapply total_bind; [apply add_fixed_keeps|]. intros ?.
        eapply total_bind;
          [apply when_backup_keeps, cleanupBackup_keeps|]. intros ?.
        eapply total_bind; [by apply emit_keeps|]. intros ?.
        by apply total_ret.
      * eapply total_bind;
          [apply when_backup_keeps, cleanupBackup_keeps|]. intros ?.
        eapply total_bind; [by apply emit_keeps|]. intros ?.
        by apply total_ret.
    + intros e w [Hw He]. by split.
  - by intros a w [Hw _].
  - intros e. apply message_of_defined. intros ?.
    eapply total_bind;
      [apply when_backup_keeps, restoreFromBackup_keeps|]. intros ?.
    eapply total_bind; [by apply emit_keeps|]. intros ?.
    by apply total_ret.
Qed.

Lemma fileIteration_keeps (issues : list Issue) (file : string)
    (fixedCount : Z) :
  total I (fileIteration env cfg issues file fixedCount) (fun _ w => I w).
Proof.
  unfold fileIteration.
  destruct (length (getAutoFixableForFile cfg issues file) =? 0)%nat;
    [by apply total_ret|].
  eapply total_bind; [by apply emit_keeps|]. intros ?.
  eapply total_bind with (R1 := fun _ w => I w).
  { destruct (backupFiles cfg); [apply backupFile_keeps | by apply total_ret]. }
  intros backupPath.
  destruct (backupFiles cfg && negb (bool_decide (is_Some backupPath)));
    [by apply total_ret|].
  eapply total_bind; [apply fixTransaction_keeps|]. intros n.
  by apply total_ret.
Qed.

Lemma fixFiles_keeps (issues : list Issue) (fileSet : list string)
    (fixedCount : Z) :
  total I (fixFiles env cfg issues fileSet fixedCount) (fun _ w => I w).
Proof.
  revert fixedCount.
  induction fileSet as [|file rest IH]; intros fixedCount; simpl.
  - by apply total_ret.
  - eapply total_bind; [apply fileIteration_keeps|]. intros [n|n]; [apply IH|].
    eapply total_bind with (R1 := fun _ w => I w); [by apply total_gets|].
    intros c. destruct (stopped c); [by apply total_ret | apply IH].
Qed.

(** ** What the detection pass of a cycle returns

    The outcome of a detection pass depends on the file system and on
    the point in time only, not on the counters, the dashboard or the
    trace. *)

Definition same_outside (w1 w2 : World) : Prop :=
  w_fs w1 = w_fs w2 /\ w_ticks w1 = w_ticks w2.

Definition respects {A} (m : M A) : Prop :=
  forall w1 w2, same_outside w1 w2 ->
    (m w1).1 = (m w2).1 /\ same_outside (m w1).2 (m w2).2.

Lemma executeClaudeReview_respects (files : list string) :
  respects (executeClaudeReview env files).
Proof.
  intros w1 w2 [Hfs Hticks]. unfold executeClaudeReview.
  rewrite Hfs, Hticks.
  destruct (review_process env (w_ticks w2) files (w_fs w2)); simpl;
    (split; [reflexivity|]); split; simpl; congruence.
Qed.

Lemma backed_off_respects (maxAttempts : nat) (baseDelay attempt : Z)
    (w1 w2 : World) :
  same_outside w1 w2 ->
  same_outside (backed_off env maxAttempts baseDelay attempt w1)
               (backed_off env maxAttempts baseDelay attempt w2).
Proof.
  intros [Hfs Hticks]. unfold backed_off.
  destruct (attempt <? Z.of_nat maxAttempts)%Z; [|by split].
  split; simpl; congruence.
Qed.

Lemma retry_loop_respects {A} (fn : M A) (maxAttempts : nat) (baseDelay : Z)
    (remaining : nat) :
  respects fn ->
  forall attempt last,
    respects (retry_loop env fn maxAttempts baseDelay remaining attempt last).
Proof.
  intros Hfn. induction remaining as [|remaining IH];
    intros attempt last w1 w2 Hsame.
  - simpl. by split.
  - rewrite !retry_loop_step. destruct (Hfn w1 w2 Hsame) as [Ho Hw].
    destruct (fn w1) as [o1 w1'], (fn w2) as [o2 w2']; simpl in *; subst o2.
    destruct o1 as [a|[message|]]; [by split| |by split].
    destruct (fatal message); [by split|].
    apply IH. by apply backed_off_respects.
Qed.

(** The outcome of the detection pass a cycle would make from [w]. *)
Definition detection (files : list string) (w : World) : Outcome ReviewResult :=
  (executeClaudeReviewWithRetry env files w).1.

Lemma detection_same (files : list string) (w1 w2 : World) :
  same_outside w1 w2 -> detection files w1 = detection files w2.
Proof.
  intros Hsame. unfold detection, executeClaudeReviewWithRetry, withRetry.
  apply retry_loop_respects; [apply executeClaudeReview_respects | exact Hsame].
Qed.

Lemma emit_same_outside (eventName : string) (data : EventData) (w0 w : World) :
  same_outside w0 w -> same_outside w0 (emit env eventName data w).2.
Proof.
  intros Hsame. unfold emit, modify; simpl.
  by destruct (dashboard env).
Qed.

(** What [runRalphCycle] returns, given the outcome of its detection
    pass. *)
Definition cycle_outcome (detected : Outcome ReviewResult) (r : CycleResult)
    : Prop :=
  match detected with
  | Threw e =>
      exists m, e = ErrorObject m /\
      r = {| complete := false; reason := None; remainingIssues := None;
             error := m; fixedThisCycle := None; issues := None |}
  | Returned d =>
      let found := default [] (r_issues d) in
      if (countAutoFixable cfg found =? 0)%nat then
        if (length found =? 0)%nat then
          r = {| complete := true; reason := Some "No issues found";
                 remainingIssues := None; error := None;
                 fixedThisCycle := None; issues := None |}
        else
          r = {| complete := true;
                 reason := Some "No auto-fixable issues remaining";
                 remainingIssues := Some found; error := None;
                 fixedThisCycle := None; issues := None |}
      else
        exists fixedCount,
          r = {| complete := false; reason := None; remainingIssues := None;
                 error := None; fixedThisCycle := Some fixedCount;
                 issues := Some found |}
  end.

(** The [try { detection ... } catch] statement of [runRalphCycle]. *)
Lemma detection_block_spec (files : list string) (w0 : World) :
  total (fun w => I w /\ same_outside w0 w)
    (try_catch
       (detection <- executeClaudeReviewWithRetry env files ;;
        add_cost (js_or_Q (r_cost detection) 0) ;;
        ret (inl detection))
       (fun error => m <- message_of error ;; ret (inr m)))
    (fun x w =>
       match x with
       | inl d => J (review_cost d) w /\ detection files w0 = Returned d
       | inr m => I w /\ detection files w0 = Threw (ErrorObject m)
       end).
Proof.
  eapply total_try_catch
    with (Q := fun o w =>
                 match o with
                 | Returned (inl d) =>
                     J (review_cost d) w /\ detection files w0 = Returned d
                 | Returned (inr _) => False
                 | Threw e =>
                     I w /\ e <> UndefinedValue /\ detection files w0 = Threw e
                 end).
  - eapply hoare_bind
      with (Q1 := fun o w =>
                    (I w /\ match o with
                            | Returned r => G r
                            | Threw e => e <> UndefinedValue
                            end) /\ detection files w0 = o).
    + intros w [Hw Hsame]. split; [by apply review_retry_keeps|].
      exact (detection_same files w0 w Hsame).
    + intros d w [[Hw Hg] Hd]. simpl. split; [|exact Hd].
      by apply (ci_detection_cost _ _ _ _ inv).
    + intros e w [[Hw He] Hd]. done.
  - intros [d|m] w H; [exact H | destruct H].
  - intros [m|] w (Hw & He & Hd); [|done].
    exists (inr m). simpl. by split.
Qed.

(** [runRalphCycle] returns, its result is decided by the detection pass
    as the code says, and it keeps every invariant of the cycle. *)
Lemma runRalphCycle_spec (files : list string) (w0 : World) :
  I (next_cycle w0) ->
  exists r,
    (runRalphCycle env cfg files w0).1 = Returned r /\
    I (runRalphCycle env cfg files w0).2 /\
    cycle_outcome (detection files w0) r.
Proof.
  intros H0.
  assert (total (fun w => w = w0) (runRalphCycle env cfg files)
            (fun r w => I w /\ cycle_outcome (detection files w0) r)) as Ht.
  { unfold runRalphCycle.
    eapply total_bind with (R1 := fun _ w => I w /\ same_outside w0 w).
    { apply total_modify. intros w ->. split; [exact H0 | by split]. }
    intros ?.
    eapply total_bind with (R1 := fun _ w => I w /\ same_outside w0 w);
      [by apply total_gets|]. intros c.
    eapply total_bind with (R1 := fun _ w => I w /\ same_outside w0 w).
    { intros w [Hw Hs]. exists tt. split; [reflexivity|].
      split; [by apply (ci_emit _ _ _ _ inv) | by apply emit_same_outside]. }
    intros ?.
    eapply total_bind with (R1 := fun _ w => I w /\ same_outside w0 w).
    { intros w [Hw Hs]. exists tt. split; [reflexivity|].
      split; [by apply (ci_emit _ _ _ _ inv) | by apply emit_same_outside]. }
    intros ?.
    eapply total_bind; [apply detection_block_spec|].
    intros [d|m].
    - (* the detection pass returned [d] *)
      intros w [Hw Hd]. revert w Hw.
      change (total (fun w => J (review_cost d) w)
                (modify (fun w =>
                   with_ctl (set_counters (cycle (w_ctl w)) (totalFixed (w_ctl w))
                     (totalIssuesFound (w_ctl w)
                      + Z.of_nat (length (default [] (r_issues d))))
                     (w_ctl w)) w) ;;
                 emit env "detection_complete"
                   [FIssues (map (issue_info cfg) (default [] (r_issues d)));
                    FNumber "autoFixable"
                      (inject_Z (Z.of_nat
                         (countAutoFixable cfg (default [] (r_issues d)))));
                    FCost (js_or_Q (r_cost d) 0)] ;;
                 c0 <- ctl ;;
                 emit env "cost_update"
                   [FTotalCost (totalCost c0);
                    FNumber "cyclesCost" (js_or_Q (r_cost d) 0)] ;;
                 if (countAutoFixable cfg (default [] (r_issues d)) =? 0)%nat
                 then
                   if (length (default [] (r_issues d)) =? 0)%nat
                   then ret {| complete := true; reason := Some "No issues found";
                               remainingIssues := None; error := None;
                               fixedThisCycle := None; issues := None |}
                   else ret {| complete := true;
                               reason := Some "No auto-fixable issues remaining";
                               remainingIssues := Some (default [] (r_issues d));
                               error := None; fixedThisCycle := None;
                               issues := None |}
                 else
                   fixedCount <-
                     fixFiles env cfg (default [] (r_issues d))
                       (set_of_list (map i_file (default [] (r_issues d)))) 0 ;;
                   c1 <- ctl ;;
                   emit env "cycle_complete"
                     [FCycle (cycle c1);
                      FNumber "fixedThisCycle" (inject_Z fixedCount);
                      FNumber "totalFixed" (inject_Z (totalFixed c1));
                      FNumber "remaining"
                        (inject_Z (Z.of_nat
                           (countAutoFixable cfg (default [] (r_issues d)))
                           - fixedCount));
                      FCost (totalCost c1)] ;;
                   ret {| complete := false; reason := None;
                          remainingIssues := None; error := None;
                          fixedThisCycle := Some fixedCount;
                          issues := Some (default [] (r_issues d)) |})
                (fun r w => I w /\ cycle_outcome (detection files w0) r)).
      rewrite Hd. unfold cycle_outcome.
      eapply total_bind with (R1 := fun _ w => J (review_cost d) w).
      { apply total_modify. intros w Hw. by apply (ci_found _ _ _ _ inv). }
      intros ?.
      eapply total_bind with (R1 := fun _ w => I w).
      { intros w Hw. exists tt. split; [reflexivity|].
        by apply (ci_detection_complete _ _ _ _ inv (review_cost d)). }
      intros ?.
      eapply total_bind with (R1 := fun c0 w => I w /\ c0 = w_ctl w);
        [by apply total_gets|]. intros c0.
      eapply total_bind with (R1 := fun _ w => I w).
      { intros w [Hw ->]. exists tt. split; [reflexivity|].
        by apply (ci_cost_update _ _ _ _ inv). }
      intros ?.
      destruct (countAutoFixable cfg (default [] (r_issues d)) =? 0)%nat.
      + destruct (length (default [] (r_issues d)) =? 0)%nat;
          by apply total_ret.
      + eapply total_bind; [apply fixFiles_keeps|]. intros fixedCount.
        eapply total_bind with (R1 := fun c1 w => I w /\ c1 = w_ctl w);
          [by apply total_gets|]. intros c1.
        eapply total_bind with (R1 := fun _ w => I w).
        { intros w [Hw ->]. exists tt. split; [reflexivity|].
          by apply (ci_cycle_complete _ _ _ _ inv). }
        intros ?. apply total_ret. intros w Hw. split; [exact Hw|].
        by exists fixedCount.
    - (* the detection pass threw *)
      intros w [Hw Hd]. eexists. split; [reflexivity|]. simpl.
      split; [exact Hw|]. rewrite Hd. simpl. by exists m. }
  destruct (Ht w0 eq_refl) as (r & Hr & Hw & Hc). by exists r.
Qed.

End WithInvariant.

(** ** Invariants that hold of every run *)

Ltac effect_cases :=
  intros;
  unfold emit, add_cost, modify, await_point, observe, with_fs, with_ctl,
    next_cycle in *;
  simpl in *;
  try (destruct (dashboard env); simpl in * ).


Lemma inv_and (I1 I2 : World -> Prop) (J1 J2 : Q -> World -> Prop)
    (G1 G2 : ReviewResult -> Prop) (F1 F2 : FixResult -> Prop) :
  CycleInv I1 J1 G1 F1 ->
  CycleInv I2 J2 G2 F2 ->
  CycleInv (fun w => I1 w /\ I2 w) (fun c w => J1 c w /\ J2 c w)
           (fun r => G1 r /\ G2 r) (fun r => F1 r /\ F2 r).
Proof.
  intros [] []. constructor; intros;
    repeat match goal with H : _ /\ _ |- _ => destruct H end;
    split; eauto.
Qed.

(** The cycle counter changes only at the top of [runRalphCycle]. *)
Lemma inv_cycle (k : Z) :
  CycleInv (fun w => cycle (w_ctl w) = k) (fun _ w => cycle (w_ctl w) = k)
           (fun _ => True) (fun _ => True).
Proof. constructor; effect_cases; auto. Qed.

(** Without a Ctrl+C the stop flag stays clear. *)
Lemma inv_not_stopped :
  (forall n, sigint env n = false) ->
  CycleInv (fun w => stopped (w_ctl w) = false)
           (fun _ w => stopped (w_ctl w) = false)
           (fun _ => True) (fun _ => True).
Proof.
  intros Hsig. constructor; effect_cases; auto;
    by rewrite Hsig, orb_false_r.
Qed.

(** The ghost history ends with the current total. *)
Lemma inv_last_cost :
  CycleInv (fun w => last (w_costs w) = Some (totalCost (w_ctl w)))
           (fun _ w => last (w_costs w) = Some (totalCost (w_ctl w)))
           (fun _ => True) (fun _ => True).
Proof. constructor; effect_cases; auto; by rewrite last_snoc. Qed.

(** The ghost history only grows. *)
Lemma inv_history (l : list Q) :
  CycleInv (fun w => l `prefix_of` w_costs w)
           (fun _ w => l `prefix_of` w_costs w)
           (fun _ => True) (fun _ => True).
Proof. constructor; effect_cases; auto; by apply prefix_app_r. Qed.

(** ** The main loop *)

Section RunInvariant.

Variable I : World -> Prop.
Variable J : Q -> World -> Prop.
Variable G : ReviewResult -> Prop.
Variable F : FixResult -> Prop.
Hypothesis inv : CycleInv I J G F.
Hypothesis inv_next : forall w, I w -> I (next_cycle w).
Hypothesis inv_done : forall data w,
  d_totalCost data = Some (totalCost (w_ctl w)) -> I w ->
  I (emit env "ralph_complete" data w).2.

Lemma runRalphCycle_keeps (files : list string) :
  total I (runRalphCycle env cfg files) (fun _ w => I w).
Proof.
  intros w Hw.
  destruct (runRalphCycle_spec I J G F inv files w (inv_next w Hw))
    as (r & Hr & Hw' & _).
  by exists r.
Qed.

Lemma finishStopped_keeps : total I (finishStopped env) (fun _ w => I w).
Proof.
  unfold finishStopped.
  eapply total_bind with (R1 := fun c w => I w /\ c = w_ctl w);
    [by apply total_gets|]. intros c.
  eapply total_bind with (R1 := fun _ w => I w /\ c = w_ctl w);
    [by apply total_gets|]. intros t.
  eapply total_bind with (R1 := fun _ w => I w).
  { intros w [Hw ->]. exists tt. split; [reflexivity|]. by apply inv_done. }
  intros ?. by apply total_ret.
Qed.

Lemma finishComplete_keeps (result : CycleResult) :
  total I (finishComplete env result) (fun _ w => I w).
Proof.
  unfold finishComplete.
  eapply total_bind with (R1 := fun c w => I w /\ c = w_ctl w);
    [by apply total_gets|]. intros c.
  eapply total_bind with (R1 := fun _ w => I w /\ c = w_ctl w);
    [by apply total_gets|]. intros t.
  eapply total_bind with (R1 := fun _ w => I w).
  { intros w [Hw ->]. exists tt. split; [reflexivity|]. by apply inv_done. }
  intros ?. by apply total_ret.
Qed.

(** The main loop returns and keeps the invariant, whatever the fuel. *)
Lemma mainLoop_keeps (files : list string) (fuel : nat) :
  total I (mainLoop env cfg fuel files) (fun _ w => I w).
Proof.
  induction fuel as [|fuel IH]; simpl.
  - eapply total_bind with (R1 := fun _ w => I w); [by apply total_gets|].
    intros c.
    destruct (lt_number (cycle c) (maxCycles cfg) && negb (stopped c));
      [by apply total_ret | apply finishStopped_keeps].
  - eapply total_bind with (R1 := fun _ w => I w); [by apply total_gets|].
    intros c.
    destruct (lt_number (cycle c) (maxCycles cfg) && negb (stopped c));
      [|apply finishStopped_keeps].
    destruct (Qle_bool (budgetHard cfg) (totalCost c));
      [apply finishStopped_keeps|].
    eapply total_bind with (R1 := fun _ w => I w).
    { destruct (Qle_bool (budgetWarning cfg) (totalCost c) && (1 <? cycle c)%Z);
        [by apply emit_keeps with (J := J) (G := G) (F := F)
        | by apply total_ret]. }
    intros ?.
    eapply total_bind; [apply runRalphCycle_keeps|]. intros result.
    destruct (complete result); [apply finishComplete_keeps|].
    eapply total_bind with (R1 := fun _ w => I w); [by apply total_gets|].
    intros c'.
    eapply total_bind with (R1 := fun _ w => I w).
    { destruct (negb (stopped c') && lt_number (cycle c') (maxCycles cfg));
        [by apply sleep_keeps with (J := J) (G := G) (F := F)
        | by apply total_ret]. }
    intros ?. exact IH.
Qed.

End RunInvariant.

End CycleFacts.

(** * Budget monotonicity *)

Section CostFacts.
Import Watcher.
Local Open Scope js_scope.
Local Open Scope Q_scope.

Variable env : Env.
Variable cfg : Config.

(** The dashboard's [ralphState.totalCost]. *)
Definition dash_total (w : World) : Q :=
  Dashboard.totalCost (Dashboard.ralphState (w_dash w)).

Lemma for_each_totalCost {A} (body : Dashboard.RalphState -> A -> Dashboard.RalphState)
    (xs : option (list A)) (s : Dashboard.RalphState) :
  (forall s x, Dashboard.totalCost (body s x) = Dashboard.totalCost s) ->
  Dashboard.totalCost (Dashboard.for_each xs body s) = Dashboard.totalCost s.
Proof.
  intros Hbody. unfold Dashboard.for_each. destruct xs as [l|]; [|reflexivity].
  revert s. induction l as [|x l IH]; intros s; simpl; [reflexivity|].
  by rewrite IH, Hbody.
Qed.

Lemma harmless_totalCost (now : Z) (eventName : string) (data : EventData)
    (s : Dashboard.RalphState) :
  harmless eventName = true ->
  Dashboard.totalCost (Dashboard.updateRalphState now eventName data s)
  = Dashboard.totalCost s.
Proof.
  unfold harmless, harmless_events. rewrite bool_decide_eq_true.
  rewrite !elem_of_cons, elem_of_nil.
  intros [->|[->|[->|[->|[->|[->|[]]]]]]];
    unfold Dashboard.updateRalphState;
    repeat (case_decide; try congruence); try reflexivity.
  - by apply for_each_totalCost.
  - rewrite !for_each_totalCost; done.
Qed.

Lemma detection_complete_totalCost (now : Z) (data : EventData)
    (s : Dashboard.RalphState) (c : Q) :
  d_cost data = Some c ->
  Dashboard.totalCost (Dashboard.updateRalphState now "detection_complete" data s)
  = if Qeq_bool c 0 then Dashboard.totalCost s else Dashboard.totalCost s + c.
Proof.
  intros Hc. unfold Dashboard.updateRalphState.
  repeat (case_decide; try congruence).
  rewrite Hc. simpl. by destruct (Qeq_bool c 0).
Qed.

Lemma cost_update_totalCost (now : Z) (data : EventData)
    (s : Dashboard.RalphState) :
  Dashboard.totalCost (Dashboard.updateRalphState now "cost_update" data s)
  = js_or_Q (d_totalCost data) (Dashboard.totalCost s).
Proof.
  unfold Dashboard.updateRalphState. by repeat (case_decide; try congruence).
Qed.

Lemma cycle_complete_totalCost (now : Z) (data : EventData)
    (s : Dashboard.RalphState) :
  Dashboard.totalCost (Dashboard.updateRalphState now "cycle_complete" data s)
  = js_or_Q (d_cost data) (Dashboard.totalCost s).
Proof.
  unfold Dashboard.updateRalphState. by repeat (case_decide; try congruence).
Qed.

Lemma ralph_complete_totalCost (now : Z) (data : EventData)
    (s : Dashboard.RalphState) :
  Dashboard.totalCost (Dashboard.updateRalphState now "ralph_complete" data s)
  = js_or_Q (d_totalCost data) (Dashboard.totalCost s).
Proof.
  unfold Dashboard.updateRalphState. by repeat (case_decide; try congruence).
Qed.

Lemma Sorted_snoc (l : list Q) (x y : Q) :
  Sorted Qle l -> last l = Some x -> x <= y -> Sorted Qle (l ++ [y]).
Proof.
  induction l as [|a l IH]; intros Hs Hlast Hxy; [discriminate|].
  apply Sorted_inv in Hs as [Hs Hhd].
  destruct l as [|b l]; simpl in *.
  - injection Hlast as ->. repeat constructor. exact Hxy.
  - constructor.
    + apply IH; [exact Hs | exact Hlast | exact Hxy].
    + constructor. by apply HdRel_inv in Hhd.
Qed.

(** Both histories are non-decreasing and end with the current totals,
    and the dashboard's total has not overtaken the script's. *)
Definition costs_in_step (w : World) : Prop :=
  Sorted Qle (w_costs w) /\
  last (w_costs w) = Some (totalCost (w_ctl w)) /\
  Sorted Qle (w_dash_costs w) /\
  last (w_dash_costs w) = Some (dash_total w) /\
  dash_total w <= totalCost (w_ctl w).

(** The same between adding a detection cost [c] and publishing it. *)
Definition cost_pending (c : Q) (w : World) : Prop :=
  Sorted Qle (w_costs w) /\
  last (w_costs w) = Some (totalCost (w_ctl w)) /\
  Sorted Qle (w_dash_costs w) /\
  last (w_dash_costs w) = Some (dash_total w) /\
  0 <= c /\
  dash_total w + c <= totalCost (w_ctl w).

(** What [emit] does to the quantities the cost invariants speak of:
    with a dashboard its total becomes what the reducer computes,
    without one nothing changes. *)
Lemma emit_costs (eventName : string) (data : EventData) (w : World) (d : Q) :
  Sorted Qle (w_dash_costs w) ->
  last (w_dash_costs w) = Some (dash_total w) ->
  Dashboard.totalCost
    (Dashboard.updateRalphState (clock env (w_ticks w)) eventName data
       (Dashboard.ralphState (w_dash w))) = d ->
  dash_total w <= d ->
  w_ctl (emit env eventName data w).2 = w_ctl w /\
  w_costs (emit env eventName data w).2 = w_costs w /\
  Sorted Qle (w_dash_costs (emit env eventName data w).2) /\
  last (w_dash_costs (emit env eventName data w).2)
  = Some (dash_total (emit env eventName data w).2) /\
  (dash_total (emit env eventName data w).2 = d \/
   dash_total (emit env eventName data w).2 = dash_total w).
Proof.
  intros Hs Hl Hd Hle. unfold emit, modify, dash_total in *; simpl.
  destruct (dashboard env); simpl.
  - rewrite emitEvent_state, Hd.
    split_and!; try reflexivity.
    + by eapply Sorted_snoc.
    + by rewrite last_snoc.
    + by left.
  - split_and!; try done. by right.
Qed.

Lemma js_or_Q_nonneg (x : option Q) :
  (forall q, x = Some q -> 0 <= q) -> 0 <= js_or_Q x 0.
Proof.
  intros H. unfold js_or_Q. destruct x as [q|]; [|lra].
  destruct (Qeq_bool q 0); [lra | by apply H].
Qed.

(** [x || old] is [old] or [x]. *)
Lemma js_or_Q_cases (x old : Q) :
  js_or_Q (Some x) old = old \/ js_or_Q (Some x) old = x.
Proof. unfold js_or_Q. destruct (Qeq_bool x 0); auto. Qed.

(** What the scripts of the environment are assumed to answer: costs
    that are not negative. *)
Definition costs_nonneg : Prop :=
  (forall n files fs r q,
      review_process env n files fs = inl r -> r_cost r = Some q -> 0 <= q) /\
  (forall n file issues fs r q,
      (fix_process env n file issues fs).1 = inl r -> f_cost r = Some q -> 0 <= q).

(** Publishing the script's own total: the dashboard catches up. *)
Lemma emit_catch_up (eventName : string) (data : EventData) (w : World) :
  Dashboard.totalCost
    (Dashboard.updateRalphState (clock env (w_ticks w)) eventName data
       (Dashboard.ralphState (w_dash w)))
  = js_or_Q (Some (totalCost (w_ctl w))) (dash_total w) ->
  costs_in_step w -> costs_in_step (emit env eventName data w).2.
Proof.
  intros Hd (H1 & H2 & H3 & H4 & H5).
  assert (dash_total w <= js_or_Q (Some (totalCost (w_ctl w))) (dash_total w)
          /\ js_or_Q (Some (totalCost (w_ctl w))) (dash_total w)
             <= totalCost (w_ctl w)) as [Hlo Hhi].
  { destruct (js_or_Q_cases (totalCost (w_ctl w)) (dash_total w)) as [->| ->];
      split; lra. }
  destruct (emit_costs eventName data w _ H3 H4 Hd Hlo)
    as (E1 & E2 & E3 & E4 & E5).
  unfold costs_in_step. rewrite E1, E2. split_and!; try done.
  destruct E5 as [-> | ->]; lra.
Qed.

Lemma add_cost_in_step (q : Q) (w : World) :
  0 <= q -> costs_in_step w -> costs_in_step (add_cost q w).2.
Proof.
  intros Hq (H1 & H2 & H3 & H4 & H5).
  unfold costs_in_step, add_cost, modify, dash_total in *; simpl.
  split_and!; try done.
  - apply Sorted_snoc with (x := totalCost (w_ctl w)); [done|done|lra].
  - by rewrite last_snoc.
  - lra.
Qed.

Lemma inv_costs :
  costs_nonneg ->
  CycleInv env costs_in_step cost_pending
    (fun r => 0 <= review_cost r) (fun r => 0 <= fix_cost r).
Proof.
  intros [Hreview Hfix]. constructor.
  - intros n files fs r Hr. apply js_or_Q_nonneg. intros q Hq.
    exact (Hreview n files fs r q Hr Hq).
  - intros n file issues fs r Hr. apply js_or_Q_nonneg. intros q Hq.
    exact (Hfix n file issues fs r q Hr Hq).
  - unfold fix_cost; simpl. lra.
  - intros eventName data w Hh (H1 & H2 & H3 & H4 & H5).
    destruct (emit_costs eventName data w (dash_total w) H3 H4)
      as (E1 & E2 & E3 & E4 & E5);
      [by apply harmless_totalCost | lra |].
    unfold costs_in_step. rewrite E1, E2. split_and!; try done.
    destruct E5 as [-> | ->]; lra.
  - by intros w (H1 & H2 & H3 & H4 & H5).
  - by intros o w (H1 & H2 & H3 & H4 & H5).
  - by intros fs w (H1 & H2 & H3 & H4 & H5).
  - by intros fixed found w (H1 & H2 & H3 & H4 & H5).
  - intros r w Hr (H1 & H2 & H3 & H4 & H5).
    unfold cost_pending, add_cost, modify, dash_total in *; simpl.
    split_and!; try done.
    + apply Sorted_snoc with (x := totalCost (w_ctl w)); [done|done|lra].
    + by rewrite last_snoc.
    + lra.
  - by intros c fixed found w (H1 & H2 & H3 & H4 & H5 & H6).
  - intros c data w Hc (H1 & H2 & H3 & H4 & H5 & H6).
    destruct (emit_costs "detection_complete" data w
                (if Qeq_bool c 0 then dash_total w else dash_total w + c) H3 H4)
      as (E1 & E2 & E3 & E4 & E5).
    + by apply detection_complete_totalCost.
    + destruct (Qeq_bool c 0); lra.
    + unfold costs_in_step. rewrite E1, E2. split_and!; try done.
      destruct E5 as [-> | ->]; [destruct (Qeq_bool c 0)|]; lra.
  - intros data w Hd Hw. apply emit_catch_up; [|exact Hw].
    by rewrite cost_update_totalCost, Hd.
  - intros r w Hr Hw. by apply add_cost_in_step.
  - intros w Hw. apply add_cost_in_step; [lra | exact Hw].
  - intros data w Hd Hw. apply emit_catch_up; [|exact Hw].
    by rewrite cycle_complete_totalCost, Hd.
Qed.

Lemma costs_next_cycle (w : World) :
  costs_in_step w -> costs_in_step (next_cycle w).
Proof. by intros (H1 & H2 & H3 & H4 & H5). Qed.

Lemma costs_ralph_complete (data : EventData) (w : World) :
  d_totalCost data = Some (totalCost (w_ctl w)) ->
  costs_in_step w -> costs_in_step (emit env "ralph_complete" data w).2.
Proof.
  intros Hd Hw. apply emit_catch_up; [|exact Hw].
  by rewrite ralph_complete_totalCost, Hd.
Qed.

(** The process has just started: nothing was spent or published. *)
Definition fresh (w : World) : Prop :=
  totalCost (w_ctl w) = 0 /\ dash_total w = 0 /\
  w_costs w = [0] /\ w_dash_costs w = [0].

Lemma fresh_in_step (w : World) : fresh w -> costs_in_step w.
Proof.
  intros (H1 & H2 & H3 & H4). unfold costs_in_step.
  rewrite H1, H2, H3, H4. split_and!; try done; try lra;
    repeat constructor.
Qed.

Lemma ralph_started_in_step (data : EventData) (w : World) :
  fresh w -> costs_in_step (emit env "ralph_started" data w).2.
Proof.
  intros (H1 & H2 & H3 & H4).
  unfold costs_in_step, emit, modify, dash_total in *; simpl.
  destruct (dashboard env); simpl.
  - rewrite emitEvent_state, H1, H3, H4. unfold Dashboard.updateRalphState.
    rewrite decide_True by reflexivity. simpl.
    split_and!; try done; try lra; repeat constructor; lra.
  - rewrite H1, H2, H3, H4. split_and!; try done; try lra; repeat constructor.
Qed.

Lemma runRalphMode_in_step (files : list string) (fs : Files) :
  costs_nonneg ->
  costs_in_step (runRalphMode env cfg files (initialWorld fs)).2.
Proof.
  intros Hcosts.
  assert (total (fun w => w = initialWorld fs) (runRalphMode env cfg files)
            (fun _ w => costs_in_step w)) as Ht.
  { unfold runRalphMode.
    eapply total_bind with (R1 := fun _ w => w = initialWorld fs);
      [by apply total_gets|]. intros t.
    eapply total_bind with (R1 := fun _ w => fresh w).
    { apply total_modify. intros w ->. by split_and!. }
    intros ?.
    eapply total_bind with (R1 := fun _ w => fresh w).
    { destruct (dashboard env && dashboardEnabled cfg);
        [|by apply total_ret].
      apply total_modify. intros w (H1 & H2 & H3 & H4).
      unfold fresh, dash_total in *; simpl. split_and!; try done.
      unfold Dashboard.startDashboard; simpl.
      by destruct (Dashboard.isRunning (w_dash w)). }
    intros ?.
    destruct (length files =? 0)%nat.
    { apply total_ret. intros w. apply fresh_in_step. }
    eapply total_bind with (R1 := fun _ w => costs_in_step w).
    { intros w Hw. exists tt. split; [reflexivity|].
      by apply ralph_started_in_step. }
    intros ?.
    eapply total_bind with (R1 := fun _ w => costs_in_step w);
      [by apply total_gets|]. intros c.
    eapply mainLoop_keeps.
    - by apply inv_costs.
    - apply costs_next_cycle.
    - apply costs_ralph_complete. }
  destruct (Ht _ eq_refl) as (r & _ & H). exact H.
Qed.

(** C2: in a run of [runRalphMode] from a freshly started process, with
    an engine that never reports a negative cost, [totalCost] never
    decreases: the successive values the script assigns to its
    [ralphState.totalCost] (detection cost, fix cost, the 0.02
    verification estimate) form a non-decreasing sequence, and so do the
    successive values of the dashboard's [totalCost] under the events
    the run publishes ([ralph_started], [detection_complete],
    [cost_update], [cycle_complete], [ralph_complete] and all others).
    Both sequences end with the totals the run ends with. *)
Theorem totalCost_never_decreases (files : list string) (fs : Files) :
  costs_nonneg ->
  Sorted Qle (w_costs (runRalphMode env cfg files (initialWorld fs)).2) /\
  last (w_costs (runRalphMode env cfg files (initialWorld fs)).2)
  = Some (totalCost (w_ctl (runRalphMode env cfg files (initialWorld fs)).2)) /\
  Sorted Qle (w_dash_costs (runRalphMode env cfg files (initialWorld fs)).2) /\
  last (w_dash_costs (runRalphMode env cfg files (initialWorld fs)).2)
  = Some (dash_total (runRalphMode env cfg files (initialWorld fs)).2).
Proof.
  intros Hcosts.
  destruct (runRalphMode_in_step files fs Hcosts) as (H1 & H2 & H3 & H4 & _).
  by split_and!.
Qed.

End CostFacts.

(** * The main loop, one iteration at a time *)

Section LoopFacts.
Import Watcher.
Local Open Scope js_scope.

Variable env : Env.
Variable cfg : Config.

(** The loop test [cycle < maxCycles && !stopped]. *)
Definition loop_guard (c : Ctl) : bool :=
  lt_number (cycle c) (maxCycles cfg) && negb (stopped c).

(** The world after the optional [budget_warning] event. *)
Definition warned (w : World) : World :=
  if Qle_bool (budgetWarning cfg) (totalCost (w_ctl w))
     && (1 <? cycle (w_ctl w))%Z
  then (emit env "budget_warning"
          [FNumber "currentCost" (totalCost (w_ctl w));
           FNumber "warningThreshold" (budgetWarning cfg)] w).2
  else w.

(** The world after the optional 2 s pause between cycles. *)
Definition paused (w : World) : World :=
  if negb (stopped (w_ctl w)) && lt_number (cycle (w_ctl w)) (maxCycles cfg)
  then (sleep env 2000 w).2
  else w.

Lemma mainLoop_unfold (fuel : nat) (files : list string) (w : World) :
  mainLoop env cfg (S fuel) files w
  = if loop_guard (w_ctl w) then
      if Qle_bool (budgetHard cfg) (totalCost (w_ctl w))
      then finishStopped env w
      else
        match runRalphCycle env cfg files (warned w) with
        | (Returned r, w2) =>
            if complete r then finishComplete env r w2
            else mainLoop env cfg fuel files (paused w2)
        | (Threw e, w2) => (Threw e, w2)
        end
    else finishStopped env w.
Proof.
  unfold loop_guard, warned, paused.
  cbn [mainLoop]. unfold bind, ctl, gets, ret.
  destruct (lt_number (cycle (w_ctl w)) (maxCycles cfg) && negb (stopped (w_ctl w)));
    [|reflexivity].
  destruct (Qle_bool (budgetHard cfg) (totalCost (w_ctl w))); [reflexivity|].
  destruct (Qle_bool (budgetWarning cfg) (totalCost (w_ctl w))
            && (1 <? cycle (w_ctl w))%Z).
  - unfold emit, modify. cbn [fst snd].
    match goal with
    | |- context [runRalphCycle env cfg files ?w1] =>
        destruct (runRalphCycle env cfg files w1) as [[r|e] w2]
    end; [|reflexivity].
    destruct (complete r); [reflexivity|].
    destruct (negb (stopped (w_ctl w2)) && lt_number (cycle (w_ctl w2)) (maxCycles cfg));
      reflexivity.
  - destruct (runRalphCycle env cfg files w) as [[r|e] w2]; [|reflexivity].
    destruct (complete r); [reflexivity|].
    destruct (negb (stopped (w_ctl w2)) && lt_number (cycle (w_ctl w2)) (maxCycles cfg));
      reflexivity.
Qed.


Lemma finishStopped_result (w : World) :
  (finishStopped env w).1
  = Returned (RunEnded "stopped"
      (Some (if stopped (w_ctl w) then "User interrupted"
             else "Max cycles reached")) None).
Proof. reflexivity. Qed.

(** [finishStopped] publishes the summary and does nothing else: no
    process is spawned, no file or counter changes. *)
Lemma finishStopped_world (w : World) :
  w_ctl (finishStopped env w).2 = w_ctl w /\
  w_fs (finishStopped env w).2 = w_fs w /\
  w_ticks (finishStopped env w).2 = w_ticks w /\
  w_costs (finishStopped env w).2 = w_costs w /\
  exists published,
    w_trace (finishStopped env w).2 = w_trace w ++ published /\
    forall o, o ∈ published ->
      exists data, o = Emitted "ralph_complete" data /\
                   d_status data = Some "stopped".
Proof.
  unfold finishStopped, bind, ctl, now, gets, emit, modify, ret; simpl.
  destruct (dashboard env); simpl; split_and!; try reflexivity.
  - eexists. split; [reflexivity|]. intros o Ho.
    apply list_elem_of_singleton in Ho as ->. eexists. by split.
  - exists []. split; [by rewrite app_nil_r|]. intros o Ho.
    by apply elem_of_nil in Ho.
Qed.





(** ** The hard budget *)

(** The same configuration with other budget thresholds. *)
Definition with_budget (warning hard : Q) (c : Config) : Config :=
  {| maxCycles := maxCycles c; budgetWarning := warning; budgetHard := hard;
     backupFiles := backupFiles c; verifyAfterFix := verifyAfterFix c;
     safePatterns := safePatterns c; dashboardEnabled := dashboardEnabled c |}.

Lemma runRalphCycle_ignores_budget (warning hard : Q) (files : list string)
    (w : World) :
  runRalphCycle env (with_budget warning hard cfg) files w
  = runRalphCycle env cfg files w.
Proof. reflexivity. Qed.

Lemma paused_totalCost (w : World) :
  totalCost (w_ctl (paused w)) = totalCost (w_ctl w).
Proof.
  unfold paused.
  by destruct (negb (stopped (w_ctl w)) && lt_number (cycle (w_ctl w)) (maxCycles cfg)).
Qed.

Lemma mainLoop_guard_false (fuel : nat) (files : list string) (w : World) :
  loop_guard (w_ctl w) = false ->
  mainLoop env cfg fuel files w = finishStopped env w.
Proof.
  intros Hguard. destruct fuel as [|fuel].
  - unfold loop_guard in Hguard. cbn [mainLoop]. unfold bind, ctl, gets.
    by rewrite Hguard.
  - by rewrite mainLoop_unfold, Hguard.
Qed.

(** C3: the hard budget is compared with [totalCost] at the top of the
    main loop and nowhere else.  (1) When [totalCost >= budgetHard]
    there, the loop ends at once in the stopped outcome: the run's
    status is [stopped], the cycle counter, the clock and the files are
    as they were, and all that happens is the publication of the
    [ralph_complete] summary: no detection or fix process is started.
    (2) When a cycle (started below the limit) leaves [totalCost] at or
    above [budgetHard], the run ends right after that cycle, complete if
    the cycle found nothing to fix and stopped otherwise, and no further
    cycle starts.  (3) A cycle runs the same whatever the budget
    thresholds are: the budget never ends a cycle midway. *)
Theorem budget_checked_between_cycles :
  (forall (fuel : nat) (files : list string) (w : World),
      (budgetHard cfg <= totalCost (w_ctl w))%Q ->
      mainLoop env cfg (S fuel) files w = finishStopped env w /\
      (exists why,
          (mainLoop env cfg (S fuel) files w).1
          = Returned (RunEnded "stopped" why None)) /\
      cycle (w_ctl (mainLoop env cfg (S fuel) files w).2) = cycle (w_ctl w) /\
      w_ticks (mainLoop env cfg (S fuel) files w).2 = w_ticks w /\
      w_fs (mainLoop env cfg (S fuel) files w).2 = w_fs w /\
      exists published,
        w_trace (mainLoop env cfg (S fuel) files w).2 = w_trace w ++ published /\
        forall o, o ∈ published ->
          exists data, o = Emitted "ralph_complete" data /\
                       d_status data = Some "stopped") /\
  (forall (fuel : nat) (files : list string) (w w2 : World) (r : CycleResult),
      loop_guard (w_ctl w) = true ->
      ~ (budgetHard cfg <= totalCost (w_ctl w))%Q ->
      runRalphCycle env cfg files (warned w) = (Returned r, w2) ->
      (budgetHard cfg <= totalCost (w_ctl w2))%Q ->
      mainLoop env cfg (S (S fuel)) files w
      = if complete r then finishComplete env r w2
        else finishStopped env (paused w2)) /\
  (forall (warning hard : Q) (files : list string) (w : World),
      runRalphCycle env (with_budget warning hard cfg) files w
      = runRalphCycle env cfg files w).
Proof.
  assert (forall fuel files w,
             (budgetHard cfg <= totalCost (w_ctl w))%Q ->
             mainLoop env cfg (S fuel) files w = finishStopped env w) as Hstop.
  { intros fuel files w Hle. rewrite mainLoop_unfold.
    apply Qle_bool_iff in Hle. rewrite Hle.
    by destruct (loop_guard (w_ctl w)). }
  split_and!.
  - intros fuel files w Hle. rewrite (Hstop fuel files w Hle).
    destruct (finishStopped_world w) as (H1 & H2 & H3 & _ & H4).
    split_and!; try done.
    + eexists. apply finishStopped_result.
    + by rewrite H1.
  - intros fuel files w w2 r Hguard Hbelow Hrun Hover.
    rewrite mainLoop_unfold, Hguard, Hrun.
    destruct (Qle_bool (budgetHard cfg) (totalCost (w_ctl w))) eqn:Hb;
      [by apply Qle_bool_iff in Hb|].
    destruct (complete r); [reflexivity|].
    apply Hstop. by rewrite paused_totalCost.
  - intros warning hard files w. apply runRalphCycle_ignores_budget.
Qed.

(** ** Bounded looping *)

(** The simulated reviewer of the scenario: every detection pass
    succeeds and reports exactly one issue, on file [a.ts], that passes
    the auto-fixable test. *)
Definition always_one_issue : Prop :=
  forall n files fs, exists r i,
    review_process env n files fs = inl r /\
    r_issues r = Some [i] /\ i_file i = "a.ts" /\
    inferAutoFixable cfg i = true.

Lemma detection_first_try (files : list string) (w : World) (r : ReviewResult) :
  review_process env (w_ticks w) files (w_fs w) = inl r ->
  detection env files w = Returned r.
Proof.
  intros Hr. unfold detection, executeClaudeReviewWithRetry, withRetry.
  rewrite retry_loop_step. unfold executeClaudeReview. by rewrite Hr.
Qed.

(** What the scenario's run keeps: the cycle counter between two
    increments, a clear stop flag, and a history that ends with the
    current total and extends [l]. *)
Definition scenario_inv (k : Z) (l : list Q) (w : World) : Prop :=
  (cycle (w_ctl w) = k /\ stopped (w_ctl w) = false) /\
  (last (w_costs w) = Some (totalCost (w_ctl w)) /\ l `prefix_of` w_costs w).

Lemma inv_scenario (k : Z) (l : list Q) :
  (forall n, sigint env n = false) ->
  CycleInv env (scenario_inv k l) (fun _ => scenario_inv k l)
    (fun _ => (True /\ True) /\ (True /\ True))
    (fun _ => (True /\ True) /\ (True /\ True)).
Proof.
  intros Hsig. unfold scenario_inv.
  apply (inv_and env); apply (inv_and env).
  - apply inv_cycle.
  - by apply inv_not_stopped.
  - apply inv_last_cost.
  - apply inv_history.
Qed.

Lemma emit_script_state (eventName : string) (data : EventData) (w : World) :
  w_ctl (emit env eventName data w).2 = w_ctl w /\
  w_costs (emit env eventName data w).2 = w_costs w.
Proof. unfold emit, modify; simpl. by destruct (dashboard env). Qed.

Lemma scenario_emit (k : Z) (l : list Q) (eventName : string)
    (data : EventData) (w : World) :
  scenario_inv k l w -> scenario_inv k l (emit env eventName data w).2.
Proof.
  unfold scenario_inv.
  destruct (emit_script_state eventName data w) as [-> ->]. done.
Qed.

Lemma history_grows (fuel : nat) (files : list string) (w : World) :
  w_costs w `prefix_of` w_costs (mainLoop env cfg fuel files w).2.
Proof.
  destruct (mainLoop_keeps env cfg _ _ _ _ (inv_history env (w_costs w))
              (fun w' H => H)
              (fun data w' _ H =>
                 eq_ind_r (fun x => w_costs w `prefix_of` x) H
                   (proj2 (emit_script_state "ralph_complete" data w')))
              files fuel w (reflexivity _))
    as (r & _ & H).
  exact H.
Qed.

(** An integer is below a number exactly when it is below the least
    integer that is not below the number. *)
Lemma lt_number_ceiling (n : Z) (m : Q) :
  lt_number n m = (n <? Qceiling m)%Z.
Proof.
  unfold lt_number. destruct (Qle_bool m (inject_Z n)) eqn:Hle; simpl; symmetry.
  - apply Qle_bool_iff in Hle. apply Z.ltb_ge.
    rewrite <- (Qceiling_Z n). by apply Qceiling_resp_le.
  - apply Z.ltb_lt. rewrite Zlt_Qlt.
    apply Qlt_le_trans with m; [|apply Qle_ceiling].
    apply Qnot_le_lt. intros H. apply Qle_bool_iff in H. congruence.
Qed.

(** With the scenario's reviewer, no Ctrl+C and a total cost that stays
    below the hard budget all along, the main loop runs until the cycle
    counter reaches [maxCycles], rounded up, and ends stopped. *)
Lemma mainLoop_runs_to_maxCycles (files : list string) (fuel : nat) :
  (forall n, sigint env n = false) ->
  always_one_issue ->
  forall w : World,
    stopped (w_ctl w) = false ->
    last (w_costs w) = Some (totalCost (w_ctl w)) ->
    (cycle (w_ctl w) <= Qceiling (maxCycles cfg))%Z ->
    (Qceiling (maxCycles cfg) - cycle (w_ctl w) <= Z.of_nat fuel)%Z ->
    Forall (fun q => (q < budgetHard cfg)%Q)
           (w_costs (mainLoop env cfg fuel files w).2) ->
    (mainLoop env cfg fuel files w).1
    = Returned (RunEnded "stopped" (Some "Max cycles reached") None) /\
    cycle (w_ctl (mainLoop env cfg fuel files w).2) = Qceiling (maxCycles cfg).
Proof.
  intros Hsig Hone.
  induction fuel as [|fuel IH]; intros w Hrun Hlast Hle Hfuel Hbudget.
  - assert (loop_guard (w_ctl w) = false) as Hguard.
    { unfold loop_guard. rewrite lt_number_ceiling.
      apply andb_false_iff. left. apply Z.ltb_ge. lia. }
    rewrite mainLoop_guard_false by exact Hguard.
    rewrite finishStopped_result, Hrun.
    destruct (finishStopped_world w) as (-> & _). split; [reflexivity | lia].
  - destruct (Z.eq_dec (cycle (w_ctl w)) (Qceiling (maxCycles cfg)))
      as [Heq|Hne].
    + assert (loop_guard (w_ctl w) = false) as Hguard.
      { unfold loop_guard. rewrite lt_number_ceiling.
      apply andb_false_iff. left. apply Z.ltb_ge. lia. }
      rewrite mainLoop_guard_false by exact Hguard.
      rewrite finishStopped_result, Hrun.
      destruct (finishStopped_world w) as (-> & _). by split.
    + assert (loop_guard (w_ctl w) = true) as Hguard.
      { unfold loop_guard. rewrite lt_number_ceiling, Hrun. cbn [negb].
        rewrite andb_true_r. apply Z.ltb_lt. lia. }
      assert (Qle_bool (budgetHard cfg) (totalCost (w_ctl w)) = false) as Hb.
      { destruct (Qle_bool (budgetHard cfg) (totalCost (w_ctl w))) eqn:Hq;
          [|reflexivity].
        apply Qle_bool_iff in Hq. exfalso.
        rewrite Forall_forall in Hbudget.
        assert (totalCost (w_ctl w) ∈ w_costs (mainLoop env cfg (S fuel) files w).2)
          as Hin.
        { apply (elem_of_prefix (w_costs w)); [|apply history_grows].
          apply last_Some_elem_of. exact Hlast. }
        specialize (Hbudget _ Hin). simpl in Hbudget. lra. }
      revert Hbudget. rewrite mainLoop_unfold, Hguard, Hb.
      (* the cycle *)
      pose (k := (cycle (w_ctl w) + 1)%Z).
      assert (scenario_inv k (w_costs w) (next_cycle (warned w))) as Hstart.
      { assert (scenario_inv (cycle (w_ctl w)) (w_costs w) (warned w)) as Hw.
        { unfold warned.
          destruct (Qle_bool (budgetWarning cfg) (totalCost (w_ctl w))
                    && (1 <? cycle (w_ctl w))%Z);
            [apply scenario_emit|]; by split_and!. }
        destruct Hw as ((Hc & Hs) & (Hl & Hp)).
        unfold scenario_inv, next_cycle; simpl. unfold k.
        rewrite Hc. by split_and!. }
      destruct (runRalphCycle_spec env cfg _ _ _ _ (inv_scenario k (w_costs w) Hsig)
                  files (warned w) Hstart) as (r & Hr & Hinv & Hout).
      destruct (Hone (w_ticks (warned w)) files (w_fs (warned w)))
        as (rr & i & Hproc & Hissues & _ & Hauto).
      rewrite (detection_first_try files (warned w) rr Hproc) in Hout.
      unfold cycle_outcome, countAutoFixable in Hout.
      rewrite Hissues in Hout. simpl in Hout. rewrite Hauto in Hout.
      simpl in Hout. destruct Hout as (fixedCount & ->).
      destruct (runRalphCycle env cfg files (warned w)) as [o w2].
      simpl in Hr, Hinv. subst o. simpl.
      destruct Hinv as ((Hk & Hrun2) & (Hlast2 & _)).
      assert (stopped (w_ctl (paused w2)) = false /\
              last (w_costs (paused w2)) = Some (totalCost (w_ctl (paused w2))) /\
              cycle (w_ctl (paused w2)) = k) as (Hp1 & Hp2 & Hp3).
      { unfold paused.
        destruct (negb (stopped (w_ctl w2)) && lt_number (cycle (w_ctl w2)) (maxCycles cfg));
          [|by split_and!].
        unfold sleep, modify, await_point, observe; simpl.
        rewrite Hsig, Hrun2. by split_and!. }
      intros Hbudget.
      destruct (IH (paused w2)) as [H1 H2]; try done; unfold k in *; lia.
Qed.

(** ** The whole run *)

(** The world after [runRalphMode] noted the start time and tried to
    start the dashboard server. *)
Definition prelude (w : World) : World :=
  let w1 := with_ctl (set_startTime (clock env (w_ticks w)) (w_ctl w)) w in
  if dashboard env && dashboardEnabled cfg then
    await_point env
      {| w_fs := w_fs w1; w_ticks := w_ticks w1; w_ctl := w_ctl w1;
         w_dash := Dashboard.startDashboard true (dashboard_listens env) (w_dash w1);
         w_trace := w_trace w1; w_costs := w_costs w1;
         w_dash_costs := w_dash_costs w1 |}
  else w1.

(** The world in which the main loop is entered. *)
Definition loop_entry (files : list string) (w : World) : World :=
  (emit env "ralph_started"
     [FMaxCycles (maxCycles cfg);
      FNumber "files" (inject_Z (Z.of_nat (length files)));
      FBudgetHard (budgetHard cfg)] (prelude w)).2.

Lemma runRalphMode_unfold (files : list string) (w : World) :
  runRalphMode env cfg files w
  = if (length files =? 0)%nat then (Returned NoFiles, prelude w)
    else mainLoop env cfg
           (Z.to_nat (Qceiling (maxCycles cfg)
                      - cycle (w_ctl (loop_entry files w))))
           files (loop_entry files w).
Proof.
  unfold runRalphMode, loop_entry, prelude, bind, now, gets, ret, ctl.
  unfold modify at 1 2. cbn [fst snd].
  destruct (dashboard env && dashboardEnabled cfg);
    destruct (length files =? 0)%nat; reflexivity.
Qed.

Lemma loop_entry_initial (files : list string) (fs : Files) :
  (forall n, sigint env n = false) ->
  cycle (w_ctl (loop_entry files (initialWorld fs))) = 0%Z /\
  stopped (w_ctl (loop_entry files (initialWorld fs))) = false /\
  last (w_costs (loop_entry files (initialWorld fs)))
  = Some (totalCost (w_ctl (loop_entry files (initialWorld fs)))).
Proof.
  intros Hsig. unfold loop_entry.
  destruct (emit_script_state "ralph_started"
              [FMaxCycles (maxCycles cfg);
               FNumber "files" (inject_Z (Z.of_nat (length files)));
               FBudgetHard (budgetHard cfg)] (prelude (initialWorld fs)))
    as [-> ->].
  unfold prelude. destruct (dashboard env && dashboardEnabled cfg); simpl;
    rewrite ?Hsig; by split_and!.
Qed.

(** The cycle counter after a cycle is one more than before. *)
Lemma runRalphCycle_counts (files : list string) (w : World) :
  cycle (w_ctl (runRalphCycle env cfg files w).2) = (cycle (w_ctl w) + 1)%Z.
Proof.
  destruct (runRalphCycle_spec env cfg _ _ _ _
              (inv_cycle env (cycle (w_ctl w) + 1)%Z) files w)
    as (r & _ & H & _); [reflexivity | exact H].
Qed.




(** C8: [maxCycles = 3], some files to scan, a reviewer that on every
    detection pass reports exactly one auto-fixable issue on [a.ts], no
    Ctrl+C, and a total cost that stays below the hard budget.  Started
    in a fresh process, the run ends with status [stopped] and reason
    "Max cycles reached", and the cycle counter, which every cycle
    increments exactly once, is then 3: three cycles ran and no
    fourth. *)
Theorem three_cycles_then_stopped (files : list string) (fs : Files) :
  maxCycles cfg = 3%Q ->
  files <> [] ->
  always_one_issue ->
  (forall n, sigint env n = false) ->
  Forall (fun q => (q < budgetHard cfg)%Q)
         (w_costs (runRalphMode env cfg files (initialWorld fs)).2) ->
  (runRalphMode env cfg files (initialWorld fs)).1
  = Returned (RunEnded "stopped" (Some "Max cycles reached") None) /\
  cycle (w_ctl (runRalphMode env cfg files (initialWorld fs)).2) = 3%Z /\
  (forall w, cycle (w_ctl (runRalphCycle env cfg files w).2)
             = (cycle (w_ctl w) + 1)%Z).
Proof.
  intros Hmax Hfiles Hone Hsig. rewrite runRalphMode_unfold.
  destruct files as [|f files]; [done|]. simpl length. cbn [Nat.eqb].
  destruct (loop_entry_initial (f :: files) fs Hsig) as (Hc & Hs & Hl).
  intros Hbudget.
  assert (Qceiling (maxCycles cfg) = 3%Z) as Hlimit by (by rewrite Hmax).
  destruct (mainLoop_runs_to_maxCycles (f :: files)
              (Z.to_nat (Qceiling (maxCycles cfg)
                         - cycle (w_ctl (loop_entry (f :: files) (initialWorld fs)))))
              Hsig Hone (loop_entry (f :: files) (initialWorld fs)))
    as [H1 H2]; try done; try lia.
  split_and!; [exact H1 | by rewrite H2 | apply runRalphCycle_counts].
Qed.

End LoopFacts.

(** * Containment of a failing fix *)

Section ContainmentFacts.
Import Watcher.
Local Open Scope js_scope.

Variable env : Env.
Variable cfg : Config.

Lemma append_length (a b : string) :
  String.length (a ++ b) = (String.length a + String.length b)%nat.
Proof. induction a as [|c a IH]; simpl; [reflexivity | by rewrite IH]. Qed.

Lemma backup_path_fresh (filePath : string) (timestamp : Z) :
  backup_path filePath timestamp <> filePath.
Proof.
  unfold backup_path. intros H.
  apply (f_equal String.length) in H.
  rewrite !append_length in H. simpl in H. lia.
Qed.

(** The file system after [if (backupPath) restoreFromBackup(file, backupPath)]. *)
Definition restored (file : string) (backupPath : option string) (w : World)
    : World :=
  match backupPath with
  | Some b => (restoreFromBackup file b w).2
  | None => w
  end.

(** The fix process touches no file but the one it is asked to fix. *)
Definition fix_edits_only (file : string) : Prop :=
  forall n issues fs p,
    p <> file -> (fix_process env n file issues fs).2 !! p = fs !! p.



Lemma backup_survives (file b content : string) (issues : list Issue)
    (w : World) :
  fix_edits_only file -> b <> file ->
  w_fs w !! b = Some content ->
  w_fs (executeClaudeFixWithRetry env cfg file issues w).2 !! b = Some content.
Proof.
  intros Hedit Hb Hw.
  apply (withRetry_keeps env (fun w => w_fs w !! b = Some content)
           (fun _ _ H => H) (fun _ : FixResult => True)
           (executeClaudeFix env cfg file issues) 3 1000); [|lia|exact Hw].
  intros w0 H0. unfold executeClaudeFix.
  destruct (length (List.filter (inferAutoFixable cfg) issues) =? 0)%nat;
    [by split|].
  pose proof (Hedit (w_ticks w0) (List.filter (inferAutoFixable cfg) issues)
                (w_fs w0) b Hb) as Hkeep.
  destruct (fix_process env (w_ticks w0) file
              (List.filter (inferAutoFixable cfg) issues) (w_fs w0))
    as [[r|e'] fs]; simpl in *; (split; [congruence | done]).
Qed.


(** The world in which the [try] statement of the per-file loop starts:
    [fix_started] has been published and, when backups are on, the
    backup has been taken. *)
Definition transaction_start (issues : list Issue) (file : string) (w : World)
    : World :=
  let fileIssues := getAutoFixableForFile cfg issues file in
  let w1 := (emit env "fix_started"
               [FFile file;
                FNumber "issueCount" (inject_Z (Z.of_nat (length fileIssues)));
                FIssueIds (map issueId fileIssues)] w).2 in
  if backupFiles cfg then (backupFile env file w1).2 else w1.

(** The backup path the loop holds then. *)
Definition backup_taken (file : string) (w : World) : option string :=
  if backupFiles cfg then Some (backup_path file (clock env (w_ticks w)))
  else None.

Lemma emit_outside (eventName : string) (data : EventData) (w : World) :
  w_fs (emit env eventName data w).2 = w_fs w /\
  w_ticks (emit env eventName data w).2 = w_ticks w.
Proof. unfold emit, modify; simpl. by destruct (dashboard env). Qed.

Lemma bind_returned {A B} (m : M A) (k : A -> M B) (w w1 : World) (a : A) :
  m w = (Returned a, w1) -> bind m k w = k a w1.
Proof. intros H. unfold bind. by rewrite H. Qed.

Lemma emit_returns (eventName : string) (data : EventData) (w : World) :
  emit env eventName data w = (Returned tt, (emit env eventName data w).2).
Proof. reflexivity. Qed.

Lemma review_throws_error (files : list string) (w w1 : World) (e : Thrown) :
  executeClaudeReviewWithRetry env files w = (Threw e, w1) ->
  e <> UndefinedValue.
Proof.
  intros Hreview.
  pose proof (withRetry_keeps env (fun _ => True) (fun _ _ _ => Logic.I)
                (fun _ : ReviewResult => True)
                (executeClaudeReview env files) 3 1000) as H.
  unfold executeClaudeReviewWithRetry in Hreview.
  specialize (H (fun w _ => conj Logic.I
                   match (executeClaudeReview env files w).1 as o
                     return match o with Returned _ => True | Threw _ => True end
                   with Returned _ => Logic.I | Threw _ => Logic.I end)
                ltac:(lia) w Logic.I).
  rewrite Hreview in H. simpl in H. apply H.
Qed.

(** The number [verifyFix] compares with 0: the issues of the verifying
    detection that carry [autoFixable: true]. *)
Definition flagged_remaining (result : ReviewResult) : nat :=
  length (List.filter (fun i => bool_decide (i_autoFixable i = Some true))
                      (default [] (r_issues result))).

(** What [verifyFix] answers: the verdict on a detection that returns,
    and unverified, with the error's message, on one that throws. *)
Lemma verifyFix_answer (file : string) (w : World) :
  verifyFix env file w
  = match executeClaudeReviewWithRetry env [file] w with
    | (Returned result, w1) =>
        (Returned {| v_verified := (flagged_remaining result =? 0)%nat;
                     v_autoFixableRemaining := Some (flagged_remaining result);
                     v_error := None |}, w1)
    | (Threw e, w1) =>
        (Returned {| v_verified := false; v_autoFixableRemaining := None;
                     v_error := match e with
                                | ErrorObject m => m
                                | UndefinedValue => None
                                end |}, w1)
    end.
Proof.
  destruct (executeClaudeReviewWithRetry env [file] w) as [[result|e] w1]
    eqn:Hreview; unfold verifyFix, try_catch, bind; rewrite Hreview.
  - reflexivity.
  - pose proof (review_throws_error _ _ _ _ Hreview) as He.
    by destruct e.
Qed.

(** The world in which verification starts: the fix call has returned
    [r] in [w1] and its cost has been added. *)
Definition verification_start (r : FixResult) (w1 : World) : World :=
  (add_cost (js_or_Q (f_cost r) 0) w1).2.

(** What the transaction does once [verifyFix] has answered [v]. *)
Lemma fixTransaction_verifies (file : string) (fileIssues : list Issue)
    (issueIds : list string) (backupPath : option string) (fixedCount : Z)
    (w w1 w2 : World) (r : FixResult) (v : Verification) :
  executeClaudeFixWithRetry env cfg file fileIssues w = (Returned r, w1) ->
  f_fixed r = true ->
  verifyAfterFix cfg = true ->
  verifyFix env file (verification_start r w1) = (Returned v, w2) ->
  fixTransaction env cfg file fileIssues issueIds backupPath fixedCount w
  = (if v_verified v
     then
       (add_fixed (Z.of_nat (length fileIssues)) ;;
        when_backup backupPath cleanupBackup ;;
        emit env "verification_result" (verification_data file true false) ;;
        emit env "fix_complete" (fix_complete_data file true issueIds []) ;;
        ret (fixedCount + Z.of_nat (length fileIssues))%Z)
     else
       (when_backup backupPath (restoreFromBackup file) ;;
        emit env "verification_result" (verification_data file false true) ;;
        emit env "fix_complete" (fix_complete_data file false [] issueIds) ;;
        ret fixedCount))
      (add_cost 0.02 w2).2.
Proof.
  intros Hfix Hfixed Hverify Hvf.
  unfold fixTransaction, try_catch.
  rewrite (bind_returned _ _ _ _ _ Hfix).
  rewrite (bind_returned _ _ _ _ _
             (eq_refl : add_cost (js_or_Q (f_cost r) 0) w1
                        = (Returned tt, verification_start r w1))).
  rewrite Hfixed, Hverify.
  rewrite (bind_returned _ _ _ _ _ Hvf).
  rewrite (bind_returned _ _ _ _ _
             (eq_refl : add_cost 0.02 w2
                        = (Returned tt, (add_cost 0.02 w2).2))).
  destruct (v_verified v), backupPath as [b|]; unfold when_backup;
    unfold add_fixed, cleanupBackup, restoreFromBackup, emit, bind, modify, ret;
    cbn [fst snd];
    repeat match goal with
           | |- context [copyFileSync ?a ?b ?c] => destruct (copyFileSync a b c)
           end; reflexivity.
Qed.

Lemma backupFile_taken (file content : string) (w : World) :
  w_fs w !! file = Some content ->
  backupFile env file w
  = (Returned (Some (backup_path file (clock env (w_ticks w)))),
     with_fs (<[backup_path file (clock env (w_ticks w)) := content]> (w_fs w)) w).
Proof. intros H. unfold backupFile, copyFileSync. by rewrite H. Qed.

Lemma fileIteration_unfold (issues : list Issue) (file content : string)
    (fixedCount : Z) (w : World) :
  getAutoFixableForFile cfg issues file <> [] ->
  w_fs w !! file = Some content ->
  fileIteration env cfg issues file fixedCount w
  = match fixTransaction env cfg file (getAutoFixableForFile cfg issues file)
            (map issueId (getAutoFixableForFile cfg issues file))
            (backup_taken file w) fixedCount (transaction_start issues file w)
    with
    | (Returned n, w') => (Returned (ReachedEnd n), w')
    | (Threw e, w') => (Threw e, w')
    end.
Proof.
  intros Hsome Hfile.
  unfold fileIteration, transaction_start, backup_taken.
  assert ((length (getAutoFixableForFile cfg issues file) =? 0)%nat = false)
    as ->.
  { apply Nat.eqb_neq. by destruct (getAutoFixableForFile cfg issues file). }
  rewrite (bind_returned _ _ _ _ _ (emit_returns _ _ _)).
  destruct (emit_outside "fix_started"
              [FFile file;
               FNumber "issueCount"
                 (inject_Z (Z.of_nat (length (getAutoFixableForFile cfg issues file))));
               FIssueIds (map issueId (getAutoFixableForFile cfg issues file))] w)
    as [Hfs Hticks].
  destruct (backupFiles cfg).
  - rewrite (bind_returned _ _ _ _ _
               (backupFile_taken file content _ ltac:(by rewrite Hfs))).
    rewrite (backupFile_taken file content _ ltac:(by rewrite Hfs)).
    rewrite Hticks. cbn [andb negb snd]. rewrite bool_decide_true by eauto.
    cbn [negb]. unfold bind at 1.
    destruct (fixTransaction env cfg file _ _ _ fixedCount _)
      as [[n|e] w']; reflexivity.
  - rewrite (bind_returned _ _ _ _ _ (eq_refl : ret None _ = _)).
    cbn [andb]. unfold bind at 1.
    destruct (fixTransaction env cfg file _ _ _ fixedCount _)
      as [[n|e] w']; reflexivity.
Qed.

(** The verifying detection reads files and writes none, and
    [verifyFix] always answers: a failing detection is an unverified
    fix. *)
Lemma verifyFix_reads_only (file : string) (w : World) :
  (exists v, (verifyFix env file w).1 = Returned v) /\
  w_fs (verifyFix env file w).2 = w_fs w.
Proof.
  pose proof (withRetry_keeps env (fun w' => w_fs w' = w_fs w)
                (fun _ _ H => H) (fun _ : ReviewResult => True)
                (executeClaudeReview env [file]) 3 1000) as H.
  assert (hoare (fun w' => w_fs w' = w_fs w) (executeClaudeReview env [file])
            (fun o w' => w_fs w' = w_fs w /\
               match o with Returned _ => True | Threw _ => True end)) as Hcall.
  { intros w0 H0. unfold executeClaudeReview.
    destruct (review_process env (w_ticks w0) [file] (w_fs w0));
      simpl; by split. }
  specialize (H Hcall ltac:(lia) w eq_refl).
  unfold verifyFix, try_catch, bind.
  fold (executeClaudeReviewWithRetry env [file]).
  unfold executeClaudeReviewWithRetry.
  destruct (withRetry env (executeClaudeReview env [file]) 3 1000 w)
    as [[r|e] w1]; simpl in *; destruct H as [Hfs He].
  - split; [eauto | exact Hfs].
  - destruct e as [m|]; [|done]. simpl. split; [eauto | exact Hfs].
Qed.





(** ** Verification and rollback *)

(** X1: the verify and roll back branch of a transaction.  Let backups and
    verification be on, let the file exist and have auto-fixable issues,
    let the fix process edit no other file, and let the fix call return
    with [fixed: true].  Then [verifyFix] answers: unverified when its
    detection throws (after all retries), and otherwise verified exactly
    when the detection reports no issue flagged [autoFixable: true]; and
    - if it answers unverified, the iteration ends with the counter of
      fixed issues unchanged, the file has the content it had before the
      transaction, and the backup is gone;
    - if it answers verified, the counter grows by the number of the
      file's issues, the file is as the fix process left it, and the
      backup is gone. *)
Theorem verification_commits_or_rolls_back (issues : list Issue)
    (file content : string) (fixedCount : Z) (w w1 : World) (r : FixResult) :
  getAutoFixableForFile cfg issues file <> [] ->
  w_fs w !! file = Some content ->
  backupFiles cfg = true ->
  verifyAfterFix cfg = true ->
  fix_edits_only file ->
  executeClaudeFixWithRetry env cfg file
    (getAutoFixableForFile cfg issues file)
    (transaction_start issues file w) = (Returned r, w1) ->
  f_fixed r = true ->
  exists v,
    (verifyFix env file (verification_start r w1)).1 = Returned v /\
    (forall e,
       (executeClaudeReviewWithRetry env [file] (verification_start r w1)).1
       = Threw e ->
       v_verified v = false) /\
    (forall d,
       (executeClaudeReviewWithRetry env [file] (verification_start r w1)).1
       = Returned d ->
       v_verified v = (flagged_remaining d =? 0)%nat) /\
    (v_verified v = false ->
     (fileIteration env cfg issues file fixedCount w).1
     = Returned (ReachedEnd fixedCount) /\
     w_fs (fileIteration env cfg issues file fixedCount w).2 !! file
     = Some content /\
     w_fs (fileIteration env cfg issues file fixedCount w).2
       !! backup_path file (clock env (w_ticks w)) = None) /\
    (v_verified v = true ->
     (fileIteration env cfg issues file fixedCount w).1
     = Returned (ReachedEnd
         (fixedCount
          + Z.of_nat (length (getAutoFixableForFile cfg issues file)))) /\
     w_fs (fileIteration env cfg issues file fixedCount w).2 !! file
     = w_fs w1 !! file /\
     w_fs (fileIteration env cfg issues file fixedCount w).2
       !! backup_path file (clock env (w_ticks w)) = None).
Proof.
  intros Hsome Hfile Hbackup Hverify Hedit Hfix Hfixed.
  destruct (verifyFix_reads_only file (verification_start r w1))
    as [[v Hv] Hfs].
  exists v. split; [exact Hv|].
  split.
  { intros e He. pose proof (verifyFix_answer file (verification_start r w1)) as Ha.
    destruct (executeClaudeReviewWithRetry env [file] (verification_start r w1))
      as [o w2]. simpl in He. subst o.
    rewrite Ha in Hv. simpl in Hv. by injection Hv as <-. }
  split.
  { intros d Hd. pose proof (verifyFix_answer file (verification_start r w1)) as Ha.
    destruct (executeClaudeReviewWithRetry env [file] (verification_start r w1))
      as [o w2]. simpl in Hd. subst o.
    rewrite Ha in Hv. simpl in Hv. by injection Hv as <-. }
  assert (w_fs w1 !! backup_path file (clock env (w_ticks w)) = Some content)
    as Hkept.
  { replace w1 with (executeClaudeFixWithRetry env cfg file
                       (getAutoFixableForFile cfg issues file)
                       (transaction_start issues file w)).2
      by (by rewrite Hfix).
    apply backup_survives; [exact Hedit | apply backup_path_fresh|].
    unfold transaction_start. rewrite Hbackup.
    destruct (emit_outside "fix_started"
                [FFile file;
                 FNumber "issueCount"
                   (inject_Z (Z.of_nat (length (getAutoFixableForFile cfg issues file))));
                 FIssueIds (map issueId (getAutoFixableForFile cfg issues file))] w)
      as [Hfs0 Hticks].
    rewrite (backupFile_taken file content _ ltac:(by rewrite Hfs0)).
    cbn [snd with_fs w_fs]. rewrite Hticks. apply lookup_insert_eq. }
  pose proof (fileIteration_unfold issues file content fixedCount w Hsome Hfile)
    as Hit.
  assert (fixTransaction env cfg file (getAutoFixableForFile cfg issues file)
            (map issueId (getAutoFixableForFile cfg issues file))
            (backup_taken file w) fixedCount (transaction_start issues file w)
          = (if v_verified v
             then
               (add_fixed (Z.of_nat (length (getAutoFixableForFile cfg issues file))) ;;
                when_backup (backup_taken file w) cleanupBackup ;;
                emit env "verification_result" (verification_data file true false) ;;
                emit env "fix_complete"
                  (fix_complete_data file true
                     (map issueId (getAutoFixableForFile cfg issues file)) []) ;;
                ret (fixedCount
                     + Z.of_nat (length (getAutoFixableForFile cfg issues file)))%Z)
             else
               (when_backup (backup_taken file w) (restoreFromBackup file) ;;
                emit env "verification_result" (verification_data file false true) ;;
                emit env "fix_complete"
                  (fix_complete_data file false []
                     (map issueId (getAutoFixableForFile cfg issues file))) ;;
                ret fixedCount))
              (add_cost 0.02 (verifyFix env file (verification_start r w1)).2).2)
    as Htx.
  { destruct (verifyFix env file (verification_start r w1))
      as [o w2] eqn:Hvf. simpl in Hv. subst o.
    exact (fixTransaction_verifies _ _ _ _ _ _ _ _ _ _ Hfix Hfixed Hverify Hvf). }
  rewrite Htx in Hit. clear Htx.
  assert (w_fs (add_cost 0.02 (verifyFix env file (verification_start r w1)).2).2
          = w_fs w1) as Hsame.
  { cbn [add_cost modify snd w_fs]. by rewrite Hfs. }
  unfold backup_taken in Hit. rewrite Hbackup in Hit.
  revert Hit Hsame.
  generalize (add_cost 0.02 (verifyFix env file (verification_start r w1)).2).2.
  intros w3 Hit Hsame.
  split; intros Hvv; rewrite Hvv in Hit; rewrite Hit; clear Hit.
  - unfold when_backup, restoreFromBackup, bind, copyFileSync.
    rewrite Hsame, Hkept. unfold emit, modify, ret. cbn [fst snd].
    destruct (dashboard env); cbn [w_fs with_fs];
      (split_and!;
       [reflexivity
       | rewrite lookup_delete_ne by apply backup_path_fresh;
         apply lookup_insert_eq
       | apply lookup_delete_eq]).
  - unfold when_backup, add_fixed, cleanupBackup, emit, bind, modify, ret.
    cbn [fst snd].
    destruct (dashboard env); cbn [w_fs with_fs with_ctl];
      rewrite ?Hsame;
      (split_and!;
       [reflexivity
       | apply lookup_delete_ne, backup_path_fresh
       | apply lookup_delete_eq]).
Qed.

End ContainmentFacts.

(** * Bounds on what a run does *)

Section BoundFacts.
Import Watcher.
Local Open Scope js_scope.

Variable env : Env.
Variable cfg : Config.




End BoundFacts.

Section EffortFacts.
Import Watcher.
Local Open Scope js_scope.

Variable env : Env.
Variable cfg : Config.













End EffortFacts.

Section SummaryFacts.
Import Watcher Summary.

(** ** Sets of strings as JavaScript iterates them *)

Lemma set_of_list_from (acc xs : list string) :
  NoDup acc ->
  exists r,
    foldl (fun acc x => if decide (x ∈ acc) then acc else acc ++ [x]) acc xs
    = acc ++ r /\
    NoDup (acc ++ r) /\ r `sublist_of` xs /\
    (forall x, x ∈ xs -> x ∈ acc ++ r).
Proof.
  revert acc. induction xs as [|x xs IH]; intros acc Hacc; simpl.
  - exists []. rewrite app_nil_r. split_and!; [done|done|done|].
    intros x Hx. by apply elem_of_nil in Hx.
  - destruct (decide (x ∈ acc)) as [Hin|Hout].
    + destruct (IH acc Hacc) as (r & -> & Hnd & Hsub & Hall).
      exists r. split_and!; [done|done|by apply sublist_cons|].
      intros y Hy. apply elem_of_cons in Hy as [->|Hy]; [|by apply Hall].
      apply elem_of_app. by left.
    + assert (NoDup (acc ++ [x])) as Hacc'.
      { apply NoDup_app. split_and!; [done| |apply NoDup_singleton].
        intros y Hy Hy'. apply list_elem_of_singleton in Hy'. by subst. }
      destruct (IH (acc ++ [x]) Hacc') as (r & -> & Hnd & Hsub & Hall).
      exists (x :: r). rewrite <- app_assoc in *. simpl in *.
      split_and!; [done|done|by apply sublist_skip|].
      intros y Hy. apply elem_of_cons in Hy as [->|Hy]; [|by apply Hall].
      apply elem_of_app. right. by left.
Qed.

Lemma set_of_list_spec (xs : list string) :
  NoDup (set_of_list xs) /\
  set_of_list xs `sublist_of` xs /\
  (forall x, x ∈ set_of_list xs <-> x ∈ xs).
Proof.
  unfold set_of_list.
  destruct (set_of_list_from [] xs (NoDup_nil_2)) as (r & -> & Hnd & Hsub & Hall).
  simpl in *. split_and!; [done|done|].
  intros x. split; [|apply Hall].
  intros Hx. eapply sublist_subseteq; [exact Hsub | exact Hx].
Qed.

(** X7: the files a report lists.  [getFilesWithIssues] names every file
    that has an issue exactly once, in an order in which the issues
    mention them, and never an empty name. *)
Theorem getFilesWithIssues_lists_each_file_once (issues : list Issue) :
  NoDup (getFilesWithIssues issues) /\
  getFilesWithIssues issues `sublist_of` map i_file issues /\
  (forall f, f ∈ getFilesWithIssues issues <->
             f <> "" /\ exists i, i ∈ issues /\ i_file i = f).
Proof.
  unfold getFilesWithIssues.
  destruct (set_of_list_spec
              (List.filter (fun f => negb (bool_decide (f = "")))
                           (map i_file issues))) as (Hnd & Hsub & Hin).
  split_and!; [exact Hnd| |].
  - etrans; [exact Hsub|].
    clear. induction (map i_file issues) as [|f l IH]; simpl; [done|].
    destruct (negb (bool_decide (f = ""))); [by apply sublist_skip|by apply sublist_cons].
  - intros f. rewrite Hin, list_elem_of_In, List.filter_In, <- list_elem_of_In.
    rewrite negb_true_iff, bool_decide_eq_false, list_elem_of_fmap.
    split.
    + intros [(i & -> & Hi) Hne]. split; [done|]. by exists i.
    + intros [Hne (i & Hi & <-)]. split; [by exists i | done].
Qed.

(** ** Severity counters *)

Definition lowered_severity (i : Issue) : string :=
  toLowerCase (if decide (i_severity i = "") then "medium" else i_severity i).

Definition is_severity (s : string) (i : Issue) : bool :=
  bool_decide (lowered_severity i = s).

Definition other_severity (i : Issue) : bool :=
  bool_decide (lowered_severity i ∉ ["critical"; "high"] ++ inherited_lower).

Lemma count_severity_spec (c : SeverityCounts) (i : Issue) :
  critical (count_severity c i)
  = (critical c + (if is_severity "critical" i then 1 else 0))%nat /\
  high (count_severity c i)
  = (high c + (if is_severity "high" i then 1 else 0))%nat /\
  medium (count_severity c i)
  = (medium c + (if other_severity i then 1 else 0))%nat.
Proof.
  unfold count_severity, is_severity, other_severity, lowered_severity,
    inherited_lower.
  generalize (toLowerCase (if decide (i_severity i = "") then "medium"
                           else i_severity i)).
  intros s.
  destruct (decide (s = "critical")) as [->|H1]; [simpl; lia|].
  destruct (decide (s = "high")) as [->|H2]; [simpl; lia|].
  rewrite !(bool_decide_false (s = "critical")) by done.
  rewrite !(bool_decide_false (s = "high")) by done.
  destruct (decide (s = "medium")) as [->|H3]; [simpl; lia|].
  destruct (decide (s ∈ ["constructor"; "__proto__"])) as [H4|H4].
  - split_and!; try lia. rewrite bool_decide_false; [lia | set_solver].
  - simpl. split_and!; try lia. rewrite bool_decide_true; [lia | set_solver].
Qed.

Lemma buildSeverityCounts_from (c : SeverityCounts) (issues : list Issue) :
  critical (foldl count_severity c issues)
  = (critical c + length (List.filter (is_severity "critical") issues))%nat /\
  high (foldl count_severity c issues)
  = (high c + length (List.filter (is_severity "high") issues))%nat /\
  medium (foldl count_severity c issues)
  = (medium c + length (List.filter other_severity issues))%nat.
Proof.
  revert c. induction issues as [|i issues IH]; intros c; simpl; [lia|].
  destruct (IH (count_severity c i)) as (-> & -> & ->).
  destruct (count_severity_spec c i) as (-> & -> & ->).
  destruct (is_severity "critical" i), (is_severity "high" i),
    (other_severity i); simpl; lia.
Qed.

(** X8: what the severity counters count.  [critical] and [high] count
    the issues of that severity, read without regard to letter case;
    every other issue is counted as [medium], a missing, [low] or unknown
    severity included, except an issue whose severity reads
    [constructor] or [__proto__], which no counter counts.  So the three
    counters add up to the number of issues whenever no severity reads
    so. *)
Theorem severity_counts_add_up (issues : list Issue) :
  critical (buildSeverityCounts issues)
  = length (List.filter (is_severity "critical") issues) /\
  high (buildSeverityCounts issues)
  = length (List.filter (is_severity "high") issues) /\
  medium (buildSeverityCounts issues)
  = length (List.filter other_severity issues) /\
  ((forall i, i ∈ issues -> lowered_severity i ∉ inherited_lower) ->
   (critical (buildSeverityCounts issues) + high (buildSeverityCounts issues)
    + medium (buildSeverityCounts issues))%nat = length issues).
Proof.
  unfold buildSeverityCounts.
  destruct (buildSeverityCounts_from {| critical := 0; high := 0; medium := 0 |}
              issues) as (-> & -> & ->). simpl.
  split_and!; try reflexivity.
  induction issues as [|i issues IH]; intros Hok; simpl; [reflexivity|].
  assert (lowered_severity i ∉ inherited_lower) as Hi by (apply Hok; by left).
  specialize (IH (fun j Hj => Hok j (proj2 (elem_of_cons _ _ _) (or_intror Hj)))).
  assert ((if is_severity "critical" i then 1 else 0)
          + (if is_severity "high" i then 1 else 0)
          + (if other_severity i then 1 else 0) = 1)%nat as Hone.
  { unfold is_severity, other_severity. revert Hi.
    generalize (lowered_severity i). intros s Hs.
    destruct (decide (s = "critical")) as [->|H1]; [reflexivity|].
    destruct (decide (s = "high")) as [->|H2]; [reflexivity|].
    rewrite !(bool_decide_false (s = _)) by done.
    rewrite bool_decide_true; [reflexivity | set_solver]. }
  destruct (is_severity "critical" i), (is_severity "high" i),
    (other_severity i); simpl in *; lia.
Qed.

(** ** Counters by issue type *)

Definition has_type (t : string) (i : Issue) : bool :=
  bool_decide (i_type i = t).

Lemma count_type_other (t : string) (c : gmap string Tally) (i : Issue) :
  i_type i <> t -> count_type c i !! t = c !! t.
Proof.
  intros Hne. unfold count_type.
  destruct (decide (i_type i = "")); [done|].
  destruct (decide (i_type i = "__proto__")); [done|].
  destruct (c !! i_type i) as [[k|name ones]|]; try case_decide;
    by rewrite lookup_insert_ne.
Qed.

Lemma count_type_same (t : string) (c : gmap string Tally) (i : Issue)
    (n : nat) :
  t <> "" -> t <> "__proto__" -> t ∉ inherited_functions ->
  i_type i = t ->
  c !! t = (if (n =? 0)%nat then None else Some (Count n)) ->
  count_type c i !! t = Some (Count (S n)).
Proof.
  intros H1 H2 H3 Hi Hc. unfold count_type. rewrite Hi.
  rewrite !decide_False by done.
  destruct n as [|n]; cbn [Nat.eqb] in Hc; rewrite Hc.
  - by rewrite lookup_insert_eq.
  - cbn [Nat.eqb]. by rewrite lookup_insert_eq.
Qed.

Lemma buildIssueTypeCounts_from (t : string) (issues : list Issue)
    (c : gmap string Tally) (n : nat) :
  t <> "" -> t <> "__proto__" -> t ∉ inherited_functions ->
  c !! t = (if (n =? 0)%nat then None else Some (Count n)) ->
  foldl count_type c issues !! t
  = (let m := (n + length (List.filter (has_type t) issues))%nat in
     if (m =? 0)%nat then None else Some (Count m)).
Proof.
  intros H1 H2 H3. revert c n.
  induction issues as [|i issues IH]; intros c n Hc; simpl.
  - by rewrite Nat.add_0_r.
  - cbn [List.filter]. destruct (has_type t i) eqn:Hty.
    + apply bool_decide_eq_true in Hty.
      rewrite (IH _ (S n)) by (by apply count_type_same).
      cbv zeta. simpl length.
      by replace (n + S (length (List.filter (has_type t) issues)))%nat
        with (S n + length (List.filter (has_type t) issues))%nat by lia.
    + apply bool_decide_eq_false in Hty.
      rewrite (IH _ n); [done|]. by rewrite count_type_other.
Qed.

(** X9: what the per-type counters count.  For a type that is not the
    name of a member every object inherits, [buildIssueTypeCounts] holds
    the number of issues of exactly that type, and holds no entry at all
    when there is none; issues without a type are not counted. *)
Theorem type_counts_count_issues (issues : list Issue) (t : string) :
  t <> "__proto__" -> t ∉ inherited_functions ->
  buildIssueTypeCounts issues !! t
  = (if decide (t = "") then None
     else match length (List.filter (has_type t) issues) with
          | O => None
          | S n => Some (Count (S n))
          end).
Proof.
  intros H2 H3. unfold buildIssueTypeCounts.
  destruct (decide (t = "")) as [->|H1].
  - induction issues as [|i issues IH] using rev_ind; [done|].
    rewrite foldl_app. simpl. unfold count_type at 1.
    destruct (decide (i_type i = "")); [exact IH|].
    destruct (decide (i_type i = "__proto__")); [exact IH|].
    destruct (foldl count_type ∅ issues !! i_type i) as [[k|name ones]|];
      try case_decide; by rewrite lookup_insert_ne.
  - rewrite (buildIssueTypeCounts_from t issues ∅ 0 H1 H2 H3) by done.
    simpl. by destruct (length (List.filter (has_type t) issues)).
Qed.

(** ** HTML escaping *)

(** The entity [escapeHtml] writes for a character. *)
Definition entity (c : ascii) : string :=
  if Ascii.eqb c "&" then "&amp;"
  else if Ascii.eqb c "<" then "&lt;"
  else if Ascii.eqb c ">" then "&gt;"
  else if Ascii.eqb c quote then "&quot;"
  else if Ascii.eqb c apostrophe then "&#39;"
  else String c EmptyString.

Fixpoint escape_each (s : string) : string :=
  match s with
  | EmptyString => EmptyString
  | String c r => entity c ++ escape_each r
  end.

Fixpoint occurs (c : ascii) (s : string) : bool :=
  match s with
  | EmptyString => false
  | String x r => Ascii.eqb x c || occurs c r
  end.

Lemma append_cons (c : ascii) (a b : string) :
  (String c a ++ b)%string = String c (a ++ b)%string.
Proof. reflexivity. Qed.

Lemma append_assoc (a b c : string) :
  (a ++ (b ++ c))%string = ((a ++ b) ++ c)%string.
Proof.
  induction a as [|x a IH]; [reflexivity|].
  by rewrite !append_cons, IH.
Qed.

Lemma replace_char_app (c : ascii) (rep a b : string) :
  replace_char c rep (a ++ b)
  = (replace_char c rep a ++ replace_char c rep b)%string.
Proof.
  induction a as [|x a IH]; [reflexivity|].
  rewrite append_cons. cbn [replace_char].
  destruct (Ascii.eqb x c); rewrite IH; [apply append_assoc | reflexivity].
Qed.

Lemma replace_char_absent (c : ascii) (rep s : string) :
  occurs c s = false -> replace_char c rep s = s.
Proof.
  induction s as [|x s IH]; simpl; [reflexivity|].
  intros [Hx Hs]%orb_false_iff. rewrite Hx. by rewrite IH.
Qed.

Lemma escape_sequential (s : string) :
  replace_char apostrophe "&#39;"
    (replace_char quote "&quot;"
       (replace_char ">" "&gt;"
          (replace_char "<" "&lt;"
             (replace_char "&" "&amp;" s))))
  = escape_each s.
Proof.
  induction s as [|c s IH]; [reflexivity|].
  change (String c s) with (String c EmptyString ++ s)%string.
  rewrite !replace_char_app, IH. clear IH.
  change (escape_each (String c "" ++ s)%string)
    with (entity c ++ escape_each s)%string.
  f_equal. unfold entity. simpl.
  destruct (Ascii.eqb c "&") eqn:H1; [reflexivity|].
  simpl. destruct (Ascii.eqb c "<") eqn:H2; [reflexivity|].
  simpl. destruct (Ascii.eqb c ">") eqn:H3; [reflexivity|].
  simpl. destruct (Ascii.eqb c quote) eqn:H4; [reflexivity|].
  simpl. destruct (Ascii.eqb c apostrophe) eqn:H5; reflexivity.
Qed.

Lemma occurs_app (c : ascii) (a b : string) :
  occurs c (a ++ b)%string = occurs c a || occurs c b.
Proof.
  induction a as [|x a IH]; [reflexivity|].
  rewrite append_cons. cbn [occurs]. by rewrite IH, orb_assoc.
Qed.

Lemma entity_clean (c x : ascii) :
  x ∈ ["<"%char; ">"%char; quote; apostrophe] -> occurs x (entity c) = false.
Proof.
  intros Hx. unfold entity.
  destruct (Ascii.eqb c "&") eqn:H1;
    [|destruct (Ascii.eqb c "<") eqn:H2;
      [|destruct (Ascii.eqb c ">") eqn:H3;
        [|destruct (Ascii.eqb c quote) eqn:H4;
          [|destruct (Ascii.eqb c apostrophe) eqn:H5]]]].
  1-5: repeat (apply elem_of_cons in Hx as [->|Hx]; [reflexivity|]);
       by apply elem_of_nil in Hx.
  simpl. rewrite orb_false_r.
  repeat (apply elem_of_cons in Hx as [->|Hx]; [done|]).
  by apply elem_of_nil in Hx.
Qed.

Lemma entity_inj (c d : ascii) (r s : string) :
  (entity c ++ r)%string = (entity d ++ s)%string -> c = d /\ r = s.
Proof.
  unfold entity.
  destruct (Ascii.eqb_spec c "&"), (Ascii.eqb_spec d "&");
  destruct (Ascii.eqb_spec c "<"), (Ascii.eqb_spec d "<");
  destruct (Ascii.eqb_spec c ">"), (Ascii.eqb_spec d ">");
  destruct (Ascii.eqb_spec c quote), (Ascii.eqb_spec d quote);
  destruct (Ascii.eqb_spec c apostrophe), (Ascii.eqb_spec d apostrophe);
  subst; try discriminate; simpl; intros H; simplify_eq; try done.
Qed.

(** X10: [escapeHtml] escapes every character once.  Its five successive
    replacements amount to replacing each character by its entity, so
    the markup characters [<], [>], the double quote and the apostrophe
    never occur in what it returns, and two different texts never come
    out the same. *)
Theorem escapeHtml_escapes_each_character_once (s t : string) (x : ascii) :
  escapeHtml (Some s) = escape_each s /\
  (x ∈ ["<"%char; ">"%char; quote; apostrophe] ->
   occurs x (escapeHtml (Some s)) = false) /\
  (escapeHtml (Some s) = escapeHtml (Some t) -> s = t).
Proof.
  assert (forall u, escapeHtml (Some u) = escape_each u) as Heq.
  { intros u. unfold escapeHtml. destruct (decide (u = "")) as [->|_];
      [reflexivity | apply escape_sequential]. }
  split_and!; [apply Heq| |].
  - intros Hx. rewrite Heq. induction s as [|c s IH]; [reflexivity|].
    simpl. by rewrite occurs_app, IH, entity_clean.
  - rewrite !Heq. revert t. induction s as [|c s IH]; intros [|d t]; simpl.
    + done.
    + unfold entity. repeat destruct (Ascii.eqb d _); discriminate.
    + unfold entity. repeat destruct (Ascii.eqb c _); discriminate.
    + intros [-> H]%entity_inj. by rewrite (IH t H).
Qed.

End SummaryFacts.

(** Two stray [console.log] calls and a hard-coded key. *)
Definition three_findings : list Watcher.Issue :=
  [ {| Watcher.i_file := "a.ts"; Watcher.i_line := 10;
       Watcher.i_severity := "medium"; Watcher.i_type := "console-log";
       Watcher.i_message := "console.log left in";
       Watcher.i_current := None; Watcher.i_fix := None;
       Watcher.i_autoFixable := Some true |};
    {| Watcher.i_file := "b.ts"; Watcher.i_line := 3;
       Watcher.i_severity := "CRITICAL"; Watcher.i_type := "api-key";
       Watcher.i_message := "hard-coded API key";
       Watcher.i_current := None; Watcher.i_fix := None;
       Watcher.i_autoFixable := Some false |};
    {| Watcher.i_file := "a.ts"; Watcher.i_line := 22;
       Watcher.i_severity := "low"; Watcher.i_type := "console-log";
       Watcher.i_message := "console.log left in";
       Watcher.i_current := None; Watcher.i_fix := None;
       Watcher.i_autoFixable := None |} ].

Lemma type_counts_count_issues_witness :
  Summary.buildIssueTypeCounts three_findings !! "console-log"
  = Some (Summary.Count 2).
Proof.
  rewrite (type_counts_count_issues three_findings "console-log").
  - reflexivity.
  - discriminate.
  - unfold Summary.inherited_functions. intros H.
    repeat (apply elem_of_cons in H as [H|H]; [discriminate|]).
    by apply elem_of_nil in H.
Defined.

Section BackupFacts.
Import Watcher.
Local Open Scope js_scope.

Variable env : Env.

(** X5: the backup helpers round trip.  [backupFile] of a file that
    exists copies it to a fresh path, touches nothing else and returns
    that path; whatever is written afterwards to any path but the
    backup's, [restoreFromBackup] then puts the old content back,
    removes the backup, leaves every other path as it found it and
    answers [true].  [backupFile] of a missing file answers [null], and
    [restoreFromBackup] from a missing backup answers [false]; neither
    changes anything. *)
Theorem backup_then_restore (file content : string) (w : World) :
  (w_fs w !! file = None -> backupFile env file w = (Returned None, w)) /\
  (forall b w2, w_fs w2 !! b = None ->
     restoreFromBackup file b w2 = (Returned false, w2)) /\
  (w_fs w !! file = Some content ->
   exists b w1,
     backupFile env file w = (Returned (Some b), w1) /\
     b <> file /\
     w_fs w1 !! b = Some content /\
     (forall p, p <> b -> w_fs w1 !! p = w_fs w !! p) /\
     forall fs2,
       fs2 !! b = Some content ->
       exists w3,
         restoreFromBackup file b (with_fs fs2 w1) = (Returned true, w3) /\
         w_fs w3 !! file = Some content /\
         w_fs w3 !! b = None /\
         forall p, p <> file -> p <> b -> w_fs w3 !! p = fs2 !! p).
Proof.
  split_and!.
  - intros Hfile. unfold backupFile, copyFileSync. by rewrite Hfile.
  - intros b w2 Hb. unfold restoreFromBackup, copyFileSync. by rewrite Hb.
  - intros Hfile.
    exists (backup_path file (clock env (w_ticks w))).
    eexists. split; [by apply backupFile_taken|].
    pose proof (backup_path_fresh file (clock env (w_ticks w))) as Hfresh.
    split_and!; [exact Hfresh | apply lookup_insert_eq | |].
    + intros p Hp. simpl. by apply lookup_insert_ne.
    + intros fs2 Hb. unfold restoreFromBackup, copyFileSync. simpl.
      rewrite Hb. eexists. split; [reflexivity|]. simpl. split_and!.
      * rewrite lookup_delete_ne by done. apply lookup_insert_eq.
      * apply lookup_delete_eq.
      * intros p Hp1 Hp2. rewrite lookup_delete_ne by done.
        by apply lookup_insert_ne.
Qed.

End BackupFacts.

Section BatchFacts.
Import Watcher.

Variable cfg : Config.

(** X6: how the issues of a detection are dealt out to files.  The
    per-file loop of a cycle runs over the files the issues name, each
    once.  Every auto-fixable issue is in the batch of its own file, a
    batch holds nothing but auto-fixable issues of the detection, and no
    issue is auto-fixable exactly when every batch is empty.  (An issue
    can be in the batches of two files when one path ends with the
    other.) *)
Theorem batches_cover_auto_fixable_issues (issues : list Issue) :
  NoDup (set_of_list (map i_file issues)) /\
  (forall i, i ∈ issues -> inferAutoFixable cfg i = true ->
     i_file i ∈ set_of_list (map i_file issues) /\
     i ∈ getAutoFixableForFile cfg issues (i_file i)) /\
  (forall file i, i ∈ getAutoFixableForFile cfg issues file ->
     i ∈ issues /\ inferAutoFixable cfg i = true) /\
  (countAutoFixable cfg issues = 0%nat <->
   forall file, getAutoFixableForFile cfg issues file = []).
Proof.
  destruct (set_of_list_spec (map i_file issues)) as (Hnd & _ & Hin).
  assert (forall file i, i ∈ getAutoFixableForFile cfg issues file ->
            i ∈ issues /\ inferAutoFixable cfg i = true) as Hsound.
  { intros file i. unfold getAutoFixableForFile.
    rewrite list_elem_of_In, List.filter_In, <- list_elem_of_In.
    intros [Hi Hf]. split; [exact Hi|].
    by destruct (negb _). }
  assert (forall i, i ∈ issues -> inferAutoFixable cfg i = true ->
            i ∈ getAutoFixableForFile cfg issues (i_file i)) as Hcomplete.
  { intros i Hi Hauto. unfold getAutoFixableForFile.
    rewrite list_elem_of_In, List.filter_In, <- list_elem_of_In.
    split; [exact Hi|]. by rewrite bool_decide_true. }
  split_and!; [exact Hnd| |exact Hsound|].
  - intros i Hi Hauto. split; [|by apply Hcomplete].
    apply Hin, list_elem_of_fmap. by exists i.
  - unfold countAutoFixable. split.
    + intros Hzero file.
      destruct (getAutoFixableForFile cfg issues file) as [|i l] eqn:Hb;
        [reflexivity|].
      destruct (Hsound file i) as [Hi Hauto]; [rewrite Hb; by left|].
      assert (i ∈ List.filter (inferAutoFixable cfg) issues) as Hmem.
      { rewrite list_elem_of_In, List.filter_In, <- list_elem_of_In. by split. }
      destruct (List.filter (inferAutoFixable cfg) issues); [|discriminate].
      by apply elem_of_nil in Hmem.
    + intros Hempty.
      destruct (List.filter (inferAutoFixable cfg) issues) as [|i l] eqn:Hf;
        [reflexivity|].
      assert (i ∈ issues /\ inferAutoFixable cfg i = true) as [Hi Hauto].
      { rewrite list_elem_of_In, <- (List.filter_In (inferAutoFixable cfg)),
          <- list_elem_of_In, Hf. by left. }
      pose proof (Hcomplete i Hi Hauto) as Hmem.
      rewrite Hempty in Hmem. by apply elem_of_nil in Hmem.
Qed.

End BatchFacts.

Section StagedFacts.
Import Watcher Staged.
Local Open Scope js_scope.

Variable env : Env.

(** X11: the pre-commit scan fails open.  [runStagedScan] always returns.
    It blocks the commit (exit code 1) exactly when there are staged
    files to review, the detection, retried as usual, returns, and its
    answer holds an issue whose severity is the string [critical]; the
    result then lists the critical issues.  A detection that fails lets
    the commit pass, and so does a scan of no file, which starts no
    process. *)
Theorem staged_scan_blocks_only_on_critical (stagedFiles : list string)
    (w : World) :
  exists r,
    (runStagedScan env stagedFiles w).1 = Returned r /\
    (exitCode r = 1%Z <->
     stagedFiles <> [] /\
     exists d,
       (executeClaudeReviewWithRetry env stagedFiles w).1 = Returned d /\
       exists i, i ∈ default [] (r_issues d) /\ i_severity i = "critical") /\
    (exitCode r = 1%Z ->
     issues r <> [] /\ Forall (fun i => i_severity i = "critical") (issues r)) /\
    (exitCode r = 0%Z -> Forall (fun i => i_severity i <> "critical") (issues r)) /\
    (stagedFiles = [] -> (runStagedScan env stagedFiles w).2 = w).
Proof.
  unfold runStagedScan. destruct stagedFiles as [|f files]; cbn [length Nat.eqb].
  { eexists. split; [reflexivity|]. simpl.
    split_and!; try done. split; [done | by intros [? _]]. }
  unfold try_catch, bind.
  pose proof (withRetry_keeps env (fun _ => True) (fun _ _ _ => Logic.I)
                (fun _ : ReviewResult => True)
                (executeClaudeReview env (f :: files)) 3 1000
                (fun w _ => conj Logic.I
                   match (executeClaudeReview env (f :: files) w).1 as o
                     return match o with Returned _ => True | Threw _ => True end
                   with Returned _ => Logic.I | Threw _ => Logic.I end)
                ltac:(lia) w Logic.I) as [_ Hthrown].
  fold (executeClaudeReviewWithRetry env (f :: files)) in Hthrown.
  destruct (executeClaudeReviewWithRetry env (f :: files) w) as [[d|e] w1];
    cbn [fst snd] in *.
  - destruct (List.filter is_critical (default [] (r_issues d))) as [|c l] eqn:Hc;
      simpl length; cbn [Nat.ltb Nat.leb].
    + eexists. split; [reflexivity|]. unfold exitCode. simpl.
      split_and!; try done.
      * split; [done|]. intros (_ & d' & Hd & i & Hi & Hsev).
        injection Hd as <-.
        assert (i ∈ List.filter is_critical (default [] (r_issues d))) as Hmem.
        { rewrite list_elem_of_In, List.filter_In, <- list_elem_of_In.
          split; [done|]. by apply bool_decide_eq_true. }
        rewrite Hc in Hmem. by apply elem_of_nil in Hmem.
      * intros _. apply Forall_forall. intros i.
        rewrite list_elem_of_In, List.filter_In.
        intros [_ Hi]. apply negb_true_iff in Hi.
        by apply bool_decide_eq_false in Hi.
    + eexists. split; [reflexivity|]. unfold exitCode. simpl.
      assert (Forall (fun i => i_severity i = "critical") (c :: l)) as Hall.
      { rewrite <- Hc. apply Forall_forall. intros i.
        rewrite list_elem_of_In, List.filter_In.
        intros [_ Hi]. by apply bool_decide_eq_true in Hi. }
      split_and!; try done.
      split; [|done]. intros _. split; [done|].
      exists d. split; [reflexivity|]. exists c.
      assert (c ∈ List.filter is_critical (default [] (r_issues d))) as Hmem
        by (rewrite Hc; by left).
      rewrite list_elem_of_In, List.filter_In, <- list_elem_of_In in Hmem.
      destruct Hmem as [Hi Hs]. split; [done|]. by apply bool_decide_eq_true in Hs.
  - destruct e as [m|]; [|done]. simpl.
    eexists. split; [reflexivity|]. unfold exitCode. simpl.
    split_and!; try done.
    split; [done|]. intros (_ & d' & Hd & _). discriminate.
Qed.

End StagedFacts.

(** * The board the dashboard shows *)

Section BoardFacts.
Import Dashboard.

(** Every card lies under its own id, in one of the three columns, and a
    card in the fixing column is in the set of ids being fixed. *)
Definition consistent (s : RalphState) : Prop :=
  forall id t, issues s !! id = Some t ->
    t_id t = id /\
    t_status t ∈ ["detected"; "fixing"; "failed"] /\
    (t_status t = "fixing" -> id ∈ fixing s).

Lemma add_detected_cards (done : gset string) (l : list IssueInfo)
    (m : gmap string Tracked) :
  (forall id t, m !! id = Some t -> t_id t = id /\ t_status t = "detected") ->
  forall id t, foldl (add_detected done) m l !! id = Some t ->
    t_id t = id /\ t_status t = "detected".
Proof.
  revert m. induction l as [|i l IH]; intros m Hm; simpl; [exact Hm|].
  apply IH. intros id t. unfold add_detected.
  destruct (decide (issue_id i ∈ done)); [apply Hm|].
  intros [[<- <-]|[_ H]]%lookup_insert_Some; [by split | by apply Hm].
Qed.

Lemma start_fixing_consistent (s : RalphState) (id : string) :
  consistent s -> consistent (start_fixing s id).
Proof.
  intros Hs id' t. unfold start_fixing. simpl.
  destruct (decide (id = id')) as [<-|Hne].
  - rewrite lookup_alter_eq.
    destruct (issues s !! id) as [t0|] eqn:H0; simpl; [|done].
    intros [= <-]. destruct (Hs id t0 H0) as (Hid & _ & _). simpl.
    split_and!; [exact Hid | set_solver | set_solver].
  - rewrite lookup_alter_ne by done. intros Ht.
    destruct (Hs id' t Ht) as (Hid & Hst & Hfix).
    split_and!; [done|done|]. intros H. set_solver.
Qed.

Lemma mark_fixed_consistent (s : RalphState) (id : string) :
  consistent s -> consistent (mark_fixed s id).
Proof.
  intros Hs id' t. unfold mark_fixed. simpl.
  intros [Hne Ht]%lookup_delete_Some.
  destruct (Hs id' t Ht) as (Hid & Hst & Hfix).
  split_and!; [done|done|]. intros H. set_solver.
Qed.

Lemma mark_failed_consistent (s : RalphState) (id : string) :
  consistent s -> consistent (mark_failed s id).
Proof.
  intros Hs id' t. unfold mark_failed. simpl.
  destruct (decide (id = id')) as [<-|Hne].
  - rewrite lookup_alter_eq.
    destruct (issues s !! id) as [t0|] eqn:H0; simpl; [|done].
    intros [= <-]. destruct (Hs id t0 H0) as (Hid & _ & _). simpl.
    split_and!; [exact Hid | set_solver | done].
  - rewrite lookup_alter_ne by done. intros Ht.
    destruct (Hs id' t Ht) as (Hid & Hst & Hfix).
    split_and!; [done|done|]. intros H. set_solver.
Qed.

Lemma for_each_consistent {A : Type} (body : RalphState -> A -> RalphState)
    (xs : option (list A)) (s : RalphState) :
  (forall s a, consistent s -> consistent (body s a)) ->
  consistent s -> consistent (for_each xs body s).
Proof.
  intros Hbody. destruct xs as [l|]; simpl; [|done].
  revert s. induction l as [|a l IH]; intros s Hs; simpl; [done|].
  by apply IH, Hbody.
Qed.

Lemma updateRalphState_consistent (now : Z) (eventName : string)
    (data : EventData) (s : RalphState) :
  consistent s -> consistent (updateRalphState now eventName data s).
Proof.
  intros Hs. unfold updateRalphState.
  repeat case_decide; try exact Hs.
  - intros id t. simpl. by rewrite lookup_empty.
  - assert (consistent
              (set_sets (for_each (d_issues data) (add_detected (completed s)) ∅)
                        ∅ (completed s) s)) as Hd.
    { intros id t. simpl. intros Ht.
      destruct (d_issues data) as [l|]; simpl in Ht;
        [|by rewrite lookup_empty in Ht].
      destruct (add_detected_cards (completed s) l ∅
                  ltac:(intros ? ?; by rewrite lookup_empty) id t Ht)
        as [Hid Hst].
      rewrite Hst. split_and!; [done | set_solver | done]. }
    by destruct (js_truthy_Q (d_cost data)).
  - apply for_each_consistent; [apply start_fixing_consistent | exact Hs].
  - intros id t. simpl. rewrite map_lookup_imap.
    destruct (issues s !! id) as [t0|] eqn:Hcard; simpl; [|done].
    unfold progress_of. intros [= <-].
    destruct (Hs id t0 Hcard) as (Hid & Hst & Hfix).
    by case_decide.
  - apply for_each_consistent; [apply mark_failed_consistent|].
    apply for_each_consistent; [apply mark_fixed_consistent | exact Hs].
Qed.

(** X12: the board stays consistent.  Whatever events are published, in
    whatever order, every issue the dashboard tracks is filed under its
    own id, its status is one of [detected], [fixing] and [failed], and
    an issue shown as being fixed is in the set of ids being fixed. *)
Theorem board_stays_consistent (evs : list (Z * string * EventData)) :
  forall id t,
    issues (replay initialState evs) !! id = Some t ->
    t_id t = id /\
    t_status t ∈ ["detected"; "fixing"; "failed"] /\
    (t_status t = "fixing" -> id ∈ fixing (replay initialState evs)).
Proof.
  change (consistent (replay initialState evs)).
  unfold replay.
  assert (consistent initialState) as Hinit.
  { intros id t. simpl. by rewrite lookup_empty. }
  revert Hinit. generalize initialState.
  induction evs as [|ev evs IH]; intros s Hs; simpl; [exact Hs|].
  by apply IH, updateRalphState_consistent.
Qed.

End BoardFacts.

(** One issue is found and its fix begins. *)
Definition fixing_one : list (Z * string * EventData) :=
  [(0%Z, "ralph_started", [FMaxCycles 3; FBudgetHard 20]);
   (1%Z, "detection_complete",
    [FIssues
       [ {| ii_id := Some "a.ts:10"; ii_file := "a.ts";
            ii_line := 10; ii_severity := "medium";
            ii_type := "console-log";
            ii_message := "console.log left in";
            ii_autoFixable := Some true |} ];
     FCost 0.1]);
   (2%Z, "fix_started", [FIssueIds ["a.ts:10"]])].

Definition card_being_fixed : Dashboard.Tracked :=
  {| Dashboard.t_id := "a.ts:10"; Dashboard.t_file := "a.ts";
     Dashboard.t_line := 10; Dashboard.t_severity := "medium";
     Dashboard.t_type := "console-log";
     Dashboard.t_message := "console.log left in";
     Dashboard.t_autoFixable := Some true;
     Dashboard.t_status := "fixing"; Dashboard.t_progress := Some 0%Z |}.

Lemma board_stays_consistent_witness :
  Dashboard.issues (Dashboard.replay Dashboard.initialState fixing_one)
    !! "a.ts:10" = Some card_being_fixed /\
  Dashboard.t_id card_being_fixed = "a.ts:10" /\
  Dashboard.t_status card_being_fixed ∈ ["detected"; "fixing"; "failed"] /\
  (Dashboard.t_status card_being_fixed = "fixing" ->
   "a.ts:10" ∈ Dashboard.fixing
                 (Dashboard.replay Dashboard.initialState fixing_one)).
Proof.
  assert (Dashboard.issues (Dashboard.replay Dashboard.initialState fixing_one)
            !! "a.ts:10" = Some card_being_fixed) as H
    by (vm_compute; reflexivity).
  split; [exact H|].
  exact (board_stays_consistent fixing_one "a.ts:10" card_being_fixed H).
Defined.

Section PortFacts.
Import Ports.

Variable bind : Z -> Bind.

Lemma tryPort_spec (fuel : nat) (startPort port attempt : Z) :
  (1 <= attempt <= maxRetries)%Z ->
  (maxRetries - attempt <= Z.of_nat fuel)%Z ->
  match tryPort bind fuel startPort port attempt with
  | Resolved (Some p) =>
      (port <= p <= port + (maxRetries - attempt))%Z /\ bind p = Listening /\
      forall q, (port <= q < p)%Z -> bind q = AddrInUse
  | Resolved None => False
  | AllPortsInUse first final =>
      first = startPort /\ final = (port + (maxRetries - attempt))%Z /\
      forall q, (port <= q <= port + (maxRetries - attempt))%Z ->
                bind q = AddrInUse
  | Failed message =>
      exists p, (port <= p <= port + (maxRetries - attempt))%Z /\
                bind p = OtherError message /\
                forall q, (port <= q < p)%Z -> bind q = AddrInUse
  | OutOfFuel => False
  end.
Proof.
  revert port attempt. unfold maxRetries.
  induction fuel as [|fuel IH]; intros port attempt Hattempt Hfuel; simpl;
    unfold maxRetries.
  - destruct (bind port) as [| |m] eqn:Hb; cbv beta iota.
    + split; [lia|]. split; [done|]. intros q Hq. lia.
    + destruct (attempt <? 5)%Z eqn:Hlt; [apply Z.ltb_lt in Hlt; lia|].
      cbv beta iota. split; [done|]. split; [lia|]. intros q Hq.
      by replace q with port by lia.
    + exists port. split; [lia|]. split; [done|]. intros q Hq. lia.
  - destruct (bind port) as [| |m] eqn:Hb; cbv beta iota.
    + split; [lia|]. split; [done|]. intros q Hq. lia.
    + destruct (attempt <? 5)%Z eqn:Hlt.
      * apply Z.ltb_lt in Hlt.
        specialize (IH (port + 1)%Z (attempt + 1)%Z ltac:(lia) ltac:(lia)).
        replace (port + 1 + (5 - (attempt + 1)))%Z
          with (port + (5 - attempt))%Z in IH by lia.
        destruct (tryPort bind fuel startPort (port + 1) (attempt + 1))
          as [[p|]|first final|m|]; try done.
        -- destruct IH as (Hp & Hl & Hbefore).
           split; [lia|]. split; [done|]. intros q Hq.
           destruct (decide (q = port)) as [->|Hne]; [done|].
           apply Hbefore. lia.
        -- destruct IH as (-> & -> & Hall).
           split; [done|]. split; [done|]. intros q Hq.
           destruct (decide (q = port)) as [->|Hne]; [done|].
           apply Hall. lia.
        -- destruct IH as (p & Hp & Hm & Hbefore).
           exists p. split; [lia|]. split; [done|]. intros q Hq.
           destruct (decide (q = port)) as [->|Hne]; [done|].
           apply Hbefore. lia.
      * apply Z.ltb_ge in Hlt. cbv beta iota.
        split; [done|]. split; [lia|]. intros q Hq.
        by replace q with port by lia.
    + exists port. split; [lia|]. split; [done|]. intros q Hq. lia.
Qed.

(** X13: the port search of [startDashboard].  On a server that is not
    running yet, with its dependencies installed, [startDashboard]
    probes at most the five ports from [options.port] (3000 when that
    is missing or 0) upwards, and stops at the first that is not in
    use: it resolves with the lowest port of the five that can be bound,
    provided every port below it is in use, records it and sets
    [isRunning]; it rejects with "All ports in use" exactly when all
    five are in use; and any other listen error rejects at once.  On a
    rejection [isRunning] stays false. *)
Theorem startDashboard_takes_first_free_port (port : option Z) (s : Listener) :
  isRunning s = false ->
  let first := js_or_Z port 3000 in
  let outcome := (startDashboard bind true port s).1 in
  let after := (startDashboard bind true port s).2 in
  (forall p,
     outcome = Resolved (Some p) <->
     (first <= p <= first + 4)%Z /\ bind p = Listening /\
     forall q, (first <= q < p)%Z -> bind q = AddrInUse) /\
  (forall a b,
     outcome = AllPortsInUse a b <->
     a = first /\ b = (first + 4)%Z /\
     forall q, (first <= q <= first + 4)%Z -> bind q = AddrInUse) /\
  (forall p, outcome = Resolved (Some p) ->
     isRunning after = true /\ currentPort after = p) /\
  ((forall p, outcome <> Resolved (Some p)) -> after = s) /\
  outcome <> OutOfFuel /\ outcome <> Resolved None.
Proof.
  intros Hrun first outcome after. subst outcome after.
  unfold startDashboard. rewrite Hrun. cbn [negb].
  fold first.
  pose proof (tryPort_spec (Z.to_nat maxRetries) first first 1
                ltac:(unfold maxRetries; lia) ltac:(unfold maxRetries; lia))
    as Hspec.
  generalize dependent (Z.to_nat maxRetries). intros fuel Hspec.
  unfold maxRetries in Hspec.
  replace (first + (5 - 1))%Z with (first + 4)%Z in Hspec by lia.
  destruct (tryPort bind fuel first first 1)
    as [[p|]|a b|m|]; try done; cbn [fst snd].
  - destruct Hspec as (Hp & Hl & Hbefore).
    split_and!; try done.
    + intros p'. split.
      * intros [= <-]. split; [lia|]. by split.
      * intros (Hp' & Hl' & Hbefore'). f_equal. f_equal.
        destruct (Z.lt_trichotomy p p') as [Hlt|[->|Hgt]]; [|done|].
        -- rewrite Hbefore' in Hl by lia. discriminate.
        -- rewrite Hbefore in Hl' by lia. discriminate.
    + intros a b. split; [done|]. intros (_ & _ & Hall).
      rewrite Hall in Hl by lia. discriminate.
    + intros p' [= <-]. by split.
    + intros Hnone. by destruct (Hnone p).
  - destruct Hspec as (-> & -> & Hall).
    split_and!; try done.
    + intros p. split; [done|]. intros (Hp & Hl & _).
      rewrite Hall in Hl by lia. discriminate.
    + intros a b. split; [by intros [= <- <-] | by intros (-> & -> & _)].
  - destruct Hspec as (p & Hp & Hm & Hbefore).
    split_and!; try done.
    + intros p'. split; [done|]. intros (Hp' & Hl' & Hbefore').
      destruct (Z.lt_trichotomy p p') as [Hlt|[->|Hgt]].
      * rewrite Hbefore' in Hm by lia. discriminate.
      * rewrite Hm in Hl'. discriminate.
      * rewrite Hbefore in Hl' by lia. discriminate.
    + intros a b. split; [done|]. intros (_ & _ & Hall).
      rewrite Hall in Hm by lia. discriminate.
Qed.

End PortFacts.

(** A machine on which ports 3000 and 3001 are taken. *)
Definition two_ports_taken (p : Z) : Ports.Bind :=
  if (p =? 3000)%Z || (p =? 3001)%Z then Ports.AddrInUse else Ports.Listening.

Lemma startDashboard_takes_first_free_port_witness :
  (Ports.startDashboard two_ports_taken true None Ports.initialListener).1
  = Ports.Resolved (Some 3002%Z).
Proof.
  destruct (startDashboard_takes_first_free_port two_ports_taken None
              Ports.initialListener eq_refl) as (Hfirst & _).
  apply Hfirst. simpl. split; [lia|]. split; [reflexivity|].
  intros q Hq. unfold two_ports_taken.
  destruct (q =? 3000)%Z eqn:H0; [reflexivity|].
  destruct (q =? 3001)%Z eqn:H1; [reflexivity|].
  apply Z.eqb_neq in H0, H1. lia.
Defined.

(** * What a configuration file can change *)

Section SettingsFacts.
Import Settings.

Lemma assign_if_lookup (cond : bool) (name : string) (value : option Json)
    (merged : gmap string Json) (k : string) :
  assign_if cond name value merged !! k
  = if decide (k = name)
    then (if cond then match value with Some j => Some j | None => merged !! k end
          else merged !! k)
    else merged !! k.
Proof.
  unfold assign_if. destruct (decide (k = name)) as [->|Hne].
  - destruct cond, value; by rewrite ?lookup_insert_eq.
  - destruct cond, value; by rewrite ?lookup_insert_ne.
Qed.

Lemma inner_merges_lookup (defaults : option Json) (user : option Json)
    (inner : list string) (start section : gmap string Json) :
  foldl (fun acc sub =>
           s ← acc;
           if truthy_opt (default None (member user sub)) then
             d ← member defaults sub;
             Some (<[sub := spread2 d (default None (member user sub))]> s)
           else Some s)
        (Some start) inner = Some section ->
  forall k, k ∉ inner -> section !! k = start !! k.
Proof.
  revert start. induction inner as [|sub inner IH]; intros start; simpl.
  - by intros [= ->].
  - intros Hfold k Hk.
    apply not_elem_of_cons in Hk as [Hne Hk].
    destruct (truthy_opt (default None (member user sub))).
    + destruct (member defaults sub) as [d|]; simpl in Hfold.
      * rewrite (IH _ Hfold k Hk). by apply lookup_insert_ne.
      * clear -Hfold. exfalso. induction inner as [|x inner IH]; [done|].
        by apply IH.
    + by apply (IH _ Hfold).
Qed.

Lemma merge_nested_lookup (defaults : gmap string Json) (user : Json)
    (name : string) (inner : list string) (merged merged' : gmap string Json) :
  merge_nested defaults user name inner merged = Some merged' ->
  (forall k, k <> name -> merged' !! k = merged !! k) /\
  (if truthy_opt (prop user name)
   then exists section,
          merged' !! name = Some (JObj section) /\
          forall k, k ∉ inner ->
            section !! k
            = match spread (prop user name) !! k with
              | Some v => Some v
              | None => spread (defaults !! name) !! k
              end
   else merged' !! name = merged !! name).
Proof.
  unfold merge_nested. destruct (truthy_opt (prop user name)).
  - destruct (foldl _ _ inner) as [section|] eqn:Hfold; [|done].
    simpl. intros [= <-]. split.
    + intros k Hk. by apply lookup_insert_ne.
    + exists section. split; [apply lookup_insert_eq|].
      intros k Hk. rewrite (inner_merges_lookup _ _ _ _ _ Hfold k Hk).
      rewrite lookup_union.
      destruct (spread (prop user name) !! k), (spread (defaults !! name) !! k);
        reflexivity.
  - by intros [= <-].
Qed.

(** The sections [mergeConfig] merges key by key, each with the keys it
    merges one level further down. *)
Definition merged_sections : list (string * list string) :=
  [("autoFix", []); ("ralph", []); ("notifications", ["types"]);
   ("dashboard", []); ("techStack", []);
   ("claudeConfig", ["detection"; "fixing"])].

Lemma mergeConfig_lookup (defaults : gmap string Json) (userConfig : Json)
    (merged : gmap string Json) :
  truthy userConfig = true ->
  mergeConfig defaults userConfig = Some merged ->
  (forall name, name ∉ merged_names -> merged !! name = defaults !! name) /\
  (forall name, name ∈ ["watchPaths"; "ignored"; "extensions"] ->
     merged !! name
     = if truthy_opt (prop userConfig name) then prop userConfig name
       else defaults !! name) /\
  (forall name inner, (name, inner) ∈ merged_sections ->
     if truthy_opt (prop userConfig name)
     then exists section,
            merged !! name = Some (JObj section) /\
            forall k, k ∉ inner ->
              section !! k
              = match spread (prop userConfig name) !! k with
                | Some v => Some v
                | None => spread (defaults !! name) !! k
                end
     else merged !! name = defaults !! name).
Proof.
  intros Htruthy. unfold mergeConfig. rewrite Htruthy. cbn [negb]. cbv zeta.
  set (m0 := assign_if _ "debounceDelay" _ _).
  destruct (merge_nested defaults userConfig "autoFix" [] m0) as [m1|] eqn:H1;
    [|done]. simpl.
  destruct (merge_nested defaults userConfig "ralph" [] m1) as [m2|] eqn:H2;
    [|done]. simpl.
  destruct (merge_nested defaults userConfig "notifications" ["types"] m2)
    as [m3|] eqn:H3; [|done]. simpl.
  destruct (merge_nested defaults userConfig "dashboard" [] m3) as [m4|] eqn:H4;
    [|done]. simpl.
  destruct (merge_nested defaults userConfig "techStack" [] m4) as [m5|] eqn:H5;
    [|done]. simpl.
  intros H6.
  apply merge_nested_lookup in H1 as [F1 S1], H2 as [F2 S2], H3 as [F3 S3],
    H4 as [F4 S4], H5 as [F5 S5], H6 as [F6 S6].
  assert (forall k, m0 !! k
            = if decide (k = "debounceDelay") then
                match prop userConfig "debounceDelay" with
                | Some j => Some j | None => defaults !! k end
              else if decide (k ∈ ["watchPaths"; "ignored"; "extensions"]) then
                (if truthy_opt (prop userConfig k) then prop userConfig k
                 else defaults !! k)
              else defaults !! k) as Hm0.
  { intros k. subst m0. rewrite !assign_if_lookup.
    destruct (decide (k = "debounceDelay")) as [->|?].
    { by destruct (prop userConfig "debounceDelay"). }
    destruct (decide (k = "extensions")) as [->|?].
    { rewrite (decide_True (P := "extensions" ∈ _)) by set_solver.
      by destruct (prop userConfig "extensions") as [j|]; [destruct (truthy j)|]. }
    destruct (decide (k = "ignored")) as [->|?].
    { rewrite (decide_True (P := "ignored" ∈ _)) by set_solver.
      by destruct (prop userConfig "ignored") as [j|]; [destruct (truthy j)|]. }
    destruct (decide (k = "watchPaths")) as [->|?].
    { rewrite (decide_True (P := "watchPaths" ∈ _)) by set_solver.
      by destruct (prop userConfig "watchPaths") as [j|]; [destruct (truthy j)|]. }
    rewrite (decide_False (P := k ∈ _)) by set_solver. done. }
  assert (forall k, k <> "debounceDelay" ->
            k ∉ ["watchPaths"; "ignored"; "extensions"] ->
            m0 !! k = defaults !! k) as Hplain.
  { intros k Hk1 Hk2. rewrite Hm0.
    destruct (decide (k = "debounceDelay")); [done|].
    by destruct (decide (k ∈ ["watchPaths"; "ignored"; "extensions"])). }
  split_and!.
  - intros name Hname. unfold merged_names in Hname.
    rewrite F6, F5, F4, F3, F2, F1 by set_solver.
    apply Hplain; set_solver.
  - intros name Hname.
    rewrite F6, F5, F4, F3, F2, F1, Hm0 by set_solver.
    destruct (decide (name = "debounceDelay")); [set_solver|].
    by rewrite decide_True.
  - intros name inner Hname. unfold merged_sections in Hname.
    repeat (apply elem_of_cons in Hname as [[= -> ->]|Hname]);
      [..|by apply elem_of_nil in Hname].
    + rewrite F6, F5, F4, F3, F2 by done.
      destruct (truthy_opt (prop userConfig "autoFix")); [exact S1|].
      rewrite S1. apply Hplain; set_solver.
    + rewrite F6, F5, F4, F3 by done.
      destruct (truthy_opt (prop userConfig "ralph")); [exact S2|].
      rewrite S2, F1 by done. apply Hplain; set_solver.
    + rewrite F6, F5, F4 by done.
      destruct (truthy_opt (prop userConfig "notifications")); [exact S3|].
      rewrite S3, F2, F1 by done. apply Hplain; set_solver.
    + rewrite F6, F5 by done.
      destruct (truthy_opt (prop userConfig "dashboard")); [exact S4|].
      rewrite S4, F3, F2, F1 by done. apply Hplain; set_solver.
    + rewrite F6 by done.
      destruct (truthy_opt (prop userConfig "techStack")); [exact S5|].
      rewrite S5, F4, F3, F2, F1 by done. apply Hplain; set_solver.
    + destruct (truthy_opt (prop userConfig "claudeConfig")); [exact S6|].
      rewrite S6, F5, F4, F3, F2, F1 by done. apply Hplain; set_solver.
Qed.

(** X14: what a configuration file can and cannot change.  When
    [mergeConfig] returns,
    - every key of the defaults that is none of the ten it looks at
      ([logDir], [claudePath], [skillFile], [logging], ... ) keeps its
      default value, whatever the file says;
    - [watchPaths], [ignored] and [extensions] are the user's when the
      user's value is truthy, else the default;
    - in the sections [autoFix], [ralph], [dashboard] and [techStack]
      each key is the user's when the user's section has it, else the
      default's; a section the user leaves out, or sets to a falsy
      value, stays the default.
    A user configuration that is falsy changes nothing. *)
Theorem mergeConfig_user_over_defaults (defaults : gmap string Json)
    (userConfig : Json) (merged : gmap string Json) :
  mergeConfig defaults userConfig = Some merged ->
  (forall name, name ∉ merged_names -> merged !! name = defaults !! name) /\
  (forall name, name ∈ ["watchPaths"; "ignored"; "extensions"] ->
     merged !! name
     = if truthy userConfig && truthy_opt (prop userConfig name)
       then prop userConfig name
       else defaults !! name) /\
  (forall name, name ∈ ["autoFix"; "ralph"; "dashboard"; "techStack"] ->
     if truthy userConfig && truthy_opt (prop userConfig name)
     then exists section,
            merged !! name = Some (JObj section) /\
            forall k,
              section !! k
              = match spread (prop userConfig name) !! k with
                | Some v => Some v
                | None => spread (defaults !! name) !! k
                end
     else merged !! name = defaults !! name) /\
  (truthy userConfig = false -> merged = defaults).
Proof.
  intros Hmerge. destruct (truthy userConfig) eqn:Htruthy; cbn [andb].
  - destruct (mergeConfig_lookup defaults userConfig merged Htruthy Hmerge)
      as (Hframe & Hplain & Hsections).
    split_and!; [exact Hframe | exact Hplain | | done].
    intros name Hname.
    assert ((name, []) ∈ merged_sections) as Hin.
    { unfold merged_sections.
      repeat (apply elem_of_cons in Hname as [->|Hname]; [set_solver|]).
      by apply elem_of_nil in Hname. }
    specialize (Hsections name [] Hin).
    destruct (truthy_opt (prop userConfig name)); [|exact Hsections].
    destruct Hsections as (section & Hs & Hk). exists section.
    split; [exact Hs|]. intros k. apply Hk, not_elem_of_nil.
  - unfold mergeConfig in Hmerge. rewrite Htruthy in Hmerge.
    injection Hmerge as <-. by split_and!.
Qed.

End SettingsFacts.

Section ValidationFacts.
Import Settings.

(** ** Index keys never clash with the names the script reads *)

Definition is_digit (c : ascii) : bool :=
  (48 <=? nat_of_ascii c)%nat && (nat_of_ascii c <=? 57)%nat.

Definition starts_with_digit (s : string) : bool :=
  match s with
  | EmptyString => false
  | String c _ => is_digit c
  end.

Lemma pretty_N_char_digit (x : N) : is_digit (pretty_N_char x) = true.
Proof. unfold pretty_N_char. by repeat case_match. Qed.

Lemma pretty_N_go_digit (x : N) (s : string) :
  (0 < x)%N \/ starts_with_digit s = true ->
  starts_with_digit (pretty_N_go x s) = true.
Proof.
  revert s. induction (N.lt_wf_0 x) as [x _ IH]; intros s Hs.
  assert (x = 0 \/ 0 < x)%N as [->|Hpos] by lia.
  - rewrite pretty_N_go_0. destruct Hs as [Hs|Hs]; [lia | exact Hs].
  - rewrite pretty_N_go_step by done. apply IH.
    + by apply N.div_lt.
    + right. simpl. apply pretty_N_char_digit.
Qed.

Lemma pretty_nat_digit (n : nat) : starts_with_digit (pretty n) = true.
Proof.
  unfold pretty, pretty_nat, pretty, pretty_N.
  case_decide; [reflexivity|]. apply pretty_N_go_digit. lia.
Qed.

Lemma index_keys_lookup {A B} (f : A -> B) (l : list A) (name : string) :
  starts_with_digit name = false ->
  (list_to_map (imap (fun i x => (pretty i, f x)) l) : gmap string B) !! name
  = None.
Proof.
  intros Hname. apply not_elem_of_list_to_map_1.
  intros (kv & -> & Hin)%list_elem_of_fmap.
  apply elem_of_lookup_imap in Hin as (i & x & -> & _). simpl in Hname.
  by rewrite pretty_nat_digit in Hname.
Qed.

Lemma spread_named (v : option Json) (name : string) :
  starts_with_digit name = false ->
  spread v !! name = match v with Some j => prop j name | None => None end.
Proof.
  intros Hname. destruct v as [[ |b|q|s|l|m]|]; simpl; try done.
  - apply (index_keys_lookup (fun c => JStr (String c EmptyString))), Hname.
  - apply (index_keys_lookup id), Hname.
Qed.

(** ** Validation and merging together *)

(** The three kinds [validateConfig] checks for. *)
Inductive Kind := KArray | KBoolean | KNumber.

Definition has_kind (kind : Kind) (v : Json) : bool :=
  match kind, v with
  | KArray, JArr _ | KBoolean, JBool _ | KNumber, JNum _ => true
  | _, _ => false
  end.

(** The fields [validateConfig] checks, section by section. *)
Definition checked_fields : list (string * string * Kind) :=
  [("autoFix", "safePatterns", KArray); ("autoFix", "backupFiles", KBoolean);
   ("autoFix", "verifyAfterFix", KBoolean);
   ("ralph", "maxCycles", KNumber); ("ralph", "budgetWarning", KNumber);
   ("ralph", "budgetHard", KNumber);
   ("notifications", "enabled", KBoolean); ("notifications", "throttle", KNumber);
   ("dashboard", "port", KNumber)].

(** [config[section][name]], [undefined] when the section is missing. *)
Definition field_of (config : gmap string Json) (section name : string)
    : option Json :=
  match config !! section with
  | Some j => prop j name
  | None => None
  end.

(** Every checked key that is set holds a value of its kind. *)
Definition well_typed (config : gmap string Json) : Prop :=
  (forall name v, name ∈ ["watchPaths"; "ignored"; "extensions"] ->
     config !! name = Some v -> has_kind KArray v = true) /\
  (forall section name kind v, (section, name, kind) ∈ checked_fields ->
     field_of config section name = Some v -> has_kind kind v = true).

Lemma complain_nil (cond : bool) (message : string) :
  complain cond message = [] -> cond = false.
Proof. by destruct cond. Qed.

Lemma check_array (v : option Json) (j : Json) :
  v = Some j -> defined v && negb (isArray v) = false ->
  has_kind KArray j = true.
Proof. intros -> H. by destruct j. Qed.

Lemma check_typeof (kind : Kind) (v : option Json) (j : Json) :
  v = Some j ->
  defined v
  && negb (bool_decide (typeof v
                        = match kind with
                          | KBoolean => "boolean" | _ => "number" end)) = false ->
  kind <> KArray ->
  has_kind kind j = true.
Proof.
  intros -> H Hk. simpl in H. apply negb_false_iff, bool_decide_eq_true in H.
  destruct kind, j; try done.
Qed.

(** What passing validation says about the user's configuration. *)
Lemma validateConfig_passes (config : Json) :
  validateConfig config = Some [] ->
  (forall name v, name ∈ ["watchPaths"; "ignored"; "extensions"] ->
     prop config name = Some v -> has_kind KArray v = true) /\
  (forall section s,
     section ∈ ["autoFix"; "ralph"; "notifications"; "dashboard"] ->
     prop config section = Some s ->
     (exists l, s = JArr l) \/ (exists m, s = JObj m)) /\
  (forall section name kind s v, (section, name, kind) ∈ checked_fields ->
     prop config section = Some s -> prop s name = Some v ->
     has_kind kind v = true).
Proof.
  intros H. destruct config as [ |b|q|s|l|m]; try done.
  unfold validateConfig in H. cbn [member prop mbind option_bind] in H.
  apply bind_Some in H as (e1 & H1 & H).
  apply bind_Some in H as (e2 & H2 & H).
  apply bind_Some in H as (e3 & H3 & H).
  apply bind_Some in H as (e4 & H4 & H).
  injection H as H.
  apply app_eq_nil in H as [T1 H]. apply app_eq_nil in H as [T2 H].
  apply app_eq_nil in H as [T3 H]. apply app_eq_nil in H as [-> H].
  apply app_eq_nil in H as [-> H]. apply app_eq_nil in H as [-> ->].
  apply complain_nil in T1, T2, T3.
  split_and!.
  - intros name v Hname Hv. simpl in Hv.
    repeat (apply elem_of_cons in Hname as [->|Hname];
            [eapply check_array; eassumption|]).
    by apply elem_of_nil in Hname.
  - intros section s Hsection Hs. simpl in Hs.
    repeat (apply elem_of_cons in Hsection as [->|Hsection];
            [rewrite Hs in *; destruct s; simpl in *; try discriminate; eauto|]).
    by apply elem_of_nil in Hsection.
  - intros section name kind s v Hfield Hs Hv. simpl in Hs.
    unfold checked_fields in Hfield.
    repeat (apply elem_of_cons in Hfield as [[= -> -> ->]|Hfield];
            [rewrite Hs in *; destruct s as [ |?|?|?|?|ms]; simpl in *;
             try discriminate;
             match goal with
             | H : Some (_ ++ _) = Some [] |- _ =>
                 injection H as H;
                 repeat (apply app_eq_nil in H as [? H]);
                 repeat match goal with
                        | C : complain _ _ = [] |- _ => apply complain_nil in C
                        end
             | H : Some (complain _ _) = Some [] |- _ =>
                 injection H as H; apply complain_nil in H
             end;
             first [ eapply check_array; eassumption
                   | eapply (check_typeof KBoolean); [eassumption..|done]
                   | eapply (check_typeof KNumber); [eassumption..|done] ] |]).
    by apply elem_of_nil in Hfield.
Qed.

(** X15: validation protects the merged configuration.  When the user's
    configuration passes [validateConfig] without a message and the
    defaults hold, under every key the validation checks, a value of the
    kind it checks for, then so does the configuration [mergeConfig]
    makes of the two: [watchPaths], [ignored], [extensions] and
    [autoFix.safePatterns] are arrays, [autoFix.backupFiles],
    [autoFix.verifyAfterFix] and [notifications.enabled] booleans,
    [ralph.maxCycles], [ralph.budgetWarning], [ralph.budgetHard],
    [notifications.throttle] and [dashboard.port] numbers, wherever
    they are set. *)
Theorem validated_config_stays_well_typed (defaults : gmap string Json)
    (userConfig : Json) (merged : gmap string Json) :
  validateConfig userConfig = Some [] ->
  mergeConfig defaults userConfig = Some merged ->
  well_typed defaults ->
  well_typed merged.
Proof.
  intros Hvalid Hmerge [Dtop Dfields].
  destruct (truthy userConfig) eqn:Htruthy.
  2:{ unfold mergeConfig in Hmerge. rewrite Htruthy in Hmerge.
      injection Hmerge as <-. by split. }
  destruct (validateConfig_passes userConfig Hvalid) as (Vtop & _ & Vfields).
  destruct (mergeConfig_lookup defaults userConfig merged Htruthy Hmerge)
    as (_ & Hplain & Hsections).
  split.
  - intros name v Hname Hv. rewrite (Hplain name Hname) in Hv.
    destruct (truthy_opt (prop userConfig name)); [by eapply Vtop | by eapply Dtop].
  - intros section name kind v Hfield Hv.
    assert (exists inner, (section, inner) ∈ merged_sections /\ (name ∉ inner) /\
                          starts_with_digit name = false) as (inner & Hin & Hout & Hdigit).
    { unfold checked_fields in Hfield.
      repeat (apply elem_of_cons in Hfield as [[= -> -> ->]|Hfield];
              [first [ exists []; split_and!;
                       [by repeat constructor | apply not_elem_of_nil | reflexivity]
                     | exists ["types"]; split_and!;
                       [by repeat constructor
                       | by intros ?%list_elem_of_singleton
                       | reflexivity] ]|]).
      by apply elem_of_nil in Hfield. }
    specialize (Hsections section inner Hin). unfold field_of in Hv.
    destruct (truthy_opt (prop userConfig section)).
    + destruct Hsections as (sec & Hsec & Hkeys).
      rewrite Hsec in Hv. simpl in Hv. rewrite (Hkeys name Hout) in Hv.
      rewrite !spread_named in Hv by exact Hdigit.
      destruct (prop userConfig section) as [s|] eqn:Hs.
      * destruct (prop s name) as [v'|] eqn:Hname.
        -- injection Hv as <-. by eapply Vfields.
        -- eapply Dfields; [exact Hfield|]. exact Hv.
      * eapply Dfields; [exact Hfield|]. exact Hv.
    + rewrite Hsections in Hv. eapply Dfields; [exact Hfield|]. exact Hv.
Qed.

End ValidationFacts.

(** A configuration file that sets the number of cycles and tries to
    move the log directory. *)
Definition sample_defaults : gmap string Settings.Json :=
  {[ "logDir" := Settings.JStr "./qa-reviews";
     "watchPaths" := Settings.JArr [Settings.JStr "./src"];
     "ralph" := Settings.JObj {[ "maxCycles" := Settings.JNum 10;
                                 "budgetHard" := Settings.JNum 20 ]} ]}.

Definition sample_user : Settings.Json :=
  Settings.JObj {[ "logDir" := Settings.JStr "/tmp/logs";
                   "ralph" := Settings.JObj {[ "maxCycles" := Settings.JNum 3 ]} ]}.

Lemma sample_defaults_well_typed : well_typed sample_defaults.
Proof.
  split.
  - intros name v Hname Hv.
    repeat (apply elem_of_cons in Hname as [->|Hname];
            [vm_compute in Hv; try discriminate; by injection Hv as <-|]).
    by apply elem_of_nil in Hname.
  - intros section name kind v Hfield Hv. unfold checked_fields in Hfield.
    repeat (apply elem_of_cons in Hfield as [[= -> -> ->]|Hfield];
            [vm_compute in Hv; try discriminate; by injection Hv as <-|]).
    by apply elem_of_nil in Hfield.
Qed.

Definition sample_merged : gmap string Settings.Json :=
  default ∅ (Settings.mergeConfig sample_defaults sample_user).

Lemma sample_merge :
  Settings.mergeConfig sample_defaults sample_user = Some sample_merged.
Proof. vm_compute. reflexivity. Qed.

Lemma mergeConfig_user_over_defaults_witness :
  sample_merged !! "logDir" = Some (Settings.JStr "./qa-reviews").
Proof.
  destruct (mergeConfig_user_over_defaults _ _ _ sample_merge) as (Hframe & _).
  rewrite Hframe; [reflexivity|].
  unfold Settings.merged_names. intros Hin.
  repeat (apply elem_of_cons in Hin as [Hin|Hin]; [discriminate|]).
  by apply elem_of_nil in Hin.
Defined.

Lemma validated_config_stays_well_typed_witness : well_typed sample_merged.
Proof.
  apply (validated_config_stays_well_typed sample_defaults sample_user);
    [vm_compute; reflexivity | exact sample_merge
    | apply sample_defaults_well_typed].
Defined.

(** * Ignore patterns *)

Section IgnoreFacts.
Import Watcher Summary Ignore.

(** X16: later lines of [.qaignore] override earlier ones.  Whether a file
    is ignored is decided by the last pattern that matches its path,
    with backslashes read as slashes: it is ignored when that pattern
    is a plain one, reviewed when it is a negation, and reviewed when no
    pattern matches. *)
Theorem isFileIgnored_last_match_decides (patterns : list IgnorePattern)
    (filePath : string) :
  isFileIgnored patterns filePath
  = match last (List.filter (fun p => test (regex p) (slashes filePath))
                            patterns) with
    | Some p => negb (negation p)
    | None => false
    end.
Proof.
  unfold isFileIgnored.
  destruct patterns as [|p0 patterns]; [reflexivity|].
  change (length (p0 :: patterns) =? 0)%nat with false. cbv iota.
  generalize (p0 :: patterns). clear. intros patterns.
  induction patterns as [|p patterns IH] using rev_ind; [reflexivity|].
  rewrite foldl_app, List.filter_app. simpl.
  destruct (test (regex p) (slashes filePath)).
  - by rewrite last_snoc.
  - by rewrite app_nil_r.
Qed.

Lemma all_chars_app (P : ascii -> bool) (a b : string) :
  all_chars P (a ++ b)%string = all_chars P a && all_chars P b.
Proof.
  induction a as [|c a IH]; [reflexivity|].
  rewrite append_cons. simpl. by rewrite IH, andb_assoc.
Qed.

Lemma all_chars_impl (P Q : ascii -> bool) (s : string) :
  (forall c, P c = true -> Q c = true) ->
  all_chars P s = true -> all_chars Q s = true.
Proof.
  intros HPQ. induction s as [|c s IH]; simpl; [done|].
  intros [Hc Hs]%andb_true_iff. by rewrite (HPQ c Hc), IH.
Qed.

Lemma rev_app_chars (P : ascii -> bool) (a b : string) :
  all_chars P (String.rev_app a b) = all_chars P a && all_chars P b.
Proof.
  revert b. induction a as [|c a IH]; intros b; simpl; [reflexivity|].
  rewrite IH. simpl. destruct (P c), (all_chars P a); reflexivity.
Qed.

Lemma rev_chars (P : ascii -> bool) (s : string) :
  all_chars P (String.rev s) = all_chars P s.
Proof. unfold String.rev. rewrite rev_app_chars. simpl. by rewrite andb_true_r. Qed.

Lemma prefix_cons (a b : ascii) (p s : string) :
  String.prefix (String a p) (String b s) = Ascii.eqb a b && String.prefix p s.
Proof.
  cbn [String.prefix]. destruct (Ascii.ascii_dec a b) as [->|Hne].
  - by rewrite Ascii.eqb_refl.
  - apply Ascii.eqb_neq in Hne. by rewrite Hne.
Qed.

Lemma prefix_nil (s : string) : String.prefix "" s = true.
Proof. by destruct s. Qed.

Lemma prefix_first (pat s : string) (c : ascii) (P : ascii -> bool) :
  String.prefix (String c pat) s = true -> all_chars P s = true -> P c = true.
Proof.
  destruct s as [|x s]; [done|]. rewrite prefix_cons.
  intros [Hc _]%andb_true_iff. apply Ascii.eqb_eq in Hc as ->.
  simpl. by intros [H _]%andb_true_iff.
Qed.

Lemma replace_from_absent (pat rep s : string) (c : ascii) :
  all_chars (fun x => negb (Ascii.eqb x c)) s = true ->
  replace_from (String c pat) rep 0 s = s.
Proof.
  induction s as [|x s IH]; [reflexivity|].
  intros Hs. pose proof Hs as [Hx Hrest]%andb_true_iff.
  cbn [replace_from].
  destruct (String.prefix (String c pat) (String x s)) eqn:Hp.
  - pose proof (prefix_first _ _ _ _ Hp Hs) as Hc. simpl in Hc.
    by rewrite Ascii.eqb_refl in Hc.
  - by rewrite IH.
Qed.

Lemma replace_char_keeps (c : ascii) (rep s : string) :
  all_chars (fun x => negb (Ascii.eqb x c)) s = true ->
  replace_char c rep s = s.
Proof.
  induction s as [|x s IH]; [reflexivity|]. simpl.
  intros [Hx Hs]%andb_true_iff. apply negb_true_iff in Hx.
  by rewrite Hx, IH.
Qed.

Lemma escapeSpecials_keeps (s : string) :
  all_chars (fun x => negb (special x)) s = true -> escapeSpecials s = s.
Proof.
  induction s as [|x s IH]; [reflexivity|]. simpl.
  intros [Hx Hs]%andb_true_iff. apply negb_true_iff in Hx.
  by rewrite Hx, IH.
Qed.

(** ** A name without wild cards *)

Lemma plain_not (c x : ascii) :
  plain c = true ->
  x ∈ list_ascii_of_string ".+^${}()|[]\*?/#!" ->
  Ascii.eqb c x = false.
Proof.
  intros Hc Hx. apply Ascii.eqb_neq. intros ->. revert Hc.
  simpl in Hx.
  repeat (apply elem_of_cons in Hx as [->|Hx]; [by vm_compute|]).
  by apply elem_of_nil in Hx.
Qed.

Lemma plain_keeps (p : string) (x : ascii) :
  all_chars plain p = true ->
  x ∈ list_ascii_of_string ".+^${}()|[]\*?/#!" ->
  all_chars (fun c => negb (Ascii.eqb c x)) p = true.
Proof.
  intros Hp Hx. eapply all_chars_impl; [|exact Hp].
  intros c Hc. simpl. by rewrite (plain_not c x Hc Hx).
Qed.

Lemma plain_not_special (p : string) :
  all_chars plain p = true ->
  all_chars (fun x => negb (special x)) p = true.
Proof.
  apply all_chars_impl. intros c Hc. unfold plain, meta in Hc.
  by destruct (special c).
Qed.

Ltac in_chars := simpl; repeat first [by left | right].

Lemma patternToRegex_source_plain (p : string) :
  all_chars plain p = true ->
  patternToRegex_source p = ("(^|/)" ++ p ++ "($|/)")%string.
Proof.
  intros Hp. unfold patternToRegex_source.
  assert (dropTrailingSlash p = p) as ->.
  { unfold dropTrailingSlash, endsWith.
    pose proof (plain_keeps p "/" Hp ltac:(in_chars)) as Hs.
    rewrite <- rev_chars in Hs. change (String.rev "/") with "/".
    destruct (String.rev p) as [|c r]; [reflexivity|].
    simpl in Hs. apply andb_true_iff in Hs as [Hc _].
    apply negb_true_iff in Hc.
    rewrite prefix_cons, Ascii.eqb_sym, Hc. reflexivity. }
  assert (startsWith "/" p = false) as ->.
  { unfold startsWith. destruct p as [|c r]; [reflexivity|].
    simpl in Hp. apply andb_true_iff in Hp as [Hc _].
    pose proof (plain_not c "/" Hc ltac:(in_chars)) as Hne.
    by rewrite prefix_cons, Ascii.eqb_sym, Hne. }
  cbv zeta. cbv iota.
  rewrite (escapeSpecials_keeps p (plain_not_special p Hp)).
  unfold replaceAll.
  rewrite (replace_from_absent "*" _ p "*") by (apply plain_keeps; [done|in_chars]).
  rewrite (replace_char_keeps "*" _ p) by (apply plain_keeps; [done|in_chars]).
  rewrite (replace_from_absent "{GLOBSTAR}}" _ p "{")
    by (apply plain_keeps; [done|in_chars]).
  rewrite (replace_char_keeps "?" _ p) by (apply plain_keeps; [done|in_chars]).
  by rewrite append_assoc.
Qed.

Lemma parse_step (fuel : nat) (source : string) :
  parse (S fuel) source
  = if bool_decide (source = "") then Some []
    else if String.prefix "(^|/)" source then
      cons StartOrSlash <$> parse fuel (slice 5 source)
    else if String.prefix "($|/)" source then
      cons EndOrSlash <$> parse fuel (slice 5 source)
    else if String.prefix "[^/]*" source then
      cons NotSlashes <$> parse fuel (slice 5 source)
    else if String.prefix ".*" source then
      cons AnyChars <$> parse fuel (slice 2 source)
    else
      match source with
      | EmptyString => Some []
      | String c r =>
          if Ascii.eqb c "." then cons AnyChar <$> parse fuel r
          else if Ascii.eqb c "^" then cons LineStart <$> parse fuel r
          else if Ascii.eqb c "\" then
            match r with
            | String e r' =>
                if special e then cons (Literal e) <$> parse fuel r'
                else None
            | EmptyString => None
            end
          else if meta c then None
          else cons (Literal c) <$> parse fuel r
      end.
Proof. reflexivity. Qed.

Lemma plain_not_meta (c : ascii) : plain c = true -> meta c = false.
Proof. unfold plain. by destruct (meta c). Qed.

Lemma parse_literals (p rest : string) (n : nat) :
  all_chars plain p = true ->
  (forall c r, rest = String c r -> plain c = false) ->
  parse (String.length p + n) (p ++ rest)%string
  = app (literals p) <$> parse n rest.
Proof.
  intros Hp Hrest. induction p as [|c p IH].
  - change ("" ++ rest)%string with rest. simpl. by destruct (parse n rest).
  - simpl in Hp. apply andb_true_iff in Hp as [Hc Hp].
    rewrite append_cons. cbn [String.length Nat.add]. 
    rewrite parse_step.
    rewrite bool_decide_false by (intros; discriminate).
    rewrite !prefix_cons.
    assert (Ascii.eqb c "(" = false) as H1 by (apply plain_not; [done|in_chars]).
    assert (Ascii.eqb c "[" = false) as H2 by (apply plain_not; [done|in_chars]).
    assert (Ascii.eqb c "." = false) as H3 by (apply plain_not; [done|in_chars]).
    assert (Ascii.eqb c "^" = false) as H4 by (apply plain_not; [done|in_chars]).
    assert (Ascii.eqb c "\" = false) as H5 by (apply plain_not; [done|in_chars]).
    rewrite (Ascii.eqb_sym "(" c), (Ascii.eqb_sym "[" c), (Ascii.eqb_sym "." c).
    rewrite H1, H2, H3, H4, H5, (plain_not_meta c Hc). cbn [andb].
    rewrite (IH Hp). destruct (parse n rest); reflexivity.
Qed.

Lemma patternToRegex_plain (p : string) :
  all_chars plain p = true ->
  patternToRegex p = Some (StartOrSlash :: literals p ++ [EndOrSlash]).
Proof.
  intros Hp. unfold patternToRegex, RegExp.
  rewrite (patternToRegex_source_plain p Hp).
  rewrite !append_cons. cbn [String.length]. rewrite parse_step.
  rewrite bool_decide_false by done.
  rewrite !prefix_cons, prefix_nil. cbn [Ascii.eqb Bool.eqb andb slice].
  change ("" ++ (p ++ "($|/)"))%string with (p ++ "($|/)")%string.
  assert (String.length (p ++ "($|/)") = String.length p + 5)%nat as ->.
  { induction p as [|c p IH]; [reflexivity|].
    rewrite append_cons. simpl in *. apply andb_true_iff in Hp as [_ Hp].
    by rewrite (IH Hp). }
  replace (S (S (S (S (S (String.length p + 5))))))
    with (String.length p + 10)%nat by lia.
  rewrite parse_literals; [|done|by intros c r [= <- _]].
  assert (parse 10 "($|/)" = Some [EndOrSlash]) as -> by by vm_compute.
  reflexivity.
Qed.

(** ** The parts of a path *)

Lemma components_cons (path : string) :
  exists first others, components path = first :: others.
Proof.
  induction path as [|c r (first & others & IH)]; simpl; [by eauto|].
  destruct (Ascii.eqb c "/"); [by eauto|]. rewrite IH. by eauto.
Qed.

Lemma match_name_here (p s : string) (b : bool) :
  all_chars not_slash p = true ->
  match_here (literals p ++ [EndOrSlash]) s b
  = bool_decide (head (components s) = Some p).
Proof.
  intros Hp. revert s b. induction p as [|c p IH]; intros s b.
  - destruct s as [|x r]; simpl; [done|].
    rewrite andb_true_r.
    destruct (Ascii.eqb x "/") eqn:Hx; simpl; [done|].
    destruct (components_cons r) as (first & others & ->). simpl.
    done.
  - simpl in Hp. apply andb_true_iff in Hp as [Hc Hp].
    unfold not_slash in Hc. apply negb_true_iff in Hc.
    destruct s as [|x r]; [by rewrite bool_decide_false|].
    change (match_here (literals (String c p) ++ [EndOrSlash]) (String x r) b)
      with (Ascii.eqb x c && match_here (literals p ++ [EndOrSlash]) r false).
    rewrite (IH Hp). simpl.
    destruct (components_cons r) as (first & others & ->). simpl.
    destruct (Ascii.eqb x "/") eqn:Hx.
    + apply Ascii.eqb_eq in Hx as ->. rewrite Ascii.eqb_sym, Hc. simpl.
      done.
    + simpl. destruct (Ascii.eqb x c) eqn:Hxc; simpl.
      * apply Ascii.eqb_eq in Hxc as ->. apply bool_decide_ext. naive_solver.
      * apply Ascii.eqb_neq in Hxc. rewrite bool_decide_false; [done|].
        naive_solver.
Qed.

Lemma search_name_after (p s : string) :
  all_chars not_slash p = true ->
  search (StartOrSlash :: literals p ++ [EndOrSlash]) s false
  = bool_decide (p ∈ tail (components s)).
Proof.
  intros Hp. induction s as [|x r IH].
  - done.
  - cbn [search]. rewrite IH.
    change (match_here (StartOrSlash :: literals p ++ [EndOrSlash])
              (String x r) false)
      with (false && match_here (literals p ++ [EndOrSlash]) (String x r) false
            || Ascii.eqb x "/"
               && match_here (literals p ++ [EndOrSlash]) r false).
    rewrite (match_name_here p r false Hp). simpl.
    destruct (components_cons r) as (first & others & ->). simpl.
    destruct (Ascii.eqb x "/"); simpl; [|done].
    destruct (decide (first = p)) as [->|Hne].
    + rewrite bool_decide_true by done. simpl. symmetry.
      apply bool_decide_true. by left.
    + rewrite (bool_decide_false (Some first = Some p)) by naive_solver.
      simpl. apply bool_decide_ext. rewrite elem_of_cons. naive_solver.
Qed.

Lemma test_name (p s : string) :
  all_chars not_slash p = true ->
  test (StartOrSlash :: literals p ++ [EndOrSlash]) s
  = bool_decide (p ∈ components s).
Proof.
  intros Hp. unfold test.
  assert (search (StartOrSlash :: literals p ++ [EndOrSlash]) s true
          = match_here (literals p ++ [EndOrSlash]) s true
            || search (StartOrSlash :: literals p ++ [EndOrSlash]) s false) as ->.
  { destruct s as [|x r]; cbn [search].
    - simpl. by rewrite !orb_false_r.
    - change (match_here (StartOrSlash :: literals p ++ [EndOrSlash])
                (String x r) true)
        with (true && match_here (literals p ++ [EndOrSlash]) (String x r) true
              || Ascii.eqb x "/"
                 && match_here (literals p ++ [EndOrSlash]) r false).
      change (match_here (StartOrSlash :: literals p ++ [EndOrSlash])
                (String x r) false)
        with (false && match_here (literals p ++ [EndOrSlash]) (String x r) false
              || Ascii.eqb x "/"
                 && match_here (literals p ++ [EndOrSlash]) r false).
      simpl. by rewrite orb_assoc. }
  rewrite (match_name_here p s true Hp), (search_name_after p s Hp).
  destruct (components_cons s) as (first & others & ->). simpl.
  destruct (decide (first = p)) as [->|Hne].
  - rewrite bool_decide_true by done. simpl. symmetry.
    apply bool_decide_true. by left.
  - rewrite (bool_decide_false (Some first = Some p)) by naive_solver.
    simpl. apply bool_decide_ext. rewrite elem_of_cons. naive_solver.
Qed.

(** ** Reading a one-line file *)

Lemma rev_app_rev_app (a b c : string) :
  String.rev_app (String.rev_app a b) c = String.rev_app b (a ++ c)%string.
Proof.
  revert b c. induction a as [|x a IH]; intros b c; [reflexivity|].
  simpl. rewrite IH. by rewrite append_cons.
Qed.

Lemma rev_rev (s : string) : String.rev (String.rev s) = s.
Proof.
  unfold String.rev. rewrite rev_app_rev_app. simpl.
  induction s as [|x s IH]; [reflexivity|]. by rewrite append_cons, IH.
Qed.

Lemma trimStart_keeps (s : string) :
  all_chars (fun c => negb (is_space c)) s = true -> trimStart s = s.
Proof.
  destruct s as [|c r]; [reflexivity|]. simpl.
  intros [Hc _]%andb_true_iff. apply negb_true_iff in Hc. by rewrite Hc.
Qed.

Lemma trim_keeps (s : string) :
  all_chars (fun c => negb (is_space c)) s = true -> trim s = s.
Proof.
  intros Hs. unfold trim. rewrite (trimStart_keeps s Hs).
  rewrite trimStart_keeps by by rewrite rev_chars.
  apply rev_rev.
Qed.

Lemma split_lines_single (line s : string) :
  all_chars (fun c => negb (is_space c)) s = true ->
  split_lines_from line s = [String.rev_app line s].
Proof.
  revert line. induction s as [|c r IH]; intros line; [reflexivity|].
  simpl. intros [Hc Hr]%andb_true_iff.
  rewrite bool_decide_false.
  - by rewrite (IH _ Hr).
  - intros Hnl. unfold is_space in Hc. rewrite Hnl in Hc.
    by vm_compute in Hc.
Qed.

Lemma plain_not_space (p : string) :
  all_chars plain p = true ->
  all_chars (fun c => negb (is_space c)) p = true.
Proof.
  apply all_chars_impl. intros c Hc. unfold plain in Hc.
  by destruct (is_space c), (meta c), (Ascii.eqb c "/").
Qed.

Lemma plain_not_slash (p : string) :
  all_chars plain p = true -> all_chars not_slash p = true.
Proof.
  apply all_chars_impl. intros c Hc. unfold plain in Hc. unfold not_slash.
  by destruct (Ascii.eqb c "/"), (meta c).
Qed.

(** X17: a bare name in [.qaignore] ignores what lies under that name.
    When the file holds one line that is a name without wild cards,
    separators, blanks or special characters, a path is ignored exactly
    when one of its parts, directory or file, is that name. *)
Theorem name_in_qaignore_ignores_paths_through_it (name : string) :
  name <> "" ->
  all_chars plain name = true ->
  exists patterns,
    loadQaIgnore (Some name) = Some patterns /\
    forall filePath,
      isFileIgnored patterns filePath
      = bool_decide (name ∈ components (slashes filePath)).
Proof.
  intros Hne Hp.
  exists [ {| pattern := name; negation := false;
              regex := StartOrSlash :: literals name ++ [EndOrSlash] |} ].
  split.
  - unfold loadQaIgnore, split_lines.
    rewrite (split_lines_single "" name (plain_not_space name Hp)).
    cbn [String.rev_app foldl]. unfold parse_line. cbn [mbind option_bind].
    rewrite (trim_keeps name (plain_not_space name Hp)).
    rewrite bool_decide_false by done.
    assert (startsWith "#" name = false) as ->.
    { unfold startsWith. destruct name as [|c r]; [done|].
      simpl in Hp. apply andb_true_iff in Hp as [Hc _].
      by rewrite prefix_cons, Ascii.eqb_sym, (plain_not c "#" Hc) by in_chars. }
    assert (startsWith "!" name = false) as ->.
    { unfold startsWith. destruct name as [|c r]; [done|].
      simpl in Hp. apply andb_true_iff in Hp as [Hc _].
      by rewrite prefix_cons, Ascii.eqb_sym, (plain_not c "!" Hc) by in_chars. }
    cbn [orb]. cbv zeta. cbv iota.
    by rewrite (patternToRegex_plain name Hp).
  - intros filePath. unfold isFileIgnored. simpl.
    rewrite (test_name name _ (plain_not_slash name Hp)).
    by destruct (bool_decide _).
Qed.

(** ** The ignore list of the configuration *)

Lemma matches_ignored_hit (before after : list string) (pattern : string)
    (r : Regex) (path : string) :
  Forall (fun q => is_Some (RegExp (ignoredToRegex_source q))) before ->
  RegExp (ignoredToRegex_source pattern) = Some r ->
  test r path = true ->
  matches_ignored (before ++ pattern :: after) path = Some true.
Proof.
  intros Hbefore Hr Htest.
  induction Hbefore as [|q before [rq Hq] _ IH]; simpl.
  - by rewrite Hr; simpl; rewrite Htest.
  - rewrite Hq. simpl. by destruct (test rq path).
Qed.

Lemma search_app (r : Regex) (a s : string) (b : bool) :
  (forall f, match_here r s f = true) ->
  search r (a ++ s)%string b = true.
Proof.
  intros Hs. revert b. induction a as [|x a IH]; intros b.
  - change ("" ++ s)%string with s. destruct s; simpl; by rewrite Hs.
  - rewrite append_cons. cbn [search]. rewrite IH. apply orb_true_r.
Qed.

Lemma star_skip (class : ascii -> bool) (k : string -> bool -> bool)
    (b t : string) :
  all_chars class b = true ->
  (forall f, k t f = true) ->
  forall f, star class k (b ++ t)%string f = true.
Proof.
  intros Hb Hk. induction b as [|x b IH]; intros f.
  - change ("" ++ t)%string with t. destruct t; simpl; by rewrite Hk.
  - simpl in Hb. apply andb_true_iff in Hb as [Hx Hb].
    rewrite append_cons. cbn [star]. rewrite Hx, (IH Hb). apply orb_true_r.
Qed.

(** X18: the ignore list the script starts with skips more than logs and
    documents.  The entries [**/*.log] and [**/*.md] become expressions
    in which the dot stands for any character and the first [**] for
    one character and the rest of a directory name; so a file of any
    extension is left out of the review as soon as its path holds a
    slash after at least one character and then, after the slash, [log]
    or [md] preceded by one character and, before that, no other
    slash. *)
Theorem default_ignored_skips_names_holding_log_or_md
    (extname : string -> string) (extensions : list string)
    (loadedIgnorePatterns : list IgnorePattern)
    (filePath a b word rest : string) (x c : ascii) :
  slashes filePath
  = (a ++ String x ("/" ++ b ++ String c (word ++ rest)))%string ->
  word ∈ ["log"; "md"] ->
  not_newline x = true ->
  not_newline c = true ->
  all_chars not_slash b = true ->
  shouldReviewFile extname extensions default_ignored loadedIgnorePatterns
    filePath = Some false.
Proof.
  intros Hpath Hword Hx Hc Hb. unfold shouldReviewFile.
  destruct (negb (bool_decide (extname filePath ∈ extensions))); [done|].
  rewrite Hpath.
  enough (matches_ignored default_ignored
            (a ++ String x ("/" ++ b ++ String c (word ++ rest)))%string
          = Some true) as -> by done.
  apply elem_of_cons in Hword as [->|Hword];
    [|apply list_elem_of_singleton in Hword as ->].
  - apply (matches_ignored_hit (take 14 default_ignored) (drop 15 default_ignored)
             "**/*.log"
             [AnyChar; NotSlashes; Literal "/"; NotSlashes; AnyChar;
              Literal "l"; Literal "o"; Literal "g"]).
    + repeat (apply Forall_cons; split; [by vm_compute; eexists|]).
      apply Forall_nil_2.
    + by vm_compute.
    + apply search_app. intros f.
      cbn [match_here]. rewrite Hx. cbn [andb].
      change ("/" ++ b ++ String c ("log" ++ rest))%string
        with ("" ++ String "/" (b ++ String c ("log" ++ rest)))%string.
      apply star_skip; [done|]. intros _. cbn [Ascii.eqb Bool.eqb andb].
      apply star_skip; [done|]. intros _.
      by rewrite Hc.
  - apply (matches_ignored_hit (take 15 default_ignored) (drop 16 default_ignored)
             "**/*.md"
             [AnyChar; NotSlashes; Literal "/"; NotSlashes; AnyChar;
              Literal "m"; Literal "d"]).
    + repeat (apply Forall_cons; split; [by vm_compute; eexists|]).
      apply Forall_nil_2.
    + by vm_compute.
    + apply search_app. intros f.
      cbn [match_here]. rewrite Hx. cbn [andb].
      change ("/" ++ b ++ String c ("md" ++ rest))%string
        with ("" ++ String "/" (b ++ String c ("md" ++ rest)))%string.
      apply star_skip; [done|]. intros _. cbn [Ascii.eqb Bool.eqb andb].
      apply star_skip; [done|]. intros _.
      by rewrite Hc.
Qed.

End IgnoreFacts.

(** A project that ignores its [dist] directory. *)
Lemma name_in_qaignore_ignores_paths_through_it_witness :
  exists patterns,
    Ignore.loadQaIgnore (Some "dist") = Some patterns /\
    forall filePath,
      Ignore.isFileIgnored patterns filePath
      = bool_decide ("dist" ∈ Ignore.components (Watcher.slashes filePath)).
Proof.
  apply (name_in_qaignore_ignores_paths_through_it "dist"); [done|reflexivity].
Defined.

(** The logger of a project is not reviewed. *)
Lemma default_ignored_skips_names_holding_log_or_md_witness :
  Ignore.shouldReviewFile (fun _ => ".ts") [".ts"; ".js"] Ignore.default_ignored []
    "src/utils/logger.ts" = Some false.
Proof.
  apply (default_ignored_skips_names_holding_log_or_md _ _ _
           "src/utils/logger.ts" "sr" "utils" "log" "ger.ts" "c" "/").
  - reflexivity.
  - by left.
  - reflexivity.
  - reflexivity.
  - reflexivity.
Defined.

(** * Installing the hook *)

Section HookFacts.
Import Hook.

(** X19: installing the hook keeps the hook it replaces, once.  In a git
    repository the script leaves its own hook in place and the previous
    one, if there was one, in the backup file, where an older backup is
    overwritten; so after a second run the backup is the script's own
    hook and no longer the one the user had.  Outside a git repository
    it exits with code 1 and changes nothing. *)
Theorem install_keeps_the_previous_hook_once (d : Disk) :
  (gitDir d = false -> main d = (Some 1%Z, d)) /\
  (gitDir d = true ->
   (main d).1 = None /\
   hook (main d).2 = Some HOOK_CONTENT /\
   backup (main d).2 = (if hook d is Some previous then Some previous
                        else backup d) /\
   backup (main (main d).2).2 = Some HOOK_CONTENT).
Proof.
  destruct d as [git hooks h b]. unfold main. simpl. split.
  - by intros ->.
  - intros ->. simpl. by destruct hooks, h.
Qed.

End HookFacts.

(** * Concrete scenarios *)

Section Scenarios.
Import Watcher.
Local Open Scope js_scope.

Definition console_log_issue : Issue :=
  {| i_file := "a.ts"; i_line := 10; i_severity := "medium";
     i_type := "console-log"; i_message := "console.log left in";
     i_current := Some "console.log(1)"; i_fix := Some "remove";
     i_autoFixable := Some true |}.

(** The issue of the spec's completion scenario. *)
Definition api_key_issue : Issue :=
  {| i_file := "a.ts"; i_line := 10; i_severity := "critical";
     i_type := "api-key"; i_message := "hard-coded API key";
     i_current := None; i_fix := None; i_autoFixable := Some false |}.

(** The same finding as [console_log_issue], reported without an
    [autoFixable] flag. *)
Definition unflagged_issue : Issue :=
  {| i_file := "a.ts"; i_line := 10; i_severity := "medium";
     i_type := "console-log"; i_message := "console.log left in";
     i_current := Some "console.log(1)"; i_fix := Some "remove";
     i_autoFixable := None |}.

Definition found (l : list Issue) (cost : Q) : ReviewResult :=
  {| r_issues := Some l; r_totalIssues := Some (Z.of_nat (length l));
     r_cost := Some cost |}.

(** An engine whose detection always reports [l] at [cost] and whose
    fix replaces the file by [edited] and reports success at [cost]. *)
Definition engine (l : list Issue) (cost : Q) (edited : string) : Env :=
  {| review_process := fun _ _ _ => inl (found l cost);
     fix_process := fun _ file _ fs =>
       (inl {| f_fixed := true; f_cost := Some cost |}, <[file := edited]> fs);
     sigint := fun _ => false;
     clock := fun n => Z.of_nat n;
     dashboard := true;
     dashboard_listens := true |}.



(** An engine whose detection times out twice and then answers. *)
Definition flaky_engine : Env :=
  {| review_process := fun n _ _ =>
       if (n <? 4)%nat then inr (ErrorObject (Some "Review timed out"))
       else inl (found [] 0.1);
     fix_process := fun _ _ _ fs =>
       (inl {| f_fixed := false; f_cost := None |}, fs);
     sigint := fun _ => false;
     clock := fun n => Z.of_nat n;
     dashboard := false;
     dashboard_listens := false |}.

Definition three_cycles : Config :=
  {| maxCycles := 3; budgetWarning := 5; budgetHard := 20;
     backupFiles := true; verifyAfterFix := true;
     safePatterns := ["hardcoded-localhost"; "console-log"; "debugger-statement"];
     dashboardEnabled := true |}.

Definition one_file : Files := {[ "a.ts" := "console.log(1)" ]}.

Lemma totalCost_never_decreases_witness :
  Sorted Qle
    (w_costs (runRalphMode (engine [console_log_issue] 0.1 "") three_cycles
                ["a.ts"] (initialWorld one_file)).2).
Proof.
  apply (totalCost_never_decreases (engine [console_log_issue] 0.1 "")
           three_cycles ["a.ts"] one_file).
  split.
  - intros n files fs r q Hr Hq. simpl in Hr. injection Hr as <-.
    simpl in Hq. injection Hq as <-. vm_compute. discriminate.
  - intros n file issues fs r q Hr Hq. simpl in Hr. injection Hr as <-.
    simpl in Hq. injection Hq as <-. vm_compute. discriminate.
Defined.

(** C2 as the spec words it fails when the engine reports a negative
    cost: nothing checks the sign of the [total_cost_usd] a detection
    or a fix reports, and [totalCost += detection._cost || 0] adds it as
    it is.  With a detection that reports a cost of -1 the script's
    total goes from 0 to -1, and so does the dashboard's on
    [detection_complete]. *)
Lemma negative_cost_lowers_totalCost :
  review_process (engine [api_key_issue] (-1) "") 1 ["a.ts"] one_file
  = inl (found [api_key_issue] (-1)) /\
  w_costs (runRalphMode (engine [api_key_issue] (-1) "") three_cycles
             ["a.ts"] (initialWorld one_file)).2
  = [0; -1]%Q /\
  w_dash_costs (runRalphMode (engine [api_key_issue] (-1) "") three_cycles
                  ["a.ts"] (initialWorld one_file)).2
  = [0; 0; 0; 0; -1; -1; -1]%Q /\
  ~ Sorted Qle
      (w_costs (runRalphMode (engine [api_key_issue] (-1) "") three_cycles
                  ["a.ts"] (initialWorld one_file)).2) /\
  ~ Sorted Qle
      (w_dash_costs (runRalphMode (engine [api_key_issue] (-1) "") three_cycles
                       ["a.ts"] (initialWorld one_file)).2).
Proof.
  assert (w_costs (runRalphMode (engine [api_key_issue] (-1) "") three_cycles
                     ["a.ts"] (initialWorld one_file)).2
          = [0; -1]%Q) as Hscript by (vm_compute; reflexivity).
  assert (w_dash_costs (runRalphMode (engine [api_key_issue] (-1) "")
                          three_cycles ["a.ts"] (initialWorld one_file)).2
          = [0; 0; 0; 0; -1; -1; -1]%Q) as Hdash by (vm_compute; reflexivity).
  split_and!; [reflexivity | exact Hscript | exact Hdash | |].
  - rewrite Hscript. intros H. inversion H as [|? ? _ Hhd]; subst.
    inversion Hhd as [|? ? Hle]; subst. by vm_compute in Hle.
  - rewrite Hdash. intros H.
    do 3 (inversion H as [|? ? H' _]; subst; clear H; rename H' into H).
    inversion H as [|? ? _ Hhd]; subst.
    inversion Hhd as [|? ? Hle]; subst. by vm_compute in Hle.
Qed.

Lemma withRetry_policy_witness :
  (withRetry flaky_engine (executeClaudeReview flaky_engine ["a.ts"]) 3 1000
     (initialWorld one_file)).1
  = Returned (found [] 0.1) /\
  w_trace (withRetry flaky_engine (executeClaudeReview flaky_engine ["a.ts"])
             3 1000 (initialWorld one_file)).2
  = [SpawnedReview ["a.ts"]; Slept 1000; SpawnedReview ["a.ts"]; Slept 2000;
     SpawnedReview ["a.ts"]].
Proof.
  edestruct (withRetry_policy flaky_engine
               (executeClaudeReview flaky_engine ["a.ts"]) 3 1000 2
               (initialWorld one_file)) as (Hreturns & _).
  - eapply one_more_failure;
      [eapply one_more_failure; [apply no_failure | reflexivity | reflexivity]
      | reflexivity | reflexivity].
  - rewrite (Hreturns (found [] 0.1) _ ltac:(lia) eq_refl).
    split; reflexivity.
Defined.


Lemma three_cycles_then_stopped_witness :
  (runRalphMode (engine [console_log_issue] 0.1 "") three_cycles ["a.ts"]
     (initialWorld one_file)).1
  = Returned (RunEnded "stopped" (Some "Max cycles reached") None).
Proof.
  apply (three_cycles_then_stopped (engine [console_log_issue] 0.1 "")
           three_cycles ["a.ts"] one_file).
  - reflexivity.
  - discriminate.
  - intros n files fs. exists (found [console_log_issue] 0.1), console_log_issue.
    by split_and!.
  - reflexivity.
  - vm_compute. repeat constructor.
Defined.


(** A fix that reports success but leaves a flagged [console.log]
    behind: verification fails and the file is put back. *)
Lemma verification_commits_or_rolls_back_witness :
  w_fs (fileIteration (engine [console_log_issue] 0.1 "console.log(2)")
          three_cycles [console_log_issue] "a.ts" 0
          (initialWorld one_file)).2 !! "a.ts"
  = Some "console.log(1)".
Proof.
  destruct (verification_commits_or_rolls_back
              (engine [console_log_issue] 0.1 "console.log(2)") three_cycles
              [console_log_issue] "a.ts" "console.log(1)" 0
              (initialWorld one_file)
              (executeClaudeFixWithRetry
                 (engine [console_log_issue] 0.1 "console.log(2)")
                 three_cycles "a.ts" [console_log_issue]
                 (transaction_start
                    (engine [console_log_issue] 0.1 "console.log(2)")
                    three_cycles [console_log_issue] "a.ts"
                    (initialWorld one_file))).2
              {| f_fixed := true; f_cost := Some 0.1%Q |})
    as (v & Hv & _ & _ & Hfailed & _).
  - discriminate.
  - reflexivity.
  - reflexivity.
  - reflexivity.
  - intros n issues fs p Hp. simpl. by apply lookup_insert_ne.
  - reflexivity.
  - reflexivity.
  - apply Hfailed. vm_compute in Hv. by injection Hv as <-.
Defined.

(** C4, where the code departs from it.  The fix reports success but
    leaves a [console.log] behind, and the verifying detection reports
    it without an [autoFixable] flag.  By the test every other place
    applies (explicit flag, else safe-pattern membership of the type)
    one auto-fixable issue remains, yet [verifyFix] looks at the flag
    alone, counts none and answers [verified]: the cycle counts the
    issue as fixed, the edited file stays and the backup is deleted. *)
Theorem verifyFix_ignores_unflagged_issues :
  countAutoFixable three_cycles [unflagged_issue] = 1%nat /\
  (verifyFix (engine [unflagged_issue] 0.1 "console.log(2)") "a.ts"
     (initialWorld one_file)).1
  = Returned {| v_verified := true; v_autoFixableRemaining := Some 0%nat;
                v_error := None |} /\
  (runRalphCycle (engine [unflagged_issue] 0.1 "console.log(2)") three_cycles
     ["a.ts"] (initialWorld one_file)).1
  = Returned {| complete := false; reason := None; remainingIssues := None;
                error := None; fixedThisCycle := Some 1%Z;
                issues := Some [unflagged_issue] |} /\
  map_to_list
    (w_fs (runRalphCycle (engine [unflagged_issue] 0.1 "console.log(2)")
             three_cycles ["a.ts"] (initialWorld one_file)).2)
  = [("a.ts", "console.log(2)")].
Proof. split_and!; vm_compute; reflexivity. Qed.

(** A cycle limit that is not an integer is rounded up by the loop
    test [cycle < maxCycles]: under 2.5 the third cycle still runs. *)
Definition two_and_a_half_cycles : Config :=
  {| maxCycles := 2.5; budgetWarning := 5; budgetHard := 20;
     backupFiles := true; verifyAfterFix := true;
     safePatterns := ["hardcoded-localhost"; "console-log"; "debugger-statement"];
     dashboardEnabled := true |}.

Lemma fractional_limit_rounds_up :
  cycle (w_ctl (runRalphMode (engine [console_log_issue] 0.1 "")
                  two_and_a_half_cycles ["a.ts"] (initialWorld one_file)).2)
  = 3%Z.
Proof. vm_compute. reflexivity. Qed.

(** The same engine with a Ctrl+C arriving during the first detection
    pass (the second wait of the run, after the dashboard's start). *)
Definition interrupted (e : Env) : Env :=
  {| review_process := review_process e; fix_process := fix_process e;
     sigint := fun n => (n =? 1)%nat; clock := clock e;
     dashboard := dashboard e; dashboard_listens := dashboard_listens e |}.

Lemma engine_always_one_issue (cost : Q) (edited : string) :
  always_one_issue (engine [console_log_issue] cost edited) three_cycles.
Proof.
  intros n files fs. exists (found [console_log_issue] cost), console_log_issue.
  by split_and!.
Qed.

(** C8 as the spec words it fails in three ways, each with
    [maxCycles = 3] and the reviewer of the scenario.  A reviewer that
    charges 6 per call exhausts the hard budget of 20 in two cycles,
    and the run stops there (still naming "Max cycles reached" as its
    reason).  A Ctrl+C during the first detection ends the run after one
    cycle.  Without a file to scan no cycle runs at all. *)
Lemma fewer_than_three_cycles :
  maxCycles three_cycles = 3%Q /\
  always_one_issue (engine [console_log_issue] 6 "") three_cycles /\
  ((runRalphMode (engine [console_log_issue] 6 "") three_cycles ["a.ts"]
      (initialWorld one_file)).1
   = Returned (RunEnded "stopped" (Some "Max cycles reached") None) /\
   cycle (w_ctl (runRalphMode (engine [console_log_issue] 6 "") three_cycles
                   ["a.ts"] (initialWorld one_file)).2) = 2%Z) /\
  ((runRalphMode (interrupted (engine [console_log_issue] 0.1 "")) three_cycles
      ["a.ts"] (initialWorld one_file)).1
   = Returned (RunEnded "stopped" (Some "User interrupted") None) /\
   cycle (w_ctl (runRalphMode (interrupted (engine [console_log_issue] 0.1 ""))
                   three_cycles ["a.ts"] (initialWorld one_file)).2) = 1%Z) /\
  (runRalphMode (engine [console_log_issue] 0.1 "") three_cycles []
     (initialWorld one_file)).1 = Returned NoFiles.
Proof.
  split_and!; try (vm_compute; reflexivity).
  apply engine_always_one_issue.
Qed.

End Scenarios.
